(** * A boundary-tag allocator with an explicit free list (mm.c)

    The allocator of [mm.c] manages one growable region obtained from
    [mem_sbrk].  Every block carries an 8-byte header and an 8-byte footer
    whose first 32-bit word is the bit-field pair [allocated : 1] (bit 0)
    and [block_size : 31] (bits 1..31); free blocks additionally hold two
    8-byte pointers [body.next] (offset 8) and [body.prev] (offset 16).

    The embedding is shallow: memory is a function from byte addresses to
    bytes, the two globals [prologue] and [freerootptr] and the break of
    the [memlib] arena are fields of an explicit state, and every C
    function is a Rocq function on that state. *)

From Stdlib Require Import ZArith List Bool Lia Ascii.
Import ListNotations.
Open Scope Z_scope.

(** ** Byte-addressed memory *)

Module Mem.

Definition mem := Z -> Z.

Definition upd (m : mem) (a v : Z) : mem :=
  fun x => if x =? a then v else m x.

(** Little-endian load and store of [n] bytes. *)
Fixpoint load_bytes (n : nat) (m : mem) (a : Z) : Z :=
  match n with
  | O => 0
  | S k => (m a) mod 256 + 256 * load_bytes k m (a + 1)
  end.

Fixpoint store_bytes (n : nat) (m : mem) (a v : Z) : mem :=
  match n with
  | O => m
  | S k => store_bytes k (upd m a (v mod 256)) (a + 1) (v / 256)
  end.

Definition load32 := load_bytes 4.
Definition store32 := store_bytes 4.
Definition load64 := load_bytes 8.
Definition store64 := store_bytes 8.

(** [memcpy dst src n]: the [n] bytes at [src] are read from the memory
    before the call (source and destination never overlap in the calls
    the allocator makes on a well-formed heap). *)
Definition memcpy (dst src n : Z) (m : mem) : mem :=
  fun x => if (dst <=? x) && (x <? dst + n) then m (src + (x - dst)) else m x.

End Mem.

(** ** Constants of mm.c *)

Definition NULL : Z := 0.
Definition WSIZE : Z := 8.
Definition DSIZE : Z := 16.
Definition FREE : Z := 0.
Definition ALLOC : Z := 1.
Definition CHUNKSIZE : Z := Z.shiftl 1 16.
Definition sizeof_header_t : Z := 8.
Definition sizeof_footer_t : Z := 8.
Definition OVERHEAD : Z := sizeof_header_t + sizeof_footer_t.
Definition MIN_BLOCK_SIZE : Z := 32.

(** Wrap-around of [size_t] (64 bits) and [uint32_t]. *)
Definition wrap64 (x : Z) : Z := x mod 2 ^ 64.
Definition wrap32 (x : Z) : Z := x mod 2 ^ 32.

(** ** Allocator state *)

Record state := mkState {
  mem : Mem.mem;
  mem_brk : Z;        (* memlib: address one past the last granted byte *)
  mem_max_addr : Z;   (* memlib: address one past the end of the arena *)
  prologue : Z;       (* static block_t* prologue *)
  freerootptr : Z     (* static block_t* freerootptr *)
}.

Definition with_mem (m : Mem.mem) (s : state) : state :=
  mkState m (mem_brk s) (mem_max_addr s) (prologue s) (freerootptr s).
Definition set_prologue (p : Z) (s : state) : state :=
  mkState (mem s) (mem_brk s) (mem_max_addr s) p (freerootptr s).
Definition set_freerootptr (p : Z) (s : state) : state :=
  mkState (mem s) (mem_brk s) (mem_max_addr s) (prologue s) p.
Definition set_brk (b : Z) (s : state) : state :=
  mkState (mem s) b (mem_max_addr s) (prologue s) (freerootptr s).

(** Modelled from the spec: the growth primitive [mem_sbrk] of memlib is
    not part of mm.c.  The spec's contract is an [extend(bytes)] call that
    hands out the bytes immediately following the previously granted region
    and returns their address, or fails when no more memory is available;
    availability is the room left below [mem_max_addr].  [None] is the
    failure signal [(void * )-1]. *)
Definition mem_sbrk (incr : Z) (s : state) : option (Z * state) :=
  if (incr <? 0) || (mem_max_addr s <? mem_brk s + incr) then None
  else Some (mem_brk s, set_brk (mem_brk s + incr) s).

(** ** Block codec: the bit-fields of [header_t] / [footer_t] / [block_t] *)

Definition allocated (s : state) (p : Z) : Z :=
  Mem.load32 (mem s) p mod 2.

Definition block_size (s : state) (p : Z) : Z :=
  (Mem.load32 (mem s) p / 2) mod 2 ^ 31.

(** [p->allocated = v]: only bit 0 of the word changes. *)
Definition set_allocated (p v : Z) (s : state) : state :=
  let w := Mem.load32 (mem s) p in
  with_mem (Mem.store32 (mem s) p (2 * (w / 2) + v mod 2)) s.

(** [p->block_size = v]: the value is truncated to 31 bits, bit 0 is kept. *)
Definition set_block_size (p v : Z) (s : state) : state :=
  let w := Mem.load32 (mem s) p in
  with_mem (Mem.store32 (mem s) p (2 * (v mod 2 ^ 31) + w mod 2)) s.

Definition GET_NEXT (s : state) (bp : Z) : Z := Mem.load64 (mem s) (bp + 8).
Definition GET_PREV (s : state) (bp : Z) : Z := Mem.load64 (mem s) (bp + 16).
Definition SET_NEXT (bp np : Z) (s : state) : state :=
  with_mem (Mem.store64 (mem s) (bp + 8) np) s.
Definition SET_PREV (bp np : Z) (s : state) : state :=
  with_mem (Mem.store64 (mem s) (bp + 16) np) s.

Definition get_footer (s : state) (block : Z) : Z :=
  block + block_size s block - sizeof_footer_t.

Definition payload (block : Z) : Z := block + sizeof_header_t.

(** ** mm_init *)

(** [prologue] is assigned the result of [mem_sbrk] before the result is
    tested: when the call fails, the global is left at [(void* )-1]. *)
Definition mm_init (s : state) : Z * state :=
  match mem_sbrk CHUNKSIZE s with
  | None => (-1, set_prologue (wrap64 (-1)) s)
  | Some (p, s) =>
    let s := set_prologue p s in
    let s := set_allocated (prologue s) ALLOC s in
    let s := set_block_size (prologue s) sizeof_header_t s in
    let init_block := prologue s + sizeof_header_t in
    let s := set_allocated init_block FREE s in
    let s := set_block_size init_block (CHUNKSIZE - OVERHEAD) s in
    let s := set_freerootptr init_block s in
    let s := SET_NEXT (freerootptr s) NULL s in
    let s := SET_PREV (freerootptr s) NULL s in
    let init_footer := get_footer s init_block in
    let s := set_allocated init_footer FREE s in
    let s := set_block_size init_footer (block_size s init_block) s in
    let epilogue := init_block + block_size s init_block in
    let s := set_allocated epilogue ALLOC s in
    let s := set_block_size epilogue 0 s in
    (0, s)
  end.

(** ** find_fit: first fit over the explicit list.

    The C loop follows [body.next] until it meets NULL; [fuel] bounds the
    number of iterations and [None] means the bound was reached. *)

Fixpoint find_fit_from (fuel : nat) (asize b : Z) (s : state) : option Z :=
  match fuel with
  | O => None
  | S k =>
    if b =? NULL then Some NULL
    else if asize <=? block_size s b then Some b
    else find_fit_from k asize (GET_NEXT s b) s
  end.

Definition find_fit (fuel : nat) (asize : Z) (s : state) : option Z :=
  find_fit_from fuel asize (freerootptr s) s.

(** ** place *)

Definition place (block asize : Z) (s : state) : state :=
  let split_size := wrap64 (block_size s block - asize) in
  if MIN_BLOCK_SIZE <=? split_size then
    let s := set_block_size block asize s in
    let s := set_allocated block ALLOC s in
    let footer := get_footer s block in
    let s := set_block_size footer asize s in
    let s := set_allocated footer ALLOC s in
    let new_block := block + block_size s block in
    let s := set_block_size new_block split_size s in
    let s := set_allocated new_block FREE s in
    let new_footer := get_footer s new_block in
    let s := set_block_size new_footer split_size s in
    let s := set_allocated new_footer FREE s in
    let s := if negb (GET_PREV s block =? NULL)
             then SET_NEXT (GET_PREV s block) new_block s else s in
    let s := if negb (GET_NEXT s block =? NULL)
             then SET_PREV (GET_NEXT s block) new_block s else s in
    let s := SET_NEXT new_block (GET_NEXT s block) s in
    let s := SET_PREV new_block (GET_PREV s block) s in
    let s := SET_NEXT block NULL s in
    let s := SET_PREV block NULL s in
    let s := if GET_PREV s new_block =? NULL
             then set_freerootptr new_block s else s in
    s
  else
    let s := set_allocated block ALLOC s in
    let footer := get_footer s block in
    let s := set_allocated footer ALLOC s in
    let s := if negb (GET_PREV s block =? NULL)
             then SET_NEXT (GET_PREV s block) (GET_NEXT s block) s else s in
    let s := if negb (GET_NEXT s block =? NULL)
             then SET_PREV (GET_NEXT s block) (GET_PREV s block) s else s in
    let s := if (GET_PREV s block =? NULL) && negb (GET_NEXT s block =? NULL)
             then set_freerootptr (GET_NEXT s block) s else s in
    let s := if (GET_PREV s block =? NULL) && (GET_NEXT s block =? NULL)
             then set_freerootptr NULL s else s in
    let s := SET_NEXT block NULL s in
    let s := SET_PREV block NULL s in
    s.

(** ** coalesce: boundary-tag coalescing, the four cases of the source *)

Definition coalesce (block : Z) (s : state) : Z * state :=
  let prev_footer := block - sizeof_header_t in
  let next_header := block + block_size s block in
  let prev_alloc := negb (allocated s prev_footer =? 0) in
  let next_alloc := negb (allocated s next_header =? 0) in
  if prev_alloc && next_alloc then
    (* Case 1 *)
    if (freerootptr s =? NULL) || (freerootptr s =? block) then
      let s := set_freerootptr block s in
      let s := SET_NEXT (freerootptr s) NULL s in
      let s := SET_PREV (freerootptr s) NULL s in
      (block, s)
    else
      let s := SET_NEXT block (freerootptr s) s in
      let s := SET_PREV (freerootptr s) block s in
      let s := set_freerootptr block s in
      let s := SET_PREV block NULL s in
      (block, s)
  else if prev_alloc && negb next_alloc then
    (* Case 2 *)
    let next_block := block + block_size s block in
    let s := if negb (GET_PREV s next_block =? NULL)
             then SET_NEXT (GET_PREV s next_block) (GET_NEXT s next_block) s
             else s in
    let s := if negb (GET_NEXT s next_block =? NULL)
             then SET_PREV (GET_NEXT s next_block) (GET_PREV s next_block) s
             else s in
    let s :=
      if negb (GET_NEXT s next_block =? NULL) && (next_block =? freerootptr s)
      then
        let s := SET_NEXT block (GET_NEXT s next_block) s in
        let s := SET_PREV (GET_NEXT s next_block) block s in
        let s := set_freerootptr block s in
        let s := SET_PREV block NULL s in
        let s := SET_NEXT next_block NULL s in
        s
      else if (GET_NEXT s next_block =? NULL) && (next_block =? freerootptr s)
      then
        let s := set_freerootptr block s in
        let s := SET_PREV block NULL s in
        let s := SET_NEXT block NULL s in
        s
      else
        let s := SET_NEXT block (freerootptr s) s in
        let s := SET_PREV (freerootptr s) block s in
        let s := set_freerootptr block s in
        let s := SET_PREV block NULL s in
        s in
    let s := SET_NEXT next_block NULL s in
    let s := SET_PREV next_block NULL s in
    let s := set_block_size block
               (block_size s block + block_size s next_header) s in
    let next_footer := get_footer s block in
    let s := set_block_size next_footer (block_size s block) s in
    (block, s)
  else if negb prev_alloc && next_alloc then
    (* Case 3 *)
    let prev_block :=
      prev_footer - block_size s prev_footer + sizeof_header_t in
    let s := if negb (GET_PREV s prev_block =? NULL)
             then SET_NEXT (GET_PREV s prev_block) (GET_NEXT s prev_block) s
             else s in
    let s := if negb (GET_NEXT s prev_block =? NULL)
             then SET_PREV (GET_NEXT s prev_block) (GET_PREV s prev_block) s
             else s in
    let s :=
      if negb (GET_NEXT s prev_block =? NULL) && (prev_block =? freerootptr s)
      then SET_PREV (GET_NEXT s (freerootptr s)) prev_block s
      else if (GET_NEXT s prev_block =? NULL) && (prev_block =? freerootptr s)
      then s
      else
        let s := SET_NEXT prev_block (freerootptr s) s in
        let s := SET_PREV (freerootptr s) prev_block s in
        let s := set_freerootptr prev_block s in
        s in
    let s := SET_PREV prev_block NULL s in
    let s := SET_PREV block NULL s in
    let s := SET_NEXT block NULL s in
    let s := set_block_size prev_block
               (block_size s prev_block + block_size s block) s in
    let footer := get_footer s prev_block in
    let s := set_block_size footer (block_size s prev_block) s in
    (prev_block, s)
  else
    (* Case 4 *)
    let next_block := block + block_size s block in
    let prev_block :=
      prev_footer - block_size s prev_footer + sizeof_header_t in
    let s :=
      if GET_NEXT s prev_block =? next_block then
        let s := if negb (GET_PREV s prev_block =? NULL)
                 then SET_NEXT (GET_PREV s prev_block) (GET_NEXT s next_block) s
                 else s in
        let s := if negb (GET_NEXT s next_block =? NULL)
                 then SET_PREV (GET_NEXT s next_block) (GET_PREV s prev_block) s
                 else s in
        let s := if (prev_block =? freerootptr s)
                    && negb (GET_NEXT s next_block =? NULL)
                 then set_freerootptr (GET_NEXT s next_block) s else s in
        let s := SET_NEXT prev_block NULL s in
        let s := SET_PREV next_block NULL s in
        let s :=
          if (GET_PREV s prev_block =? NULL) && (GET_NEXT s next_block =? NULL)
          then s
          else
            let s := SET_NEXT prev_block (freerootptr s) s in
            let s := SET_PREV (freerootptr s) prev_block s in
            let s := set_freerootptr prev_block s in
            let s := SET_PREV (freerootptr s) NULL s in
            s in
        let s := SET_NEXT next_block NULL s in
        s
      else if GET_NEXT s next_block =? prev_block then
        let s := if negb (GET_PREV s next_block =? NULL)
                 then SET_NEXT (GET_PREV s next_block) (GET_NEXT s prev_block) s
                 else s in
        let s := if negb (GET_NEXT s prev_block =? NULL)
                 then SET_PREV (GET_NEXT s prev_block) (GET_PREV s next_block) s
                 else s in
        let s := if (next_block =? freerootptr s)
                    && negb (GET_NEXT s prev_block =? NULL)
                 then set_freerootptr (GET_NEXT s prev_block) s else s in
        let s := SET_NEXT next_block NULL s in
        let s := SET_PREV prev_block NULL s in
        let s :=
          if (GET_PREV s next_block =? NULL) && (GET_NEXT s prev_block =? NULL)
          then set_freerootptr prev_block s
          else if (GET_PREV s next_block =? NULL)
                  && negb (GET_NEXT s prev_block =? NULL)
          then
            let s := set_freerootptr prev_block s in
            let s := SET_PREV (GET_NEXT s prev_block) prev_block s in
            s
          else
            let s := SET_NEXT prev_block (freerootptr s) s in
            let s := SET_PREV (freerootptr s) prev_block s in
            let s := set_freerootptr prev_block s in
            let s := SET_PREV (freerootptr s) NULL s in
            s in
        let s := SET_PREV next_block NULL s in
        s
      else
        let s := if negb (GET_PREV s next_block =? NULL)
                 then SET_NEXT (GET_PREV s next_block) (GET_NEXT s next_block) s
                 else s in
        let s := if negb (GET_NEXT s next_block =? NULL)
                 then SET_PREV (GET_NEXT s next_block) (GET_PREV s next_block) s
                 else s in
        let s := if negb (GET_PREV s prev_block =? NULL)
                 then SET_NEXT (GET_PREV s prev_block) (GET_NEXT s prev_block) s
                 else s in
        let s := if negb (GET_NEXT s prev_block =? NULL)
                 then SET_PREV (GET_NEXT s prev_block) (GET_PREV s prev_block) s
                 else s in
        if negb (prev_block =? freerootptr s)
           && negb (next_block =? freerootptr s)
        then
          let s := SET_NEXT prev_block (freerootptr s) s in
          let s := SET_PREV (freerootptr s) prev_block s in
          let s := set_freerootptr prev_block s in
          let s := SET_PREV (freerootptr s) NULL s in
          s
        else if (prev_block =? freerootptr s)
                && negb (next_block =? freerootptr s)
        then
          let s := SET_PREV (GET_NEXT s (freerootptr s)) prev_block s in
          let s := SET_PREV (GET_NEXT s (freerootptr s)) prev_block s in
          let s := SET_PREV (freerootptr s) NULL s in
          s
        else if negb (prev_block =? freerootptr s)
                && (next_block =? freerootptr s)
        then
          let s := SET_NEXT prev_block (GET_NEXT s next_block) s in
          let s := SET_PREV (GET_NEXT s next_block) prev_block s in
          let s := set_freerootptr prev_block s in
          let s := SET_PREV (freerootptr s) NULL s in
          s
        else s in
    let s := set_block_size prev_block
               (block_size s prev_block + block_size s block
                + block_size s next_header) s in
    let next_footer := get_footer s prev_block in
    let s := set_block_size next_footer (block_size s prev_block) s in
    (prev_block, s).

(** ** extend_heap *)

Definition extend_heap (words : Z) (s : state) : Z * state :=
  let size := wrap32 (wrap64 (Z.shiftl words 3)) in
  if size =? 0 then (NULL, s)
  else
    match mem_sbrk size s with
    | None => (NULL, s)
    | Some (p, s) =>
      let block := p - sizeof_header_t in
      let s := set_allocated block FREE s in
      let s := set_block_size block size s in
      let block_footer := get_footer s block in
      let s := set_allocated block_footer FREE s in
      let s := set_block_size block_footer (block_size s block) s in
      let new_epilogue := block_footer + sizeof_header_t in
      let s := set_allocated new_epilogue ALLOC s in
      let s := set_block_size new_epilogue 0 s in
      let s :=
        if freerootptr s =? NULL then
          let s := set_freerootptr block s in
          let s := SET_NEXT block NULL s in
          let s := SET_PREV block NULL s in
          s
        else s in
      coalesce block s
    end.

(** ** Public operations *)

(** Outcome of a public call: it returns a value in a new state, it
    terminates the process ([exit(1)] in [mm_realloc]), or the bound on
    the free-list walk was reached. *)
Inductive outcome (A : Type) : Type :=
| Returns (a : A) (s : state)
| Exits (s : state)
| OutOfFuel.
Arguments Returns {A} a s.
Arguments Exits {A} s.
Arguments OutOfFuel {A}.

(** The adjusted block size computed by [mm_malloc] ([size_t] arithmetic,
    then the assignment to the [uint32_t asize]). *)
Definition adjust_size (size : Z) : Z :=
  let size := wrap64 (size + OVERHEAD) in
  let asize := wrap32 (wrap64 (Z.shiftl (Z.shiftr (wrap64 (size + 7)) 3) 3)) in
  if asize <? MIN_BLOCK_SIZE then MIN_BLOCK_SIZE else asize.

Definition mm_malloc (fuel : nat) (size : Z) (s : state) : outcome Z :=
  if size =? 0 then Returns NULL s
  else
    let asize := adjust_size size in
    match find_fit fuel asize s with
    | None => OutOfFuel
    | Some block =>
      if negb (block =? NULL) then
        let s := place block asize s in
        Returns (payload block) s
      else
        let extendsize := if CHUNKSIZE <? asize then asize else CHUNKSIZE in
        let extendwords := Z.shiftr extendsize 3 in
        let '(block, s) := extend_heap extendwords s in
        if negb (block =? NULL) then
          let s := place block asize s in
          Returns (payload block) s
        else Returns NULL s
    end.

Definition mm_free (payload : Z) (s : state) : state :=
  let block := payload - sizeof_header_t in
  let s := set_allocated block FREE s in
  let footer := get_footer s block in
  let s := set_allocated footer FREE s in
  snd (coalesce block s).

Definition mm_realloc (fuel : nat) (ptr size : Z) (s : state) : outcome Z :=
  match mm_malloc fuel size s with
  | OutOfFuel => OutOfFuel
  | Exits s => Exits s
  | Returns newp s =>
    if newp =? NULL then Exits s
    else
      let block := ptr - sizeof_header_t in
      let copySize := block_size s block in
      let copySize := if size <? copySize then size else copySize in
      let s := with_mem (Mem.memcpy newp ptr copySize (mem s)) s in
      let s := mm_free ptr s in
      Returns newp s
  end.

(** * Heap well-formedness

    A physical layout is the list of the blocks between the prologue and the
    epilogue, each with its address, its size and its allocated flag. *)

Definition blk : Type := Z * Z * Z.

(** [chain a bl e]: the blocks of [bl] tile the addresses from [a] to [e];
    every block has at least the minimum block size. *)
Fixpoint chain (a : Z) (bl : list blk) (e : Z) : Prop :=
  match bl with
  | [] => a = e
  | (x, sz, _) :: bl' => x = a /\ MIN_BLOCK_SIZE <= sz /\ chain (a + sz) bl' e
  end.

(** Header and footer of a block carry its size and its flag. *)
Definition tag_ok (s : state) (b : blk) : Prop :=
  let '(x, sz, al) := b in
  block_size s x = sz /\ allocated s x = al /\
  block_size s (x + sz - sizeof_footer_t) = sz /\
  allocated s (x + sz - sizeof_footer_t) = al.

Definition isfree (bl : list blk) (x : Z) : Prop := exists sz, In (x, sz, FREE) bl.
Definition isalloc (bl : list blk) (x : Z) : Prop := exists sz, In (x, sz, ALLOC) bl.
Definition node (bl : list blk) (x : Z) : Prop := exists sz al, In (x, sz, al) bl.

Fixpoint nfree (bl : list blk) : Z :=
  match bl with
  | [] => 0
  | (_, _, al) :: bl' => (if al =? FREE then 1 else 0) + nfree bl'
  end.

Record layout_ok (s : state) (bl : list blk) : Prop := {
  lo_bounds : 0 < prologue s /\ mem_brk s <= mem_max_addr s /\
              mem_max_addr s - prologue s < 2 ^ 31 /\ mem_max_addr s <= 2 ^ 64;
  lo_prologue : block_size s (prologue s) = sizeof_header_t /\
                allocated s (prologue s) = ALLOC;
  lo_chain : chain (prologue s + sizeof_header_t) bl (mem_brk s - sizeof_header_t);
  lo_epilogue : block_size s (mem_brk s - sizeof_header_t) = 0 /\
                allocated s (mem_brk s - sizeof_header_t) = ALLOC;
  lo_tags : forall b, In b bl -> tag_ok s b
}.

(** The explicit free list, seen from its nodes: [N] and [P] read the two
    link fields, [F] is the set of nodes, [root] the head, and [rank x] the
    position of [x] counted from the head; [nf] bounds the ranks. *)
Record fl_ok (N P : Z -> Z) (root : Z) (F : Z -> Prop) (rank : Z -> Z) (nf : Z)
  : Prop := {
  fl_empty : root = NULL -> forall x, ~ F x;
  fl_root : root <> NULL -> F root /\ P root = NULL /\ rank root = 0;
  fl_next : forall x, F x -> N x <> NULL ->
            F (N x) /\ P (N x) = x /\ rank (N x) = rank x + 1;
  fl_prev : forall x, F x -> P x <> NULL -> F (P x) /\ N (P x) = x;
  fl_first : forall x, F x -> P x = NULL -> x = root;
  fl_rank : forall x, F x -> 0 <= rank x < nf
}.

(** Pointer surgery on the list, as updates of the two link functions. *)
Definition fupd (f : Z -> Z) (k v : Z) : Z -> Z :=
  fun x => if x =? k then v else f x.

(** Take the node [b] out of the list. *)
Definition unlink_N (N P : Z -> Z) (b : Z) : Z -> Z := fupd N (P b) (N b).
Definition unlink_P (N P : Z -> Z) (b : Z) : Z -> Z := fupd P (N b) (P b).
Definition unlink_root (N P : Z -> Z) (root b : Z) : Z :=
  if P b =? NULL then N b else root.
Definition unlink_rank (rank : Z -> Z) (b : Z) : Z -> Z :=
  fun x => if rank b <? rank x then rank x - 1 else rank x.

(** Put the node [b] in front of the list. *)
Definition push_N (N : Z -> Z) (root b : Z) : Z -> Z := fupd N b root.
Definition push_P (P : Z -> Z) (root b : Z) : Z -> Z := fupd (fupd P root b) b NULL.
Definition push_rank (rank : Z -> Z) (b : Z) : Z -> Z :=
  fun x => if x =? b then 0 else rank x + 1.

(** Put the node [nb] at the place of the node [b]. *)
Definition subst_N (N P : Z -> Z) (b nb : Z) : Z -> Z :=
  fupd (fupd N (P b) nb) nb (N b).
Definition subst_P (N P : Z -> Z) (b nb : Z) : Z -> Z :=
  fupd (fupd P (N b) nb) nb (P b).
Definition subst_root (P : Z -> Z) (root b nb : Z) : Z :=
  if P b =? NULL then nb else root.
Definition subst_rank (rank : Z -> Z) (b nb : Z) : Z -> Z :=
  fun x => if x =? nb then rank b else rank x.

(** No two free blocks are physically adjacent. *)
Definition no_adj (bl : list blk) : Prop :=
  forall x sx y sy, In (x, sx, FREE) bl -> In (y, sy, FREE) bl -> y <> x + sx.

Definition heap_inv (s : state) (bl : list blk) (rank : Z -> Z) : Prop :=
  layout_ok s bl /\
  fl_ok (GET_NEXT s) (GET_PREV s) (freerootptr s) (isfree bl) rank (nfree bl) /\
  no_adj bl.

(** Two block addresses are equal or their link fields are apart. *)
Definition sep (x y : Z) : Prop := x = y \/ x + 24 <= y \/ y + 24 <= x.

(** The tag word at [q] lies outside the link fields of the block at [y]. *)
Definition clear (q y : Z) : Prop := q + 4 <= y + 8 \/ y + 24 <= q.

(** The tag word at [q] is outside the link fields of every block. *)
Definition linkfree (bl : list blk) (q : Z) : Prop :=
  forall y, node bl y -> clear q y.

(** [s'] differs from [s] at most in link fields of blocks of [bl] and in
    the root: same break, same prologue, same tags. *)
Definition same_tags (bl : list blk) (s s' : state) : Prop :=
  mem_brk s' = mem_brk s /\ mem_max_addr s' = mem_max_addr s /\
  prologue s' = prologue s /\
  forall q, linkfree bl q ->
    block_size s' q = block_size s q /\ allocated s' q = allocated s q.

(** The state in which [coalesce] is entered: the tags of [block] already
    say free, the list does not hold it yet.  When the list is empty the
    root may already point to [block] (as [extend_heap] leaves it). *)
Definition coalesce_pre (s : state) (bl : list blk) (block : Z)
    (rank : Z -> Z) : Prop :=
  layout_ok s bl /\
  (exists r,
     (r = freerootptr s \/ (r = NULL /\ freerootptr s = block)) /\
     fl_ok (GET_NEXT s) (GET_PREV s) r
           (fun x => isfree bl x /\ x <> block) rank (nfree bl - 1)) /\
  (forall x sx y sy,
     In (x, sx, FREE) bl -> In (y, sy, FREE) bl ->
     x <> block -> y <> block -> y <> x + sx).

(** The layout after the free block [(x, sz)] between [l1] and [l2] has
    absorbed its free physical neighbours, with the address of the result. *)
Definition absorb_next (sz : Z) (l2 : list blk) : Z * list blk :=
  match l2 with
  | (_, sn, a) :: l2' => if a =? FREE then (sz + sn, l2') else (sz, l2)
  | [] => (sz, l2)
  end.

Definition absorb_prev (l1 : list blk) (x sz : Z) : list blk * Z * Z :=
  match rev l1 with
  | (p, sp, a) :: r1 => if a =? FREE then (rev r1, p, sp + sz) else (l1, x, sz)
  | [] => (l1, x, sz)
  end.

Definition merged (l1 : list blk) (x sz : Z) (l2 : list blk) : list blk * Z :=
  let '(sz1, l2') := absorb_next sz l2 in
  let '(l1', x', sz2) := absorb_prev l1 x sz1 in
  (l1' ++ (x', sz2, FREE) :: l2', x').

(** A marker for the variables that name a value read from the state. *)
Definition atom (x : Z) : Prop := True.

(** The layout after [place] has carved [asize] bytes out of the free block
    [(b, sz)]: the block is split when the remainder can hold a block of the
    minimum size, and handed out whole otherwise. *)
Definition placed (l1 : list blk) (b sz asize : Z) (l2 : list blk) : list blk :=
  if MIN_BLOCK_SIZE <=? sz - asize
  then l1 ++ (b, asize, ALLOC) :: (b + asize, sz - asize, FREE) :: l2
  else l1 ++ (b, sz, ALLOC) :: l2.

(** The number of bytes by which [mm_malloc] grows the heap. *)
Definition extend_amount (asize : Z) : Z :=
  if CHUNKSIZE <? asize then asize else CHUNKSIZE.

(** ** Observations of a heap

    [heap_walk] follows the headers from the block after the prologue to the
    epilogue (the header of size 0), as [mm_checkheap] does; [free_walk]
    follows [body.next] from the root of the free list, as [find_fit] does.
    Both are bounded by [fuel]. *)
Fixpoint heap_walk (fuel : nat) (b : Z) (s : state) : option (list blk) :=
  match fuel with
  | O => None
  | S k =>
    let sz := block_size s b in
    if sz =? 0 then Some []
    else match heap_walk k (b + sz) s with
         | Some l => Some ((b, sz, allocated s b) :: l)
         | None => None
         end
  end.

Definition heap_blocks (fuel : nat) (s : state) : option (list blk) :=
  heap_walk fuel (prologue s + block_size s (prologue s)) s.

Fixpoint free_walk (fuel : nat) (b : Z) (s : state) : option (list Z) :=
  match fuel with
  | O => None
  | S k =>
    if b =? NULL then Some []
    else match free_walk k (GET_NEXT s b) s with
         | Some l => Some (b :: l)
         | None => None
         end
  end.

Definition free_list (fuel : nat) (s : state) : option (list Z) :=
  free_walk fuel (freerootptr s) s.

(** Header and footer of the block at [b] agree. *)
Definition tags_agree (s : state) (b : Z) : Prop :=
  block_size s (get_footer s b) = block_size s b /\
  allocated s (get_footer s b) = allocated s b.

(** [p] is the payload pointer of an allocated block of the heap. *)
Definition live (s : state) (p : Z) : Prop :=
  exists fuel bl sz,
    heap_blocks fuel s = Some bl /\ In (p - sizeof_header_t, sz, ALLOC) bl.

(** The arena handed to [mm_init]: it starts above address 0, and its end
    is within 2^31 bytes of its start and within the 64-bit address space. *)
Definition arena_ok (s0 : state) : Prop :=
  0 < mem_brk s0 /\ mem_max_addr s0 - mem_brk s0 < 2 ^ 31 /\
  mem_max_addr s0 <= 2 ^ 64.

(** The states in which the allocator is observed: after a successful
    [mm_init], after any [mm_malloc], after any [mm_free] of a live
    pointer, after a store of the client into the payload of a live block,
    and after a returning [mm_realloc] of a live pointer to a size with
    [size + OVERHEAD + 7 < 2 ^ 32].  The bound on [mm_realloc] is needed:
    above it the adjusted size of the new block is reduced modulo 2^32
    while the number of bytes copied is not, and the copy runs past the
    end of the new block. *)
Inductive reachable : state -> Prop :=
| reach_init s0 s :
    arena_ok s0 -> mm_init s0 = (0, s) -> reachable s
| reach_malloc s fuel size p s' :
    reachable s -> mm_malloc fuel size s = Returns p s' -> reachable s'
| reach_free s p :
    reachable s -> live s p -> reachable (mm_free p s)
| reach_write s p a v :
    reachable s -> live s p ->
    p <= a < p + block_size s (p - sizeof_header_t) - OVERHEAD ->
    reachable (with_mem (Mem.upd (mem s) a v) s)
| reach_realloc s fuel p size q s' :
    reachable s -> live s p -> size + OVERHEAD + 7 < 2 ^ 32 ->
    0 <= size ->
    mm_realloc fuel p size s = Returns q s' -> reachable s'.

(** ** Example heaps

    A zeroed arena of 1 MiB at address 4096, the heap [mm_init] makes of
    it, and the heaps after a few requests of 16 bytes. *)
Definition arena0 : state := mkState (fun _ => 0) 4096 (4096 + 1048576) 0 0.
Definition heap0 : state := snd (mm_init arena0).

(** The state after a call that returns; the state is unchanged when the
    call does not return. *)
Definition after (o : outcome Z) (s : state) : state :=
  match o with Returns _ s' => s' | _ => s end.
Definition result (o : outcome Z) : Z :=
  match o with Returns p _ => p | _ => NULL end.

Definition is_returns (o : outcome Z) : bool :=
  match o with Returns _ _ => true | _ => false end.

Definition heap1 : state := after (mm_malloc 8 16 heap0) heap0.
Definition heap2 : state := after (mm_malloc 8 16 heap1) heap1.
Definition heap3 : state := after (mm_malloc 8 16 heap2) heap2.
Definition heap4 : state := after (mm_malloc 8 16 heap3) heap3.
Definition heap5 : state := after (mm_malloc 8 16 heap4) heap4.
(** The five payload pointers are 4112, 4144, 4176, 4208 and 4240. *)
Definition heap5a : state := mm_free 4112 heap5.
Definition heap5ad : state := mm_free 4208 heap5a.
Definition heap5adb : state := mm_free 4144 heap5ad.

(** The layout of [heap5ad] and the positions of its free blocks in the
    free list. *)
Definition layout5ad : list blk :=
  [(4104, 32, 0); (4136, 32, 1); (4168, 32, 1); (4200, 32, 0); (4232, 32, 1);
   (4264, 65360, 0)].
Definition rank5ad (x : Z) : Z :=
  if x =? 4200 then 0 else if x =? 4104 then 1 else 2.

(** An arena with room for the initial chunk only. *)
Definition arena_small : state := mkState (fun _ => 0) 4096 (4096 + 65536) 0 0.
Definition heap_small : state := snd (mm_init arena_small).

(** A reallocation of the first block of [heap1] to 2^32 + 1 bytes: the
    call returns 4144. *)
Definition heap1x : state :=
  after (mm_realloc 8 4112 (2 ^ 32 + 1) heap1) heap1.

(** [heap5ad] after a store of the client into the payload at 4144 and a
    reallocation of that block to 40 bytes. *)
Definition heap5w : state := with_mem (Mem.upd (mem heap5ad) 4150 65) heap5ad.
Definition heap5r : state := after (mm_realloc 8 4144 40 heap5w) heap5w.

(** ** mm_checkheap

    The checker only reads the heap and writes lines to the standard
    output; a [line] is one [printf] of the source together with the values
    of its arguments. *)
Inductive line : Type :=
| HeapAt (p : Z)
| BadPrologue
| BadEpilogue
| EOL (block : Z)
| BlockLine (block hsize : Z) (halloc : ascii) (fsize : Z) (falloc : ascii)
| NotAligned (block : Z)
| TagMismatch.

(** [halloc ? 'a' : 'f'] *)
Definition alloc_char (a : Z) : ascii :=
  if a =? 0 then "f"%char else "a"%char.

Definition printblock (s : state) (block : Z) : list line :=
  let hsize := block_size s block in
  let halloc := allocated s block in
  let footer := get_footer s block in
  let fsize := block_size s footer in
  let falloc := allocated s footer in
  if hsize =? 0 then [EOL block]
  else [BlockLine block hsize (alloc_char halloc) fsize (alloc_char falloc)].

Definition checkblock (s : state) (block : Z) : list line :=
  (if negb (wrap64 (payload block) mod 8 =? 0) then [NotAligned block] else []) ++
  (let footer := get_footer s block in
   if negb (block_size s block =? block_size s footer) then [TagMismatch]
   else []).

(** The loop of [mm_checkheap] over the blocks after the prologue: it
    returns the lines written and the block at which it stopped (the first
    header of size 0). [fuel] bounds the number of iterations. *)
Fixpoint checkheap_loop (fuel : nat) (verbose : Z) (block : Z) (s : state)
  : option (list line * Z) :=
  match fuel with
  | O => None
  | S k =>
    if 0 <? block_size s block then
      let out := (if negb (verbose =? 0) then printblock s block else []) ++
                 checkblock s block in
      match checkheap_loop k verbose (block + block_size s block) s with
      | Some (rest, e) => Some (out ++ rest, e)
      | None => None
      end
    else Some ([], block)
  end.

Definition mm_checkheap (fuel : nat) (verbose : Z) (s : state)
  : option (list line) :=
  let block := prologue s in
  let out0 := if negb (verbose =? 0) then [HeapAt (prologue s)] else [] in
  let out1 :=
    if negb (block_size s block =? sizeof_header_t) || (allocated s block =? 0)
    then [BadPrologue] else [] in
  let out2 := checkblock s (prologue s) in
  match checkheap_loop fuel verbose
          (prologue s + block_size s (prologue s)) s with
  | None => None
  | Some (out3, block) =>
    let out4 := if negb (verbose =? 0) then printblock s block else [] in
    let out5 :=
      if negb (block_size s block =? 0) || (allocated s block =? 0)
      then [BadEpilogue] else [] in
    Some (out0 ++ out1 ++ out2 ++ out3 ++ out4 ++ out5)
  end.

(** The line [printblock] writes for a block whose footer agrees with its
    header. *)
Definition block_line (b : blk) : line :=
  let '(x, sz, a) := b in BlockLine x sz (alloc_char a) sz (alloc_char a).

(** ** Alignment *)

(** Every block size of the layout is a multiple of 8. *)
Definition sizes8 (bl : list blk) : Prop :=
  forall x sz a, In (x, sz, a) bl -> sz mod 8 = 0.

(** The bytes covered by the blocks of a layout. *)
Definition span (bl : list blk) : Z :=
  fold_right (fun b acc => snd (fst b) + acc) 0 bl.

(** * Memory: loads after stores *)

Module MemFacts.
Import Mem.

Lemma store_bytes_outside n : forall m a v x,
x < a \/ a + Z.of_nat n <= x -> store_bytes n m a v x = m x.
Proof.
induction n as [|n IH]; intros m a v x Hx; simpl; [reflexivity|].
rewrite IH by lia. unfold upd.
destruct (Z.eqb_spec x a); [lia|reflexivity].
Qed.

Lemma load_bytes_ext n : forall m m' a,
(forall x, a <= x < a + Z.of_nat n -> m x = m' x) ->
load_bytes n m a = load_bytes n m' a.
Proof.
induction n as [|n IH]; intros m m' a H; simpl; [reflexivity|].
rewrite (H a) by lia. rewrite (IH m m' (a + 1)); [reflexivity|].
intros x Hx. apply H. lia.
Qed.

Lemma load_bytes_range n : forall m a, 0 <= load_bytes n m a < 256 ^ Z.of_nat n.
Proof.
induction n as [|n IH]; intros m a.
- simpl. lia.
- cbn [load_bytes]. specialize (IH m (a + 1)).
  pose proof (Z.mod_pos_bound (m a) 256 ltac:(lia)).
  rewrite Nat2Z.inj_succ, Z.pow_succ_r by lia. lia.
Qed.

Lemma load_store_same n : forall m a v,
load_bytes n (store_bytes n m a v) a = v mod 256 ^ Z.of_nat n.
Proof.
induction n as [|n IH]; intros m a v.
- simpl. symmetry. apply Z.mod_1_r.
- cbn [load_bytes store_bytes].
  rewrite store_bytes_outside by lia.
  rewrite IH. unfold upd. rewrite Z.eqb_refl.
  rewrite Nat2Z.inj_succ, Z.pow_succ_r by lia.
  rewrite Z.mod_mod by lia.
  rewrite (Z.rem_mul_r v 256 (256 ^ Z.of_nat n)) by lia.
  reflexivity.
Qed.

Lemma load_store_other k n m a v b :
b + Z.of_nat k <= a \/ a + Z.of_nat n <= b ->
load_bytes k (store_bytes n m a v) b = load_bytes k m b.
Proof.
intros H. apply load_bytes_ext. intros x Hx.
apply store_bytes_outside. lia.
Qed.

Lemma load32_store32_same m a v : load32 (store32 m a v) a = v mod 2 ^ 32.
Proof. unfold load32, store32. rewrite load_store_same. reflexivity. Qed.

Lemma load64_store64_same m a v : load64 (store64 m a v) a = v mod 2 ^ 64.
Proof. unfold load64, store64. rewrite load_store_same. reflexivity. Qed.

Lemma load32_store32_other m a v b :
b + 4 <= a \/ a + 4 <= b -> load32 (store32 m a v) b = load32 m b.
Proof. intros. apply load_store_other. simpl. lia. Qed.

Lemma load32_store64_other m a v b :
b + 4 <= a \/ a + 8 <= b -> load32 (store64 m a v) b = load32 m b.
Proof. intros. apply load_store_other. simpl. lia. Qed.

Lemma load64_store32_other m a v b :
b + 8 <= a \/ a + 4 <= b -> load64 (store32 m a v) b = load64 m b.
Proof. intros. apply load_store_other. simpl. lia. Qed.

Lemma load64_store64_other m a v b :
b + 8 <= a \/ a + 8 <= b -> load64 (store64 m a v) b = load64 m b.
Proof. intros. apply load_store_other. simpl. lia. Qed.

Lemma load32_range m a : 0 <= load32 m a < 2 ^ 32.
Proof. apply (load_bytes_range 4). Qed.

Lemma load64_range m a : 0 <= load64 m a < 2 ^ 64.
Proof. apply (load_bytes_range 8). Qed.

Lemma load32_ext m m' a :
(forall x, a <= x < a + 4 -> m x = m' x) -> load32 m a = load32 m' a.
Proof. intros. apply load_bytes_ext. simpl. assumption. Qed.

Lemma load64_ext m m' a :
(forall x, a <= x < a + 8 -> m x = m' x) -> load64 m a = load64 m' a.
Proof. intros. apply load_bytes_ext. simpl. assumption. Qed.

End MemFacts.

(** * The fields of a block: reads after writes *)

Lemma allocated_range s p : 0 <= allocated s p <= 1.
Proof.
  unfold allocated.
  pose proof (Z.mod_pos_bound (Mem.load32 (mem s) p) 2 ltac:(lia)). lia.
Qed.

Lemma block_size_range s p : 0 <= block_size s p < 2 ^ 31.
Proof. unfold block_size. apply Z.mod_pos_bound. lia. Qed.

Lemma GET_NEXT_range s b : 0 <= GET_NEXT s b < 2 ^ 64.
Proof. apply MemFacts.load64_range. Qed.

Lemma GET_PREV_range s b : 0 <= GET_PREV s b < 2 ^ 64.
Proof. apply MemFacts.load64_range. Qed.

Lemma word_size v a :
  ((2 * (v mod 2 ^ 31) + a mod 2) mod 2 ^ 32 / 2) mod 2 ^ 31 = v mod 2 ^ 31.
Proof.
  pose proof (Z.mod_pos_bound v (2 ^ 31) ltac:(lia)).
  pose proof (Z.mod_pos_bound a 2 ltac:(lia)).
  rewrite (Z.mod_small (2 * _ + _)) by lia.
  replace ((2 * (v mod 2 ^ 31) + a mod 2) / 2) with (v mod 2 ^ 31)
    by (apply Z.div_unique with (r := a mod 2); lia).
  apply Z.mod_small. lia.
Qed.

Lemma word_alloc v a :
  ((2 * (v mod 2 ^ 31) + a mod 2) mod 2 ^ 32) mod 2 = a mod 2.
Proof.
  pose proof (Z.mod_pos_bound v (2 ^ 31) ltac:(lia)).
  pose proof (Z.mod_pos_bound a 2 ltac:(lia)).
  rewrite (Z.mod_small (2 * _ + _)) by lia.
  rewrite Z.add_comm, Z.mul_comm, Z.mod_add by lia.
  apply Z.mod_mod. lia.
Qed.

Lemma word_keep_size w a :
  0 <= w < 2 ^ 32 ->
  ((2 * (w / 2) + a mod 2) mod 2 ^ 32 / 2) mod 2 ^ 31 = (w / 2) mod 2 ^ 31.
Proof.
  intros Hw.
  pose proof (Z.mod_pos_bound a 2 ltac:(lia)).
  assert (0 <= w / 2 < 2 ^ 31).
  { split; [apply Z.div_pos; lia|apply Z.div_lt_upper_bound; lia]. }
  rewrite (Z.mod_small (2 * _ + _)) by lia.
  replace ((2 * (w / 2) + a mod 2) / 2) with (w / 2)
    by (apply Z.div_unique with (r := a mod 2); lia).
  reflexivity.
Qed.

Lemma word_set_alloc w a :
  0 <= w < 2 ^ 32 ->
  ((2 * (w / 2) + a mod 2) mod 2 ^ 32) mod 2 = a mod 2.
Proof.
  intros Hw.
  pose proof (Z.mod_pos_bound a 2 ltac:(lia)).
  assert (0 <= w / 2 < 2 ^ 31).
  { split; [apply Z.div_pos; lia|apply Z.div_lt_upper_bound; lia]. }
  rewrite (Z.mod_small (2 * _ + _)) by lia.
  rewrite Z.add_comm, Z.mul_comm, Z.mod_add by lia.
  apply Z.mod_mod. lia.
Qed.

(** Same address. *)

Lemma block_size_set_block_size s p v :
  block_size (set_block_size p v s) p = v mod 2 ^ 31.
Proof.
  unfold block_size, set_block_size, with_mem; cbn [mem].
  rewrite MemFacts.load32_store32_same. apply word_size.
Qed.

Lemma allocated_set_block_size s p v :
  allocated (set_block_size p v s) p = allocated s p.
Proof.
  unfold allocated, set_block_size, with_mem; cbn [mem].
  rewrite MemFacts.load32_store32_same. apply word_alloc.
Qed.

Lemma block_size_set_allocated s p v :
  block_size (set_allocated p v s) p = block_size s p.
Proof.
  unfold block_size, set_allocated, with_mem; cbn [mem].
  rewrite MemFacts.load32_store32_same.
  apply word_keep_size, MemFacts.load32_range.
Qed.

Lemma allocated_set_allocated s p v :
  allocated (set_allocated p v s) p = v mod 2.
Proof.
  unfold allocated, set_allocated, with_mem; cbn [mem].
  rewrite MemFacts.load32_store32_same.
  apply word_set_alloc, MemFacts.load32_range.
Qed.

Lemma GET_NEXT_SET_NEXT s b v : GET_NEXT (SET_NEXT b v s) b = wrap64 v.
Proof.
  unfold GET_NEXT, SET_NEXT, with_mem; cbn [mem].
  apply MemFacts.load64_store64_same.
Qed.

Lemma GET_PREV_SET_PREV s b v : GET_PREV (SET_PREV b v s) b = wrap64 v.
Proof.
  unfold GET_PREV, SET_PREV, with_mem; cbn [mem].
  apply MemFacts.load64_store64_same.
Qed.

(** Disjoint addresses. *)

Lemma block_size_set_block_size_other s p v q :
  q + 4 <= p \/ p + 4 <= q ->
  block_size (set_block_size p v s) q = block_size s q.
Proof.
  intros. unfold block_size, set_block_size, with_mem; cbn [mem].
  rewrite MemFacts.load32_store32_other by lia. reflexivity.
Qed.

Lemma allocated_set_block_size_other s p v q :
  q + 4 <= p \/ p + 4 <= q ->
  allocated (set_block_size p v s) q = allocated s q.
Proof.
  intros. unfold allocated, set_block_size, with_mem; cbn [mem].
  rewrite MemFacts.load32_store32_other by lia. reflexivity.
Qed.

Lemma block_size_set_allocated_other s p v q :
  q + 4 <= p \/ p + 4 <= q ->
  block_size (set_allocated p v s) q = block_size s q.
Proof.
  intros. unfold block_size, set_allocated, with_mem; cbn [mem].
  rewrite MemFacts.load32_store32_other by lia. reflexivity.
Qed.

Lemma allocated_set_allocated_other s p v q :
  q + 4 <= p \/ p + 4 <= q ->
  allocated (set_allocated p v s) q = allocated s q.
Proof.
  intros. unfold allocated, set_allocated, with_mem; cbn [mem].
  rewrite MemFacts.load32_store32_other by lia. reflexivity.
Qed.

Lemma block_size_SET_NEXT s b v q :
  q + 4 <= b + 8 \/ b + 16 <= q ->
  block_size (SET_NEXT b v s) q = block_size s q.
Proof.
  intros. unfold block_size, SET_NEXT, with_mem; cbn [mem].
  rewrite MemFacts.load32_store64_other by lia. reflexivity.
Qed.

Lemma allocated_SET_NEXT s b v q :
  q + 4 <= b + 8 \/ b + 16 <= q ->
  allocated (SET_NEXT b v s) q = allocated s q.
Proof.
  intros. unfold allocated, SET_NEXT, with_mem; cbn [mem].
  rewrite MemFacts.load32_store64_other by lia. reflexivity.
Qed.

Lemma block_size_SET_PREV s b v q :
  q + 4 <= b + 16 \/ b + 24 <= q ->
  block_size (SET_PREV b v s) q = block_size s q.
Proof.
  intros. unfold block_size, SET_PREV, with_mem; cbn [mem].
  rewrite MemFacts.load32_store64_other by lia. reflexivity.
Qed.

Lemma allocated_SET_PREV s b v q :
  q + 4 <= b + 16 \/ b + 24 <= q ->
  allocated (SET_PREV b v s) q = allocated s q.
Proof.
  intros. unfold allocated, SET_PREV, with_mem; cbn [mem].
  rewrite MemFacts.load32_store64_other by lia. reflexivity.
Qed.

Lemma GET_NEXT_SET_NEXT_other s b v c :
  c + 8 <= b \/ b + 8 <= c ->
  GET_NEXT (SET_NEXT b v s) c = GET_NEXT s c.
Proof.
  intros. unfold GET_NEXT, SET_NEXT, with_mem; cbn [mem].
  rewrite MemFacts.load64_store64_other by lia. reflexivity.
Qed.

Lemma GET_NEXT_SET_PREV s b v c :
  c <= b \/ b + 16 <= c ->
  GET_NEXT (SET_PREV b v s) c = GET_NEXT s c.
Proof.
  intros. unfold GET_NEXT, SET_PREV, with_mem; cbn [mem].
  rewrite MemFacts.load64_store64_other by lia. reflexivity.
Qed.

Lemma GET_PREV_SET_NEXT s b v c :
  c + 16 <= b \/ b <= c ->
  GET_PREV (SET_NEXT b v s) c = GET_PREV s c.
Proof.
  intros. unfold GET_PREV, SET_NEXT, with_mem; cbn [mem].
  rewrite MemFacts.load64_store64_other by lia. reflexivity.
Qed.

Lemma GET_PREV_SET_PREV_other s b v c :
  c + 8 <= b \/ b + 8 <= c ->
  GET_PREV (SET_PREV b v s) c = GET_PREV s c.
Proof.
  intros. unfold GET_PREV, SET_PREV, with_mem; cbn [mem].
  rewrite MemFacts.load64_store64_other by lia. reflexivity.
Qed.

Lemma GET_NEXT_set_block_size s p v c :
  p + 4 <= c + 8 \/ c + 16 <= p ->
  GET_NEXT (set_block_size p v s) c = GET_NEXT s c.
Proof.
  intros. unfold GET_NEXT, set_block_size, with_mem; cbn [mem].
  rewrite MemFacts.load64_store32_other by lia. reflexivity.
Qed.

Lemma GET_NEXT_set_allocated s p v c :
  p + 4 <= c + 8 \/ c + 16 <= p ->
  GET_NEXT (set_allocated p v s) c = GET_NEXT s c.
Proof.
  intros. unfold GET_NEXT, set_allocated, with_mem; cbn [mem].
  rewrite MemFacts.load64_store32_other by lia. reflexivity.
Qed.

Lemma GET_PREV_set_block_size s p v c :
  p + 4 <= c + 16 \/ c + 24 <= p ->
  GET_PREV (set_block_size p v s) c = GET_PREV s c.
Proof.
  intros. unfold GET_PREV, set_block_size, with_mem; cbn [mem].
  rewrite MemFacts.load64_store32_other by lia. reflexivity.
Qed.

Lemma GET_PREV_set_allocated s p v c :
  p + 4 <= c + 16 \/ c + 24 <= p ->
  GET_PREV (set_allocated p v s) c = GET_PREV s c.
Proof.
  intros. unfold GET_PREV, set_allocated, with_mem; cbn [mem].
  rewrite MemFacts.load64_store32_other by lia. reflexivity.
Qed.

(** * Reads after writes, at the level of blocks *)

Lemma wrap64_small v : 0 <= v < 2 ^ 64 -> wrap64 v = v.
Proof. intros. apply Z.mod_small. assumption. Qed.

Lemma sep_sym x y : sep x y -> sep y x.
Proof. unfold sep. lia. Qed.

Lemma sep_refl x : sep x x.
Proof. unfold sep. lia. Qed.

Section LinkReads.
Variables (s : state) (x y v : Z).
Hypothesis Hsep : sep x y.

Lemma next_SET_NEXT :
  GET_NEXT (SET_NEXT y v s) x = if x =? y then wrap64 v else GET_NEXT s x.
Proof.
  destruct (Z.eqb_spec x y) as [->|Hne].
  - apply GET_NEXT_SET_NEXT.
  - apply GET_NEXT_SET_NEXT_other. unfold sep in Hsep. lia.
Qed.

Lemma prev_SET_PREV :
  GET_PREV (SET_PREV y v s) x = if x =? y then wrap64 v else GET_PREV s x.
Proof.
  destruct (Z.eqb_spec x y) as [->|Hne].
  - apply GET_PREV_SET_PREV.
  - apply GET_PREV_SET_PREV_other. unfold sep in Hsep. lia.
Qed.

Lemma next_SET_PREV : GET_NEXT (SET_PREV y v s) x = GET_NEXT s x.
Proof. apply GET_NEXT_SET_PREV. unfold sep in Hsep. lia. Qed.

Lemma prev_SET_NEXT : GET_PREV (SET_NEXT y v s) x = GET_PREV s x.
Proof. apply GET_PREV_SET_NEXT. unfold sep in Hsep. lia. Qed.
End LinkReads.

Section TagReads.
Variables (s : state) (q y v : Z).
Hypothesis Hclear : clear q y.

Lemma size_SET_NEXT : block_size (SET_NEXT y v s) q = block_size s q.
Proof. apply block_size_SET_NEXT. unfold clear in Hclear. lia. Qed.
Lemma size_SET_PREV : block_size (SET_PREV y v s) q = block_size s q.
Proof. apply block_size_SET_PREV. unfold clear in Hclear. lia. Qed.
Lemma alloc_SET_NEXT : allocated (SET_NEXT y v s) q = allocated s q.
Proof. apply allocated_SET_NEXT. unfold clear in Hclear. lia. Qed.
Lemma alloc_SET_PREV : allocated (SET_PREV y v s) q = allocated s q.
Proof. apply allocated_SET_PREV. unfold clear in Hclear. lia. Qed.

Lemma next_set_size : GET_NEXT (set_block_size q v s) y = GET_NEXT s y.
Proof. apply GET_NEXT_set_block_size. unfold clear in Hclear. lia. Qed.
Lemma prev_set_size : GET_PREV (set_block_size q v s) y = GET_PREV s y.
Proof. apply GET_PREV_set_block_size. unfold clear in Hclear. lia. Qed.
Lemma next_set_alloc : GET_NEXT (set_allocated q v s) y = GET_NEXT s y.
Proof. apply GET_NEXT_set_allocated. unfold clear in Hclear. lia. Qed.
Lemma prev_set_alloc : GET_PREV (set_allocated q v s) y = GET_PREV s y.
Proof. apply GET_PREV_set_allocated. unfold clear in Hclear. lia. Qed.
End TagReads.

(** Tag after tag: same word or another word. *)
Lemma size_set_size s p v q :
  q = p \/ q + 4 <= p \/ p + 4 <= q ->
  block_size (set_block_size p v s) q =
  if q =? p then v mod 2 ^ 31 else block_size s q.
Proof.
  intros H. destruct (Z.eqb_spec q p) as [->|Hne].
  - apply block_size_set_block_size.
  - apply block_size_set_block_size_other. lia.
Qed.

Lemma alloc_set_size s p v q :
  q = p \/ q + 4 <= p \/ p + 4 <= q ->
  allocated (set_block_size p v s) q = allocated s q.
Proof.
  intros H. destruct (Z.eq_dec q p) as [->|Hne].
  - apply allocated_set_block_size.
  - apply allocated_set_block_size_other. lia.
Qed.

Lemma size_set_alloc s p v q :
  q = p \/ q + 4 <= p \/ p + 4 <= q ->
  block_size (set_allocated p v s) q = block_size s q.
Proof.
  intros H. destruct (Z.eq_dec q p) as [->|Hne].
  - apply block_size_set_allocated.
  - apply block_size_set_allocated_other. lia.
Qed.

Lemma alloc_set_alloc s p v q :
  q = p \/ q + 4 <= p \/ p + 4 <= q ->
  allocated (set_allocated p v s) q =
  if q =? p then v mod 2 else allocated s q.
Proof.
  intros H. destruct (Z.eqb_spec q p) as [->|Hne].
  - apply allocated_set_allocated.
  - apply allocated_set_allocated_other. lia.
Qed.

(** The globals and the break are untouched by stores. *)
Lemma root_SET_NEXT b v s : freerootptr (SET_NEXT b v s) = freerootptr s.
Proof. reflexivity. Qed.
Lemma root_SET_PREV b v s : freerootptr (SET_PREV b v s) = freerootptr s.
Proof. reflexivity. Qed.
Lemma root_set_size b v s : freerootptr (set_block_size b v s) = freerootptr s.
Proof. reflexivity. Qed.
Lemma root_set_alloc b v s : freerootptr (set_allocated b v s) = freerootptr s.
Proof. reflexivity. Qed.
Lemma root_set_root r s : freerootptr (set_freerootptr r s) = r.
Proof. reflexivity. Qed.

Lemma next_set_root r s x : GET_NEXT (set_freerootptr r s) x = GET_NEXT s x.
Proof. reflexivity. Qed.
Lemma prev_set_root r s x : GET_PREV (set_freerootptr r s) x = GET_PREV s x.
Proof. reflexivity. Qed.
Lemma size_set_root r s x : block_size (set_freerootptr r s) x = block_size s x.
Proof. reflexivity. Qed.
Lemma alloc_set_root r s x : allocated (set_freerootptr r s) x = allocated s x.
Proof. reflexivity. Qed.

Lemma brk_SET_NEXT b v s : mem_brk (SET_NEXT b v s) = mem_brk s.
Proof. reflexivity. Qed.
Lemma brk_SET_PREV b v s : mem_brk (SET_PREV b v s) = mem_brk s.
Proof. reflexivity. Qed.
Lemma brk_set_size b v s : mem_brk (set_block_size b v s) = mem_brk s.
Proof. reflexivity. Qed.
Lemma brk_set_alloc b v s : mem_brk (set_allocated b v s) = mem_brk s.
Proof. reflexivity. Qed.
Lemma brk_set_root r s : mem_brk (set_freerootptr r s) = mem_brk s.
Proof. reflexivity. Qed.

Lemma max_SET_NEXT b v s : mem_max_addr (SET_NEXT b v s) = mem_max_addr s.
Proof. reflexivity. Qed.
Lemma max_SET_PREV b v s : mem_max_addr (SET_PREV b v s) = mem_max_addr s.
Proof. reflexivity. Qed.
Lemma max_set_size b v s : mem_max_addr (set_block_size b v s) = mem_max_addr s.
Proof. reflexivity. Qed.
Lemma max_set_alloc b v s : mem_max_addr (set_allocated b v s) = mem_max_addr s.
Proof. reflexivity. Qed.
Lemma max_set_root r s : mem_max_addr (set_freerootptr r s) = mem_max_addr s.
Proof. reflexivity. Qed.

Lemma prologue_SET_NEXT b v s : prologue (SET_NEXT b v s) = prologue s.
Proof. reflexivity. Qed.
Lemma prologue_SET_PREV b v s : prologue (SET_PREV b v s) = prologue s.
Proof. reflexivity. Qed.
Lemma prologue_set_size b v s : prologue (set_block_size b v s) = prologue s.
Proof. reflexivity. Qed.
Lemma prologue_set_alloc b v s : prologue (set_allocated b v s) = prologue s.
Proof. reflexivity. Qed.
Lemma prologue_set_root r s : prologue (set_freerootptr r s) = prologue s.
Proof. reflexivity. Qed.

Create Rewrite HintDb meta.
#[export] Hint Rewrite
  root_SET_NEXT root_SET_PREV root_set_size root_set_alloc root_set_root
  next_set_root prev_set_root size_set_root alloc_set_root
  brk_SET_NEXT brk_SET_PREV brk_set_size brk_set_alloc brk_set_root
  max_SET_NEXT max_SET_PREV max_set_size max_set_alloc max_set_root
  prologue_SET_NEXT prologue_SET_PREV prologue_set_size prologue_set_alloc
  prologue_set_root : meta.

(** * Geometry of a layout *)

Lemma chain_app a l1 l2 e :
  chain a (l1 ++ l2) e <-> exists m, chain a l1 m /\ chain m l2 e.
Proof.
  revert a. induction l1 as [|[[x sz] al] l1 IH]; intros a; simpl.
  - split.
    + intros H. exists a. split; [reflexivity|assumption].
    + intros (m & -> & H). assumption.
  - rewrite IH. split.
    + intros (Hx & Hsz & m & H1 & H2). exists m. repeat split; assumption.
    + intros (m & (Hx & Hsz & H1) & H2). repeat split; try assumption.
      exists m. split; assumption.
Qed.

Lemma chain_le a bl e : chain a bl e -> a <= e.
Proof.
  revert a. induction bl as [|[[x sz] al] bl IH]; intros a; simpl.
  - lia.
  - intros (_ & Hsz & H). apply IH in H. unfold MIN_BLOCK_SIZE in Hsz. lia.
Qed.

Lemma chain_split a bl e x sz al :
  chain a bl e -> In (x, sz, al) bl ->
  exists l1 l2, bl = l1 ++ (x, sz, al) :: l2 /\
                chain a l1 x /\ chain (x + sz) l2 e /\ 32 <= sz.
Proof.
  revert a. induction bl as [|[[y sy] ay] bl IH]; intros a Hc Hin.
  - destruct Hin.
  - simpl in Hc. destruct Hc as (Hy & Hsz & Hc). destruct Hin as [E|Hin].
    + inversion E; subst. exists [], bl. simpl. auto.
    + destruct (IH _ Hc Hin) as (l1 & l2 & -> & H1 & H2 & H3).
      exists ((y, sy, ay) :: l1), l2. simpl. repeat split; auto.
Qed.

Lemma chain_in a bl e x sz al :
  chain a bl e -> In (x, sz, al) bl -> a <= x /\ x + sz <= e /\ 32 <= sz.
Proof.
  intros Hc Hin.
  destruct (chain_split _ _ _ _ _ _ Hc Hin) as (l1 & l2 & _ & H1 & H2 & H3).
  apply chain_le in H1, H2. lia.
Qed.

Lemma chain_disj a bl e x sx ax y sy ay :
  chain a bl e -> In (x, sx, ax) bl -> In (y, sy, ay) bl ->
  (x = y /\ sx = sy /\ ax = ay) \/ x + sx <= y \/ y + sy <= x.
Proof.
  intros Hc Hx Hy.
  destruct (chain_split _ _ _ _ _ _ Hc Hx) as (l1 & l2 & -> & H1 & H2 & H3).
  apply in_app_iff in Hy. destruct Hy as [Hy|[E|Hy]].
  - apply (chain_in _ _ _ _ _ _ H1) in Hy. lia.
  - inversion E; subst. auto.
  - apply (chain_in _ _ _ _ _ _ H2) in Hy. lia.
Qed.

Lemma chain_last a l b e :
  chain a (l ++ [b]) e -> let '(x, sz, _) := b in x + sz = e.
Proof.
  destruct b as [[x sz] al]. intros H.
  apply chain_app in H. destruct H as (m & _ & Hx & _ & He).
  simpl in He. subst. reflexivity.
Qed.

Lemma node_sep a bl e x y : chain a bl e -> node bl x -> node bl y -> sep x y.
Proof.
  intros Hc (sx & ax & Hx) (sy & ay & Hy).
  pose proof (chain_in _ _ _ _ _ _ Hc Hx).
  pose proof (chain_in _ _ _ _ _ _ Hc Hy).
  destruct (chain_disj _ _ _ _ _ _ _ _ _ Hc Hx Hy) as [H1|H1];
    unfold sep; lia.
Qed.

Lemma hdr_clear a bl e x y : chain a bl e -> node bl x -> node bl y -> clear x y.
Proof.
  intros Hc Hx Hy. pose proof (node_sep _ _ _ _ _ Hc Hx Hy) as H.
  unfold sep in H. unfold clear. lia.
Qed.

Lemma ftr_clear a bl e x sx ax y :
  chain a bl e -> In (x, sx, ax) bl -> node bl y -> clear (x + sx - 8) y.
Proof.
  intros Hc Hx (sy & ay & Hy).
  pose proof (chain_in _ _ _ _ _ _ Hc Hx).
  pose proof (chain_in _ _ _ _ _ _ Hc Hy).
  destruct (chain_disj _ _ _ _ _ _ _ _ _ Hc Hx Hy) as [H1|H1];
    unfold clear; lia.
Qed.

Lemma isfree_node bl x : isfree bl x -> node bl x.
Proof. intros (sz & H). exists sz, FREE. assumption. Qed.

Lemma isalloc_node bl x : isalloc bl x -> node bl x.
Proof. intros (sz & H). exists sz, ALLOC. assumption. Qed.

Lemma in_node bl x sz al : In (x, sz, al) bl -> node bl x.
Proof. intros H. exists sz, al. assumption. Qed.

Lemma nfree_app l1 l2 : nfree (l1 ++ l2) = nfree l1 + nfree l2.
Proof.
  induction l1 as [|[[x sz] al] l1 IH]; simpl; [reflexivity|]. rewrite IH. lia.
Qed.

Lemma nfree_nonneg bl : 0 <= nfree bl.
Proof.
  induction bl as [|[[x sz] al] bl IH]; simpl; [lia|].
  destruct (al =? FREE); lia.
Qed.

Lemma low_clear a bl e q y : chain a bl e -> q + 4 <= a -> node bl y -> clear q y.
Proof.
  intros Hc Hq (sy & ay & Hy). pose proof (chain_in _ _ _ _ _ _ Hc Hy).
  unfold clear. lia.
Qed.

Lemma high_clear a bl e q y : chain a bl e -> e <= q -> node bl y -> clear q y.
Proof.
  intros Hc Hq (sy & ay & Hy). pose proof (chain_in _ _ _ _ _ _ Hc Hy).
  unfold clear. lia.
Qed.

Lemma prev_addr a b : a + b - 8 - b + 8 = a.
Proof. lia. Qed.

Lemma eqb_false x y : x <> y -> (x =? y) = false.
Proof. apply Z.eqb_neq. Qed.

(** * The free list seen through ranks *)

Lemma eqb_true_eq x y : x = y -> (x =? y) = true.
Proof. apply Z.eqb_eq. Qed.

Lemma if_same (A : Type) (b : bool) (x : A) : (if b then x else x) = x.
Proof. destruct b; reflexivity. Qed.

Section FreeListFacts.
Variables (N P : Z -> Z) (root : Z) (F : Z -> Prop) (rank : Z -> Z) (nf : Z).
Hypothesis Hfl : fl_ok N P root F rank nf.
Hypothesis Hnz : forall x, F x -> x <> NULL.

Lemma fl_prev_rank x : F x -> P x <> NULL -> rank (P x) + 1 = rank x.
Proof.
  intros Fx Hp. destruct (fl_prev _ _ _ _ _ _ Hfl x Fx Hp) as (Fp & Hn).
  destruct (fl_next _ _ _ _ _ _ Hfl _ Fp) as (_ & _ & Hr).
  - rewrite Hn. apply Hnz. assumption.
  - rewrite Hn in Hr. lia.
Qed.

Lemma fl_rank0 x : F x -> rank x = 0 -> x = root.
Proof.
  intros Fx Hr. apply (fl_first _ _ _ _ _ _ Hfl x Fx).
  destruct (Z.eq_dec (P x) NULL) as [E|E]; [assumption|].
  pose proof (fl_prev_rank x Fx E).
  destruct (fl_prev _ _ _ _ _ _ Hfl x Fx E) as (Fp & _).
  pose proof (fl_rank _ _ _ _ _ _ Hfl _ Fp). lia.
Qed.

Lemma fl_root_nonempty x : F x -> root <> NULL.
Proof. intros Fx E. exact (fl_empty _ _ _ _ _ _ Hfl E x Fx). Qed.

Lemma fl_prev_nonnull x : F x -> 0 < rank x -> P x <> NULL.
Proof.
  intros Fx Hr E. pose proof (fl_first _ _ _ _ _ _ Hfl x Fx E) as Er.
  destruct (fl_root _ _ _ _ _ _ Hfl (fl_root_nonempty x Fx)) as (_ & _ & R0).
  rewrite <- Er in R0. lia.
Qed.

Lemma fl_rank_inj_aux n :
  forall x y, F x -> F y -> rank x = Z.of_nat n -> rank y = Z.of_nat n -> x = y.
Proof.
  induction n as [|n IH]; intros x y Fx Fy Hx Hy.
  - rewrite (fl_rank0 x Fx Hx), (fl_rank0 y Fy Hy). reflexivity.
  - assert (Px : P x <> NULL) by (apply fl_prev_nonnull; [assumption|lia]).
    assert (Py : P y <> NULL) by (apply fl_prev_nonnull; [assumption|lia]).
    destruct (fl_prev _ _ _ _ _ _ Hfl x Fx Px) as (Fpx & Hnx).
    destruct (fl_prev _ _ _ _ _ _ Hfl y Fy Py) as (Fpy & Hny).
    pose proof (fl_prev_rank x Fx Px). pose proof (fl_prev_rank y Fy Py).
    assert (E : P x = P y) by (apply IH; auto; lia).
    rewrite <- Hnx, <- Hny, E. reflexivity.
Qed.

Lemma fl_rank_inj x y : F x -> F y -> rank x = rank y -> x = y.
Proof.
  intros Fx Fy E. pose proof (fl_rank _ _ _ _ _ _ Hfl x Fx).
  apply (fl_rank_inj_aux (Z.to_nat (rank x))); auto; lia.
Qed.

Lemma fl_root_next_aux n :
  forall x, F x -> rank x = Z.of_nat n -> x <> root -> N root <> NULL.
Proof.
  induction n as [|n IH]; intros x Fx Hx Hne.
  - exfalso. apply Hne. apply fl_rank0; assumption.
  - assert (Px : P x <> NULL) by (apply fl_prev_nonnull; [assumption|lia]).
    destruct (fl_prev _ _ _ _ _ _ Hfl x Fx Px) as (Fpx & Hnx).
    pose proof (fl_prev_rank x Fx Px).
    destruct (Z.eq_dec (P x) root) as [E|E].
    + rewrite <- E, Hnx. apply Hnz. assumption.
    + apply (IH (P x)); [assumption|lia|assumption].
Qed.

(** A list with a second node has a successor of its head. *)
Lemma fl_root_next x : F x -> x <> root -> N root <> NULL.
Proof.
  intros Fx Hne. pose proof (fl_rank _ _ _ _ _ _ Hfl x Fx).
  apply (fl_root_next_aux (Z.to_nat (rank x)) x); auto; lia.
Qed.
End FreeListFacts.

(** * Pointer surgery preserves the free list *)

Ltac fl_at Hfl Hnz x Fx :=
  pose proof (fl_next _ _ _ _ _ _ Hfl x Fx);
  pose proof (fl_prev _ _ _ _ _ _ Hfl x Fx);
  pose proof (fl_prev_rank _ _ _ _ _ _ Hfl Hnz x Fx);
  pose proof (fl_first _ _ _ _ _ _ Hfl x Fx);
  pose proof (fl_rank _ _ _ _ _ _ Hfl x Fx);
  pose proof (Hnz x Fx).

Ltac hyps :=
  repeat match goal with
  | H : False |- _ => destruct H
  | H : _ /\ _ |- _ => destruct H
  | H : ?a = ?a -> _ |- _ => specialize (H eq_refl)
  | H : ?x = ?y |- _ => is_var x; is_var y; rewrite H in *; clear H
  | H : ?a <> ?a -> _ |- _ => clear H
  | H : ?P -> _, H' : ?P |- _ =>
      lazymatch type of P with Prop => specialize (H H') end
  end.

Lemma neq_by (f : Z -> Z) x y : f x <> f y -> x <> y.
Proof. intros H E. apply H. rewrite E. reflexivity. Qed.

(** [lia] on the context without its implications, then on all of it. *)
Ltac drop_imps :=
  repeat match goal with
  | H : ?P -> ?Q |- _ =>
      lazymatch Q with
      | False => fail
      | _ => lazymatch type of P with Prop => clear H end
      end
  | H : forall _ : Z, _ |- _ => clear H
  end.

Ltac flia := solve [ drop_imps; lia ].

Ltac nq rank :=
  lazymatch goal with
  | |- _ <> _ =>
      solve [ assumption
            | drop_imps; first [ lia | apply (neq_by rank); lia ]
            | let E := fresh in
              intro E; first [ rewrite E in * | rewrite <- E in * ]; hyps;
              drop_imps; lia ]
  end.

Ltac close rank :=
  repeat split;
  first [ assumption | contradiction | flia | nq rank | lia ].

Ltac eqb_cases :=
  repeat match goal with
  | |- context [?u =? ?v] =>
      let e := fresh "e" in
      destruct (Z.eqb_spec u v) as [e|e];
      [ try rewrite e in * | ]
  | |- context [?u <? ?v] => destruct (Z.ltb_spec u v)
  end.

Section Surgery.
Variables (N P : Z -> Z) (root : Z) (F : Z -> Prop) (rank : Z -> Z) (nf : Z).
Hypothesis Hfl : fl_ok N P root F rank nf.
Hypothesis Hnz : forall x, F x -> x <> NULL.

Lemma fl_ok_ext N' P' (F' : Z -> Prop) rank' :
  (forall x, F' x <-> F x) ->
  (forall x, F x -> N' x = N x /\ P' x = P x /\ rank' x = rank x) ->
  fl_ok N' P' root F' rank' nf.
Proof.
  intros HF Hag.
  assert (Hr : root <> NULL -> F root /\ P root = NULL /\ rank root = 0)
    by apply (fl_root _ _ _ _ _ _ Hfl).
  constructor.
  - intros E x Fx. apply HF in Fx. exact (fl_empty _ _ _ _ _ _ Hfl E x Fx).
  - intros E. destruct (Hr E) as (Fr & Pr & Rr).
    destruct (Hag _ Fr) as (_ & -> & ->). rewrite HF. auto.
  - intros x Fx. apply HF in Fx. destruct (Hag _ Fx) as (-> & _ & Rx).
    intros Hn. destruct (fl_next _ _ _ _ _ _ Hfl x Fx Hn) as (Fn & Pn & Rn).
    destruct (Hag _ Fn) as (_ & -> & ->). rewrite HF, Rx. auto.
  - intros x Fx. apply HF in Fx. destruct (Hag _ Fx) as (_ & -> & _).
    intros Hp. destruct (fl_prev _ _ _ _ _ _ Hfl x Fx Hp) as (Fp & Np).
    destruct (Hag _ Fp) as (-> & _ & _). rewrite HF. auto.
  - intros x Fx. apply HF in Fx. destruct (Hag _ Fx) as (_ & -> & _).
    apply (fl_first _ _ _ _ _ _ Hfl x Fx).
  - intros x Fx. apply HF in Fx. destruct (Hag _ Fx) as (_ & _ & ->).
    apply (fl_rank _ _ _ _ _ _ Hfl x Fx).
Qed.

(** Every node before [x] has a successor. *)
Lemma fl_next_nonnull_aux n :
  forall x y, F x -> F y -> rank x = rank y + 1 + Z.of_nat n -> N y <> NULL.
Proof.
  induction n as [|n IH]; intros x y Fx Fy Hr.
  - assert (Px : P x <> NULL)
      by (apply (fl_prev_nonnull _ _ _ _ _ _ Hfl x Fx);
          pose proof (fl_rank _ _ _ _ _ _ Hfl y Fy); lia).
    destruct (fl_prev _ _ _ _ _ _ Hfl x Fx Px) as (Fp & Np).
    pose proof (fl_prev_rank _ _ _ _ _ _ Hfl Hnz x Fx Px).
    assert (E : P x = y)
      by (apply (fl_rank_inj _ _ _ _ _ _ Hfl Hnz); auto; lia).
    rewrite <- E, Np. apply Hnz. assumption.
  - assert (Px : P x <> NULL)
      by (apply (fl_prev_nonnull _ _ _ _ _ _ Hfl x Fx);
          pose proof (fl_rank _ _ _ _ _ _ Hfl y Fy); lia).
    destruct (fl_prev _ _ _ _ _ _ Hfl x Fx Px) as (Fp & Np).
    pose proof (fl_prev_rank _ _ _ _ _ _ Hfl Hnz x Fx Px).
    apply (IH (P x) y); auto. lia.
Qed.

Lemma fl_next_nonnull x y : F x -> F y -> rank y < rank x -> N y <> NULL.
Proof.
  intros Fx Fy Hr.
  apply (fl_next_nonnull_aux (Z.to_nat (rank x - rank y - 1)) x y); auto. lia.
Qed.

Lemma fl_root_rank x : F x -> rank root = 0 /\ F root /\ P root = NULL.
Proof.
  intros Fx.
  destruct (fl_root _ _ _ _ _ _ Hfl (fl_root_nonempty _ _ _ _ _ _ Hfl x Fx))
    as (? & ? & ?). auto.
Qed.

Lemma unlink_ok b :
  F b ->
  fl_ok (unlink_N N P b) (unlink_P N P b) (unlink_root N P root b)
        (fun x => F x /\ x <> b) (unlink_rank rank b) (nf - 1).
Proof.
  intros Fb. unfold unlink_N, unlink_P, unlink_root, unlink_rank, fupd.
  pose proof (fl_rank_inj _ _ _ _ _ _ Hfl Hnz) as Hinj.
  pose proof (fl_root_rank b Fb) as (Rr & Fr & Pr).
  pose proof fl_next_nonnull as Hnn.
  pose proof (fl_rank0 _ _ _ _ _ _ Hfl Hnz) as Hr0.
  pose proof (Hnz root Fr).
  fl_at Hfl Hnz b Fb.
  pose proof (Hr0 b Fb).
  constructor.
  - intros E x (Fx & Hxb). fl_at Hfl Hnz x Fx.
    assert (rank x <> rank b) by (intro; apply Hxb; apply Hinj; auto).
    specialize (Hnn x b Fx Fb).
    unfold NULL in *. revert E. eqb_cases; hyps; intros; hyps; close rank.
  - intros E. unfold NULL in *. revert E. eqb_cases; hyps; intros; hyps.
    all: close rank.
  - intros x (Fx & Hxb). fl_at Hfl Hnz x Fx.
    assert (rank x <> rank b) by (intro; apply Hxb; apply Hinj; auto).
    unfold NULL in *. eqb_cases; hyps; intros; hyps; close rank.
  - intros x (Fx & Hxb). fl_at Hfl Hnz x Fx.
    assert (rank x <> rank b) by (intro; apply Hxb; apply Hinj; auto).
    unfold NULL in *. eqb_cases; hyps; intros; hyps; close rank.
  - intros x (Fx & Hxb). fl_at Hfl Hnz x Fx.
    assert (rank x <> rank b) by (intro; apply Hxb; apply Hinj; auto).
    unfold NULL in *. eqb_cases; hyps; intros; hyps; close rank.
  - intros x (Fx & Hxb). fl_at Hfl Hnz x Fx.
    assert (rank x <> rank b) by (intro; apply Hxb; apply Hinj; auto).
    unfold NULL in *. eqb_cases; hyps; intros; hyps; close rank.
Qed.

Lemma push_ok b :
  ~ F b -> b <> NULL -> 0 <= nf ->
  fl_ok (push_N N root b) (push_P P root b) b
        (fun x => F x \/ x = b) (push_rank rank b) (nf + 1).
Proof.
  intros Fb Hb Hnf0. unfold push_N, push_P, push_rank, fupd.
  pose proof (fl_root _ _ _ _ _ _ Hfl) as Hr.
  pose proof (fl_empty _ _ _ _ _ _ Hfl) as He.
  assert (Hne : forall x, F x -> x <> b) by (intros x Fx E; subst; auto).
  constructor.
  - intros E. unfold NULL in *. lia.
  - intros _. unfold NULL in *. eqb_cases; hyps; close rank.
  - intros x [Fx| ->].
    + fl_at Hfl Hnz x Fx. pose proof (Hne x Fx).
      unfold NULL in *. eqb_cases; hyps; intros; hyps; try close rank.
      all: try (exfalso; apply Fb; assumption).
      all: repeat split; try flia; try (left; assumption).
      all: try nq rank.
    + unfold NULL in *. eqb_cases; hyps; intros; hyps; try close rank.
      all: repeat split; try flia; try (left; assumption).
  - intros x [Fx| ->].
    + fl_at Hfl Hnz x Fx. pose proof (Hne x Fx).
      unfold NULL in *. eqb_cases; hyps; intros; hyps; try close rank.
      all: try (exfalso; apply Fb; assumption).
      all: repeat split; try flia; try (left; assumption); try (right; reflexivity).
      all: try nq rank.
    + unfold NULL in *. eqb_cases; hyps; intros; hyps; try close rank.
  - intros x [Fx| ->].
    + fl_at Hfl Hnz x Fx. pose proof (Hne x Fx).
      unfold NULL in *. eqb_cases; hyps; intros; hyps; try close rank.
    + reflexivity.
  - intros x [Fx| ->].
    + fl_at Hfl Hnz x Fx. pose proof (Hne x Fx).
      unfold NULL in *. eqb_cases; hyps; intros; hyps; try close rank.
    + unfold NULL in *. eqb_cases; lia.
Qed.

Lemma subst_ok b nb :
  F b -> ~ F nb -> nb <> NULL ->
  fl_ok (subst_N N P b nb) (subst_P N P b nb) (subst_root P root b nb)
        (fun x => (F x /\ x <> b) \/ x = nb) (subst_rank rank b nb) nf.
Proof.
  intros Fb Fnb Hnb. unfold subst_N, subst_P, subst_root, subst_rank, fupd.
  pose proof (fl_rank_inj _ _ _ _ _ _ Hfl Hnz) as Hinj.
  pose proof (fl_root_rank b Fb) as (Rr & Fr & Pr).
  pose proof (fl_rank0 _ _ _ _ _ _ Hfl Hnz) as Hr0.
  pose proof (Hnz root Fr).
  assert (Hne : forall x, F x -> x <> nb) by (intros x Fx E; subst; auto).
  fl_at Hfl Hnz b Fb. pose proof (Hne b Fb).
  pose proof (Hr0 b Fb). pose proof (Hne root Fr).
  constructor.
  - intros E. unfold NULL in *. revert E. eqb_cases; hyps; intros; hyps; close rank.
  - intros E. unfold NULL in *. revert E. eqb_cases; hyps; intros; hyps.
    all: try (exfalso; first [ contradiction | flia ]).
    all: repeat split; try flia; try (right; reflexivity).
    all: try solve [ left; split; [assumption|nq rank] ].
  - intros x [(Fx & Hxb)| ->].
    + fl_at Hfl Hnz x Fx. pose proof (Hne x Fx).
      assert (rank x <> rank b) by (intro; apply Hxb; apply Hinj; auto).
      unfold NULL in *. eqb_cases; hyps; intros; hyps.
      all: try (exfalso; first [ contradiction | flia ]).
      all: repeat split; try flia; try (right; reflexivity).
      all: try solve [ left; split; [assumption|nq rank] ].
      all: try nq rank.
    + unfold NULL in *. eqb_cases; hyps; intros; hyps.
      all: try (exfalso; first [ contradiction | flia ]).
      all: repeat split; try flia; try (right; reflexivity).
      all: try solve [ left; split; [assumption|nq rank] ].
      all: try nq rank.
  - intros x [(Fx & Hxb)| ->].
    + fl_at Hfl Hnz x Fx. pose proof (Hne x Fx).
      assert (rank x <> rank b) by (intro; apply Hxb; apply Hinj; auto).
      unfold NULL in *. eqb_cases; hyps; intros; hyps.
      all: try (exfalso; first [ contradiction | flia ]).
      all: repeat split; try flia; try (right; reflexivity).
      all: try solve [ left; split; [assumption|nq rank] ].
      all: try nq rank.
    + unfold NULL in *. eqb_cases; hyps; intros; hyps.
      all: try (exfalso; first [ contradiction | flia ]).
      all: repeat split; try flia; try (right; reflexivity).
      all: try solve [ left; split; [assumption|nq rank] ].
      all: try nq rank.
  - intros x [(Fx & Hxb)| ->].
    + fl_at Hfl Hnz x Fx. pose proof (Hne x Fx).
      assert (rank x <> rank b) by (intro; apply Hxb; apply Hinj; auto).
      unfold NULL in *. eqb_cases; hyps; intros; hyps.
      all: try (exfalso; first [ contradiction | flia ]).
      all: try flia; try nq rank.
    + unfold NULL in *. eqb_cases; hyps; intros; hyps.
      all: try (exfalso; first [ contradiction | flia ]).
      all: try flia; try nq rank.
  - intros x [(Fx & Hxb)| ->].
    + fl_at Hfl Hnz x Fx. pose proof (Hne x Fx).
      unfold NULL in *. eqb_cases; hyps; intros; hyps; flia.
    + unfold NULL in *. eqb_cases; hyps; intros; hyps; flia.
Qed.
End Surgery.

(** * Link stores keep the layout *)

Lemma same_tags_refl bl s : same_tags bl s s.
Proof. unfold same_tags. auto. Qed.

Lemma same_tags_SET_NEXT bl s s' y v :
  node bl y -> same_tags bl s s' -> same_tags bl s (SET_NEXT y v s').
Proof.
  intros Hy (H1 & H2 & H3 & H4). repeat split; try assumption.
  - rewrite size_SET_NEXT by (apply H; assumption). apply H4. assumption.
  - rewrite alloc_SET_NEXT by (apply H; assumption). apply H4. assumption.
Qed.

Lemma same_tags_SET_PREV bl s s' y v :
  node bl y -> same_tags bl s s' -> same_tags bl s (SET_PREV y v s').
Proof.
  intros Hy (H1 & H2 & H3 & H4). repeat split; try assumption.
  - rewrite size_SET_PREV by (apply H; assumption). apply H4. assumption.
  - rewrite alloc_SET_PREV by (apply H; assumption). apply H4. assumption.
Qed.

Lemma same_tags_set_root bl s s' r :
  same_tags bl s s' -> same_tags bl s (set_freerootptr r s').
Proof. intros H. exact H. Qed.

Lemma layout_ok_same_tags bl s s' :
  layout_ok s bl -> same_tags bl s s' -> layout_ok s' bl.
Proof.
  intros [Hb Hpro Hch Hepi Htags] (H1 & H2 & H3 & H4).
  unfold sizeof_header_t, sizeof_footer_t in *.
  split; rewrite ?H1, ?H2, ?H3; unfold sizeof_header_t; try assumption.
  - destruct (H4 (prologue s)) as (-> & ->); [|assumption].
    intros y Hy. apply (low_clear _ _ _ _ _ Hch); [lia|assumption].
  - destruct (H4 (mem_brk s - 8)) as (-> & ->); [|assumption].
    intros y Hy. apply (high_clear _ _ _ _ _ Hch); [lia|assumption].
  - intros [[x sx] ax] Hin. pose proof (Htags _ Hin) as Ht.
    cbn [tag_ok] in *. unfold sizeof_footer_t in *.
    destruct (H4 x) as (-> & ->).
    { intros y Hy. apply (hdr_clear _ _ _ _ _ Hch); [|assumption].
      eapply in_node; eassumption. }
    destruct (H4 (x + sx - 8)) as (-> & ->).
    { intros y Hy. eapply (ftr_clear _ _ _ _ _ _ _ Hch); eassumption. }
    assumption.
Qed.

(** The heap invariant, reassembled from its parts. *)
Lemma heap_inv_intro s bl rank N P root F rk :
  layout_ok s bl ->
  fl_ok N P root F rk (nfree bl) ->
  (forall x, F x -> x <> NULL) ->
  no_adj bl ->
  freerootptr s = root ->
  (forall x, isfree bl x <-> F x) ->
  (forall x, F x ->
     GET_NEXT s x = N x /\ GET_PREV s x = P x /\ rank x = rk x) ->
  heap_inv s bl rank.
Proof.
  intros Hlo Hfl Hnz Hna Hroot HF Hag. split; [assumption|split; [|assumption]].
  rewrite Hroot. apply (fl_ok_ext _ _ _ _ _ _ Hfl); assumption.
Qed.

Lemma isfree_nonnull s bl :
  layout_ok s bl -> forall x, isfree bl x -> x <> NULL.
Proof.
  intros [Hb _ Hch _ _] x (sx & Hx).
  pose proof (chain_in _ _ _ _ _ _ Hch Hx).
  unfold NULL, sizeof_header_t in *. lia.
Qed.

Lemma node_range s bl :
  layout_ok s bl -> forall x, node bl x -> 0 < x /\ x < 2 ^ 64.
Proof.
  intros [Hb _ Hch _ _] x (sx & ax & Hx).
  pose proof (chain_in _ _ _ _ _ _ Hch Hx).
  unfold sizeof_header_t in *. lia.
Qed.

(** * Symbolic execution of the C code *)

#[global] Opaque SET_NEXT SET_PREV set_allocated set_block_size set_freerootptr
  GET_NEXT GET_PREV block_size allocated.

Ltac consts :=
  cbv delta [sizeof_footer_t sizeof_header_t OVERHEAD NULL FREE ALLOC
    MIN_BLOCK_SIZE WSIZE DSIZE] in *.

(** Side conditions of the read-after-write lemmas; the reference layout is
    the hypothesis [Hch]. *)
Ltac side Hch :=
  lazymatch goal with
  | |- sep ?x ?x => apply sep_refl
  | |- sep _ _ => solve [ eapply (node_sep _ _ _ _ _ Hch); eassumption ]
  | |- clear _ _ =>
      solve [ eapply (hdr_clear _ _ _ _ _ Hch); eassumption
            | eapply (ftr_clear _ _ _ _ _ _ _ Hch); eassumption
            | eapply (low_clear _ _ _ _ _ Hch); [flia|eassumption]
            | eapply (high_clear _ _ _ _ _ Hch); [flia|eassumption] ]
  end.

Ltac neq :=
  lazymatch goal with
  | |- _ <> _ =>
    solve [ assumption | apply not_eq_sym; assumption | flia
          | match goal with
            | H : fl_ok _ _ _ _ ?rank _ |- _ => apply (neq_by rank); flia
            end
          | let E := fresh in
            intro E; first [ rewrite E in * | rewrite <- E in * ]; flia ]
  end.

Ltac rng := solve [ assumption | flia ].

(** One rewriting step of a read in hypothesis [E]. *)
Ltac rd1 Hch E :=
  first
  [ rewrite prev_addr in E
  | rewrite if_same in E
  | rewrite next_SET_NEXT in E by side Hch
  | rewrite prev_SET_PREV in E by side Hch
  | rewrite next_SET_PREV in E by side Hch
  | rewrite prev_SET_NEXT in E by side Hch
  | rewrite size_SET_NEXT in E by side Hch
  | rewrite size_SET_PREV in E by side Hch
  | rewrite alloc_SET_NEXT in E by side Hch
  | rewrite alloc_SET_PREV in E by side Hch
  | rewrite next_set_size in E by side Hch
  | rewrite prev_set_size in E by side Hch
  | rewrite next_set_alloc in E by side Hch
  | rewrite prev_set_alloc in E by side Hch
  | rewrite size_set_size in E by flia
  | rewrite alloc_set_size in E by flia
  | rewrite size_set_alloc in E by flia
  | rewrite alloc_set_alloc in E by flia
  | progress autorewrite with meta in E
  | progress cbv beta delta [get_footer sizeof_footer_t sizeof_header_t NULL
      FREE ALLOC MIN_BLOCK_SIZE] in E
  | rewrite Z.eqb_refl in E
  | progress cbn [negb andb orb] in E
  | progress cbv iota in E
  | rewrite wrap64_small in E by rng
  | rewrite Z.mod_small in E by rng
  | match goal with
    | H : GET_NEXT ?s ?x = _ |- _ => progress (rewrite H in E)
    | H : GET_PREV ?s ?x = _ |- _ => progress (rewrite H in E)
    | H : block_size ?s ?x = _ |- _ => progress (rewrite H in E)
    | H : allocated ?s ?x = _ |- _ => progress (rewrite H in E)
    | H : freerootptr ?s = _ |- _ => progress (rewrite H in E)
    end
  | match type of E with
    | context [?x =? ?y] => rewrite (eqb_false x y) in E by (clear E; neq)
    end ].

Ltac rd Hch E := repeat rd1 Hch E.

Ltac rd1g Hch :=
  first
  [ rewrite prev_addr
  | rewrite if_same
  | rewrite Z.add_assoc
  | rewrite next_SET_NEXT by side Hch
  | rewrite prev_SET_PREV by side Hch
  | rewrite next_SET_PREV by side Hch
  | rewrite prev_SET_NEXT by side Hch
  | rewrite size_SET_NEXT by side Hch
  | rewrite size_SET_PREV by side Hch
  | rewrite alloc_SET_NEXT by side Hch
  | rewrite alloc_SET_PREV by side Hch
  | rewrite next_set_size by side Hch
  | rewrite prev_set_size by side Hch
  | rewrite next_set_alloc by side Hch
  | rewrite prev_set_alloc by side Hch
  | rewrite size_set_size by flia
  | rewrite alloc_set_size by flia
  | rewrite size_set_alloc by flia
  | rewrite alloc_set_alloc by flia
  | progress autorewrite with meta
  | progress cbv beta delta [get_footer sizeof_footer_t sizeof_header_t NULL
      FREE ALLOC MIN_BLOCK_SIZE]
  | rewrite Z.eqb_refl
  | progress cbn [negb andb orb]
  | rewrite wrap64_small by rng
  | rewrite Z.mod_small by rng
  | match goal with
    | H : GET_NEXT ?s ?x = _ |- _ => progress (rewrite H)
    | H : GET_PREV ?s ?x = _ |- _ => progress (rewrite H)
    | H : block_size ?s ?x = _ |- _ => progress (rewrite H)
    | H : allocated ?s ?x = _ |- _ => progress (rewrite H)
    | H : freerootptr ?s = _ |- _ => progress (rewrite H)
    end
  | match goal with
    | |- context [?x =? ?y] => rewrite (eqb_false x y) by neq
    end ].

Ltac rdg Hch := repeat rd1g Hch.

Ltac bool_in E :=
  repeat first
  [ rewrite negb_true_iff in E | rewrite negb_false_iff in E
  | rewrite andb_true_iff in E | rewrite andb_false_iff in E
  | rewrite orb_true_iff in E | rewrite orb_false_iff in E
  | rewrite Z.eqb_eq in E | rewrite Z.eqb_neq in E
  | rewrite Z.leb_le in E | rewrite Z.leb_gt in E
  | rewrite Z.ltb_lt in E | rewrite Z.ltb_ge in E ].

(** Name a value read from the state. *)
Tactic Notation "name" constr(t) "as" ident(x) ident(E) :=
  remember t as x eqn:E; symmetry in E;
  assert (atom x) by exact I.

(** Forward saturation of the context with the facts at hand. *)
Ltac sat :=
  repeat match goal with
  | H : False |- _ => destruct H
  | H : _ /\ _ |- _ => destruct H
  | H : ?a = ?a |- _ => clear H
  | H : ?a = ?a -> _ |- _ => specialize (H eq_refl)
  | H : ?P -> _, H' : ?P |- _ =>
      lazymatch type of P with Prop => specialize (H H') end
  | H : ?x + ?y <> 0 -> _ |- _ =>
      let H' := fresh in
      assert (H' : x + y <> 0) by (clear H; flia); specialize (H H')
  | H : ?x = 0, A : atom ?x |- _ => rewrite H in *; clear H A
  | H : ?x = ?y, A : atom ?y |- _ => is_var x; rewrite <- H in *; clear H A
  | H : ?x = ?y, A : atom ?x |- _ => rewrite H in *; clear H A
  | H : isfree ?bl ?x, Hz : forall v, isfree ?bl v -> v <> 0 |- _ =>
      lazymatch goal with
      | _ : x <> 0 |- _ => fail
      | _ => pose proof (Hz x H)
      end
  | H : isfree ?bl ?x, Hn : forall v, isfree ?bl v -> node ?bl' v |- _ =>
      lazymatch goal with
      | _ : node bl' x |- _ => fail
      | _ => pose proof (Hn x H)
      end
  | H : node ?bl ?x, Hrg : forall v, node ?bl v -> 0 < v /\ v < 2 ^ 64 |- _ =>
      lazymatch goal with
      | _ : 0 < x |- _ => fail
      | _ => pose proof (Hrg x H)
      end
  end.

Ltac absurd_branch C :=
  try solve [ exfalso; first [ discriminate C | flia ] ].

(** [wp_let]: one step on the head [let]: a nested [let] is brought to the
    front, a conditional value is decided or split, any other value is
    named, normalised and substituted. *)
Ltac wp_let Hch :=
  lazymatch goal with
  | |- ?Q (let x := (let y := ?V in @?A y) in @?K x) =>
      change (Q (let y := V in let x := A y in K x)); cbv beta
  | |- ?Q (let x := (if ?c then _ else _) in _) =>
      let E := fresh "C" in
      destruct c eqn:E; rd Hch E; cbn [negb andb orb] in E; bool_in E;
      absurd_branch E; sat
  | |- ?Q (let x := ?V in @?B x) =>
      let s' := fresh "st" in
      let E := fresh "E" in
      pose (s' := V); change (Q (B s')); cbv beta;
      assert (E : s' = V) by reflexivity; clearbody s';
      rd Hch E;
      subst s'
  end.

(** [wp_if]: decide or split on the condition of the head conditional. *)
Ltac wp_if Hch :=
  lazymatch goal with
  | |- ?Q (if ?c then _ else _) =>
      let E := fresh "C" in
      destruct c eqn:E; rd Hch E; cbn [negb andb orb] in E; bool_in E;
      absurd_branch E; sat
  end.

Ltac wp Hch := repeat first [ wp_let Hch | wp_if Hch ].

(** Membership in a layout written with [++] and [::]. *)
Ltac in_cases H :=
  repeat first
  [ rewrite in_app_iff in H
  | progress cbn [In] in H ];
  repeat match type of H with
  | _ \/ _ => destruct H as [H|H]
  end;
  cbv delta [FREE ALLOC] in H;
  try match type of H with
  | False => destruct H
  | (?a, ?b, ?c) = (?x, ?y, ?z) =>
      first
      [ discriminate H
      | let E1 := fresh "E" in
        let E2 := fresh "E" in
        let E3 := fresh "E" in
        assert (E1 : a = x) by congruence;
        assert (E2 : b = y) by congruence;
        assert (E3 : c = z) by congruence;
        try rewrite <- E1 in *; try rewrite <- E2 in *; try rewrite <- E3 in *;
        clear H E1 E2 E3 ]
  | _ = ?b => is_var b; subst b
  end.

Ltac in_solve :=
  repeat first [ rewrite in_app_iff | progress cbn [In] ];
  solve [ auto 8 | tauto ].

(** The tags are the same after a run of link stores. *)
Ltac same_tags_tac nd :=
  repeat lazymatch goal with
  | |- same_tags _ ?s ?s => apply same_tags_refl
  | |- same_tags _ _ (set_freerootptr _ _) => apply same_tags_set_root
  | |- same_tags _ _ (SET_NEXT _ _ _) => apply same_tags_SET_NEXT; [solve [nd]|]
  | |- same_tags _ _ (SET_PREV _ _ _) => apply same_tags_SET_PREV; [solve [nd]|]
  | |- same_tags _ _ _ => exact (same_tags_refl _ _)
  end.

(** The reads of a goal, without deciding comparisons. *)
Ltac rd1r Hch :=
  first
  [ rewrite prev_addr
  | rewrite if_same
  | rewrite Z.add_assoc
  | rewrite next_SET_NEXT by side Hch
  | rewrite prev_SET_PREV by side Hch
  | rewrite next_SET_PREV by side Hch
  | rewrite prev_SET_NEXT by side Hch
  | rewrite next_set_size by side Hch
  | rewrite prev_set_size by side Hch
  | rewrite next_set_alloc by side Hch
  | rewrite prev_set_alloc by side Hch
  | progress autorewrite with meta
  | rewrite Z.eqb_refl
  | rewrite wrap64_small by rng
  | match goal with
    | H : GET_NEXT ?s ?x = _ |- _ => progress (rewrite H)
    | H : GET_PREV ?s ?x = _ |- _ => progress (rewrite H)
    end ].

Ltac quick_neq := first [ assumption | apply not_eq_sym; assumption ].
Ltac quick_eq := first [ assumption | symmetry; assumption ].

(** Decide the comparisons of closed terms in [H], splitting where the
    context does not settle them. *)
Ltac plain u :=
  lazymatch u with
  | context [_ =? _] => fail
  | _ => idtac
  end.

Ltac simp_closed H :=
  repeat match type of H with
  | context [?u =? ?v] =>
      plain u; plain v;
      first
      [ rewrite (Z.eqb_refl u) in H
      | rewrite (eqb_false u v) in H by neq
      | rewrite (eqb_true_eq u v) in H by flia
      | let e := fresh "e" in
        destruct (Z.eq_dec u v) as [e|e];
        [ rewrite (eqb_true_eq u v e) in H; try solve [exfalso; flia]
        | rewrite (eqb_false u v e) in H; try solve [exfalso; flia] ] ]
  end.

(** Split on the comparisons of the goal, closing the absurd branches. *)
Ltac split_conds :=
  repeat match goal with
  | |- context [?u =? ?v] =>
      plain u; plain v;
      first
      [ rewrite (Z.eqb_refl u)
      | rewrite (eqb_false u v) by quick_neq
      | rewrite (eqb_true_eq u v) by quick_eq
      | let e := fresh "e" in
        destruct (Z.eqb_spec u v) as [e|e];
        [ first [ rewrite e in * | rewrite <- e in * | idtac ]; sat;
          try solve [exfalso; flia]
        | try solve [exfalso; flia] ] ]
  end.

(** The link fields of a node after the run, against their description. *)
Ltac links_tac Hch :=
  cbv beta; sat; repeat rd1r Hch;
  repeat split; try reflexivity;
  split_conds; first [ reflexivity | flia | neq | exfalso; neq ].

(** Arithmetic on the addresses of the blocks of a layout. *)
Ltac geo :=
  repeat match goal with
  | H : In (?x, ?sx, ?ax) ?l, Hc : chain ?a ?l ?e |- _ =>
      lazymatch goal with
      | _ : a <= x /\ x + sx <= e /\ _ |- _ => fail
      | _ => pose proof (chain_in _ _ _ _ _ _ Hc H)
      end
  end;
  lia.

(** * place *)

Lemma place_consume_wp s l1 l2 rank block sz asize (Q : state -> Prop) :
  heap_inv s (l1 ++ (block, sz, 0) :: l2) rank -> 32 <= asize <= sz ->
  sz - asize < 32 ->
  (forall s' rank',
     heap_inv s' (l1 ++ (block, sz, 1) :: l2) rank' ->
     mem_brk s' = mem_brk s -> mem_max_addr s' = mem_max_addr s ->
     prologue s' = prologue s -> Q s') ->
  Q (place block asize s).
Proof.
  intros (Hlo & Hfl & Hna) Hsz Hsmall HQ.
  remember (l1 ++ (block, sz, 0) :: l2) as bl eqn:Hbl.
  remember (l1 ++ (block, sz, 1) :: l2) as bl' eqn:Hbl1.
  assert (Hin : In (block, sz, 0) bl) by (subst bl; in_solve).
  pose proof (isfree_nonnull _ _ Hlo) as Hnz.
  destruct Hlo as [Hb Hpro Hch Hepi Htags].
  pose proof (chain_in _ _ _ _ _ _ Hch Hin) as Hgeo.
  pose proof Hch as Hch0. rewrite Hbl in Hch0.
  apply chain_app in Hch0. destruct Hch0 as (m & Hc1 & Hc2).
  cbn [chain] in Hc2. destruct Hc2 as (Em & _ & Hc2). subst m.
  assert (Hch' : chain (prologue s + sizeof_header_t) bl' (mem_brk s - sizeof_header_t)).
  { subst bl'. apply chain_app. exists block. split; [assumption|].
    cbn [chain]. unfold MIN_BLOCK_SIZE. repeat split; [lia|assumption]. }
  pose proof (Htags _ Hin) as (T1 & T2 & T3 & T4).
  consts.
  pose proof (isfree_node bl) as Hn.
  assert (Fb : isfree bl block) by (exists sz; exact Hin).
  assert (Nb : node bl block) by (apply isfree_node; assumption).
  pose proof (fl_next _ _ _ _ _ _ Hfl block Fb) as HN.
  pose proof (fl_prev _ _ _ _ _ _ Hfl block Fb) as HP.
  pose proof (fl_prev_rank _ _ _ _ _ _ Hfl Hnz block Fb) as HPr.
  pose proof (fl_first _ _ _ _ _ _ Hfl block Fb) as HF.
  pose proof (GET_NEXT_range s block) as RN.
  pose proof (GET_PREV_range s block) as RP.
  pose proof (fl_root _ _ _ _ _ _ Hfl (fl_root_nonempty _ _ _ _ _ _ Hfl block Fb)) as HRt.
  pose proof (unlink_ok _ _ _ _ _ _ Hfl Hnz block Fb) as Hu.
  unfold unlink_N, unlink_P, unlink_root, unlink_rank, fupd in Hu.
  name (GET_NEXT s block) as c Hc.
  name (GET_PREV s block) as a Ha.
  name (freerootptr s) as root Hroot.
  assert (HF' : forall x, isfree bl' x <-> isfree bl x /\ x <> block).
  { intros x. split.
    - intros (sx & Hx). subst bl'. in_cases Hx.
      + pose proof (chain_in _ _ _ _ _ _ Hc1 Hx). split; [exists sx; subst bl; in_solve|lia].
      + pose proof (chain_in _ _ _ _ _ _ Hc2 Hx). split; [exists sx; subst bl; in_solve|lia].
    - intros ((sx & Hx) & Hne). subst bl. in_cases Hx; try congruence; exists sx; subst bl'; in_solve. }
  assert (Hnf : nfree bl' = nfree bl - 1).
  { subst bl bl'. rewrite !nfree_app. cbn [nfree]. change FREE with 0. cbn [Z.eqb]. lia. }
  assert (Hna' : no_adj bl').
  { intros x sx y sy Hx Hy. apply (Hna x sx y sy).
    - subst bl bl'. in_cases Hx; in_solve.
    - subst bl bl'. in_cases Hy; in_solve. }
  assert (Hlt : layout_ok (set_allocated (block + sz - 8) 1 (set_allocated block 1 s)) bl').
  { split; consts; autorewrite with meta; try assumption.
    - rdg Hch. assumption.
    - rdg Hch. assumption.
    - intros b Hb'. subst bl'. in_cases Hb'.
      + destruct b as [[x sx] ax].
        pose proof (chain_in _ _ _ _ _ _ Hc1 Hb').
        assert (Hb'' : In (x, sx, ax) bl) by (subst bl; in_solve).
        pose proof (Htags _ Hb'') as Tb. cbn [tag_ok] in Tb |- *. consts. sat.
        rdg Hch. auto.
      + cbn [tag_ok]. consts. rdg Hch. auto.
      + destruct b as [[x sx] ax].
        pose proof (chain_in _ _ _ _ _ _ Hc2 Hb').
        assert (Hb'' : In (x, sx, ax) bl) by (subst bl; in_solve).
        pose proof (Htags _ Hb'') as Tb. cbn [tag_ok] in Tb |- *. consts. sat.
        rdg Hch. auto. }
  assert (Hn' : forall v, node bl v -> node bl' v).
  { intros v (sv & av & Hv). subst bl. in_cases Hv.
    all: eexists _, _; subst bl'; rewrite in_app_iff; cbn [In]; eauto 8. }
  cbv beta delta [place]. consts.
  wp Hch.
  all: apply (HQ _ (fun x => if rank block <? rank x then rank x - 1 else rank x));
    [|autorewrite with meta; reflexivity ..].
  all: eapply heap_inv_intro;
    [ eapply (layout_ok_same_tags _ _ _ Hlt)
    | rewrite Hnf; exact Hu
    | intros x (Fx & _); apply Hnz; exact Fx
    | exact Hna'
    | 
    | exact HF'
    | ].
  all: try solve [ same_tags_tac ltac:(first [eassumption | apply Hn'; eassumption]) ].
  all: try solve [ rdg Hch; reflexivity ].
  all: solve [ intros x (Fx & Hxb); links_tac Hch ].
Qed.

Lemma place_split_wp s l1 l2 rank block sz asize (Q : state -> Prop) :
  heap_inv s (l1 ++ (block, sz, 0) :: l2) rank -> 32 <= asize <= sz ->
  32 <= sz - asize ->
  (forall s' rank',
     heap_inv s' (l1 ++ (block, asize, 1) :: (block + asize, sz - asize, 0) :: l2) rank' ->
     mem_brk s' = mem_brk s -> mem_max_addr s' = mem_max_addr s ->
     prologue s' = prologue s -> Q s') ->
  Q (place block asize s).
Proof.
  intros (Hlo & Hfl & Hna) Hsz Hbig HQ.
  remember (l1 ++ (block, sz, 0) :: l2) as bl eqn:Hbl.
  remember (block + asize) as nb eqn:Hnbdef.
  remember (l1 ++ (block, asize, 1) :: (nb, sz - asize, 0) :: l2) as bl' eqn:Hbl1.
  assert (Hin : In (block, sz, 0) bl) by (subst bl; in_solve).
  pose proof (isfree_nonnull _ _ Hlo) as Hnz.
  destruct Hlo as [Hb Hpro Hch Hepi Htags].
  pose proof (chain_in _ _ _ _ _ _ Hch Hin) as Hgeo.
  pose proof Hch as Hch0. rewrite Hbl in Hch0.
  apply chain_app in Hch0. destruct Hch0 as (m & Hc1 & Hc2).
  cbn [chain] in Hc2. destruct Hc2 as (Em & _ & Hc2). subst m.
  assert (Hch' : chain (prologue s + sizeof_header_t) bl' (mem_brk s - sizeof_header_t)).
  { subst bl'. apply chain_app. exists block. split; [assumption|].
    cbn [chain]. unfold MIN_BLOCK_SIZE. subst nb. repeat split; try lia.
    replace (block + asize + (sz - asize)) with (block + sz) by lia. assumption. }
  pose proof (Htags _ Hin) as (T1 & T2 & T3 & T4).
  consts.
  assert (Hn : forall v, isfree bl v -> node bl' v).
  { intros v (sv & Hv). subst bl. in_cases Hv.
    all: eexists _, _; subst bl'; rewrite in_app_iff; cbn [In]; eauto 8. }
  assert (Fb : isfree bl block) by (exists sz; exact Hin).
  assert (Nb : node bl' block) by (apply Hn; assumption).
  assert (Nnb : node bl' nb).
  { eexists _, _; subst bl'; rewrite in_app_iff; cbn [In]; eauto 8. }
  assert (Hin1 : In (block, asize, 1) bl') by (subst bl'; in_solve).
  assert (Hin2 : In (nb, sz - asize, 0) bl') by (subst bl'; in_solve).
  assert (Fnb : ~ isfree bl nb).
  { intros (sx & Hx). pose proof (chain_disj _ _ _ _ _ _ _ _ _ Hch Hx Hin).
    pose proof (chain_in _ _ _ _ _ _ Hch Hx). subst nb. lia. }
  assert (Hnb0 : nb <> 0) by (subst nb; lia).
  pose proof (fl_next _ _ _ _ _ _ Hfl block Fb) as HN.
  pose proof (fl_prev _ _ _ _ _ _ Hfl block Fb) as HP.
  pose proof (fl_prev_rank _ _ _ _ _ _ Hfl Hnz block Fb) as HPr.
  pose proof (fl_first _ _ _ _ _ _ Hfl block Fb) as HF.
  pose proof (GET_NEXT_range s block) as RN.
  pose proof (GET_PREV_range s block) as RP.
  pose proof (fl_root _ _ _ _ _ _ Hfl (fl_root_nonempty _ _ _ _ _ _ Hfl block Fb)) as HRt.
  pose proof (subst_ok _ _ _ _ _ _ Hfl Hnz block nb Fb Fnb Hnb0) as Hu.
  unfold subst_N, subst_P, subst_root, subst_rank, fupd in Hu.
  name (GET_NEXT s block) as c Hc.
  name (GET_PREV s block) as a Ha.
  name (freerootptr s) as root Hroot.
  assert (Rnb : 0 <= nb < 2 ^ 64) by (subst nb; lia).
  assert (HF' : forall x, isfree bl' x <-> (isfree bl x /\ x <> block) \/ x = nb).
  { intros x. split.
    - intros (sx & Hx). subst bl'. in_cases Hx.
      + pose proof (chain_in _ _ _ _ _ _ Hc1 Hx). left. split; [exists sx; subst bl; in_solve|lia].
      + right. reflexivity.
      + pose proof (chain_in _ _ _ _ _ _ Hc2 Hx). left. split; [exists sx; subst bl; in_solve|lia].
    - intros [((sx & Hx) & Hne)| ->].
      + subst bl. in_cases Hx; try congruence; exists sx; subst bl'; in_solve.
      + exists (sz - asize). exact Hin2. }
  assert (Hnf : nfree bl' = nfree bl).
  { subst bl bl'. rewrite !nfree_app. cbn [nfree]. change FREE with 0. cbn [Z.eqb]. lia. }
  assert (Hna' : no_adj bl').
  { intros x sx y sy Hx Hy. subst bl'. in_cases Hx; in_cases Hy.
    - apply (Hna x sx y sy); subst bl; in_solve.
    - pose proof (chain_in _ _ _ _ _ _ Hc1 Hx). subst nb. lia.
    - apply (Hna x sx y sy); subst bl; in_solve.
    - pose proof (chain_in _ _ _ _ _ _ Hc1 Hy). subst nb. lia.
    - subst nb. lia.
    - intros E. apply (Hna block sz y sy); [subst bl; in_solve|subst bl; in_solve|].
      subst nb. lia.
    - apply (Hna x sx y sy); subst bl; in_solve.
    - pose proof (chain_in _ _ _ _ _ _ Hc2 Hx). subst nb. lia.
    - apply (Hna x sx y sy); subst bl; in_solve. }
  set (s_tag :=
    set_allocated (block + asize + (sz - asize) - 8) 0
      (set_block_size (block + asize + (sz - asize) - 8) (sz - asize)
         (set_allocated (block + asize) 0
            (set_block_size (block + asize) (sz - asize)
               (set_allocated (block + asize - 8) 1
                  (set_block_size (block + asize - 8) asize
                     (set_allocated block 1 (set_block_size block asize s)))))))).
  assert (Hlt : layout_ok s_tag bl').
  { subst s_tag. split; consts; autorewrite with meta; try assumption.
    - rdg Hch'. assumption.
    - rdg Hch'. assumption.
    - intros b Hb'. subst bl'. in_cases Hb'.
      + destruct b as [[x sx] ax].
        pose proof (chain_in _ _ _ _ _ _ Hc1 Hb').
        assert (Hb'' : In (x, sx, ax) bl) by (subst bl; in_solve).
        pose proof (Htags _ Hb'') as Tb. cbn [tag_ok] in Tb |- *. consts. sat.
        rdg Hch'. auto.
      + cbn [tag_ok]. consts. rdg Hch'. auto.
      + cbn [tag_ok]. consts. subst nb. rdg Hch'. auto.
      + destruct b as [[x sx] ax].
        pose proof (chain_in _ _ _ _ _ _ Hc2 Hb').
        assert (Hb'' : In (x, sx, ax) bl) by (subst bl; in_solve).
        pose proof (Htags _ Hb'') as Tb. cbn [tag_ok] in Tb |- *. consts. sat.
        rdg Hch'. auto. }
  subst nb.
  cbv beta delta [place]. consts.
  wp Hch'.
  all: apply (HQ _ (fun x => if x =? block + asize then rank block else rank x));
    [|autorewrite with meta; reflexivity ..].
  all: eapply heap_inv_intro;
    [ eapply (layout_ok_same_tags _ _ _ Hlt)
    | rewrite Hnf; exact Hu
    | intros x [(Fx & _)| ->]; [apply Hnz; exact Fx|exact Hnb0]
    | exact Hna'
    | 
    | exact HF'
    | ].
  all: try solve [ same_tags_tac ltac:(eassumption) ].
  all: try solve [ rdg Hch'; reflexivity ].
  all: solve [ intros x [(Fx & Hxb)| ->]; links_tac Hch' ].
Qed.

(** * Tag stores that merge a run of blocks *)

Lemma layout_merge s l1 lm l2 p sp q sq a T fa :
  layout_ok s (l1 ++ (p, sp, a) :: lm ++ (q, sq, a) :: l2) ->
  T = q + sq - p -> fa = q + sq - 8 ->
  layout_ok (set_block_size fa T (set_block_size p T s)) (l1 ++ (p, T, a) :: l2).
Proof.
  intros [Hb Hpro Hch Hepi Htags] HT Hfa.
  pose proof Hch as Hch0.
  apply chain_app in Hch0. destruct Hch0 as (m & Hc1 & Hc2).
  cbn [chain] in Hc2. destruct Hc2 as (Em & Hsp & Hc2). subst m.
  apply chain_app in Hc2. destruct Hc2 as (m & Hcm & Hc2).
  cbn [chain] in Hc2. destruct Hc2 as (Em & Hsq & Hc2). subst m.
  pose proof (chain_le _ _ _ Hc1). pose proof (chain_le _ _ _ Hcm).
  pose proof (chain_le _ _ _ Hc2).
  assert (Hp : In (p, sp, a) (l1 ++ (p, sp, a) :: lm ++ (q, sq, a) :: l2))
    by in_solve.
  assert (Hq : In (q, sq, a) (l1 ++ (p, sp, a) :: lm ++ (q, sq, a) :: l2)).
  { rewrite in_app_iff. right. right. rewrite in_app_iff. right. left. reflexivity. }
  pose proof (Htags _ Hp) as (Tp1 & Tp2 & _).
  pose proof (Htags _ Hq) as (_ & _ & Tq3 & Tq4).
  consts.
  assert (RT : 0 <= T < 2 ^ 31) by lia.
  split; consts; autorewrite with meta.
  - assumption.
  - rewrite !size_set_size, !alloc_set_size by lia.
    rewrite !eqb_false by lia. assumption.
  - apply chain_app. exists p. split; [assumption|].
    cbn [chain]. unfold MIN_BLOCK_SIZE. repeat split; [lia|].
    replace (p + T) with (q + sq) by lia. assumption.
  - rewrite !size_set_size, !alloc_set_size by lia.
    rewrite !eqb_false by lia. assumption.
  - intros [[x sx] ax] Hin. cbn [tag_ok]. consts. in_cases Hin.
    + pose proof (chain_in _ _ _ _ _ _ Hc1 Hin).
      assert (Hin' : In (x, sx, ax) (l1 ++ (p, sp, a) :: lm ++ (q, sq, a) :: l2))
        by in_solve.
      pose proof (Htags _ Hin') as Tx. cbn [tag_ok] in Tx. consts.
      rewrite !size_set_size, !alloc_set_size by lia.
      rewrite !eqb_false by lia. assumption.
    + rewrite !size_set_size, !alloc_set_size by lia.
      replace (p + T - 8) with fa by lia.
      rewrite !Z.eqb_refl. rewrite Z.mod_small by assumption.
      rewrite (eqb_false p fa) by lia.
      repeat split; try reflexivity; try assumption.
      subst fa. assumption.
    + pose proof (chain_in _ _ _ _ _ _ Hc2 Hin).
      assert (Hin' : In (x, sx, ax) (l1 ++ (p, sp, a) :: lm ++ (q, sq, a) :: l2)).
      { rewrite in_app_iff. right. right. rewrite in_app_iff. right. right.
        assumption. }
      pose proof (Htags _ Hin') as Tx. cbn [tag_ok] in Tx. consts.
      rewrite !size_set_size, !alloc_set_size by lia.
      rewrite !eqb_false by lia. assumption.
Qed.

(** * Tag stores that flip the flag of a block *)

Lemma layout_flag s l1 l2 x sz a a' :
  layout_ok s (l1 ++ (x, sz, a) :: l2) -> 0 <= a' <= 1 ->
  layout_ok (set_allocated (x + sz - 8) a' (set_allocated x a' s))
            (l1 ++ (x, sz, a') :: l2).
Proof.
  intros [Hb Hpro Hch Hepi Htags] Ha.
  pose proof Hch as Hch0.
  apply chain_app in Hch0. destruct Hch0 as (m & Hc1 & Hc2).
  cbn [chain] in Hc2. destruct Hc2 as (Em & Hsz & Hc2). subst m.
  pose proof (chain_le _ _ _ Hc1). pose proof (chain_le _ _ _ Hc2).
  assert (Hx : In (x, sz, a) (l1 ++ (x, sz, a) :: l2)) by in_solve.
  pose proof (Htags _ Hx) as (Tx1 & Tx2 & Tx3 & Tx4).
  consts.
  split; consts; autorewrite with meta.
  - assumption.
  - rewrite !size_set_alloc, !alloc_set_alloc by lia.
    rewrite !eqb_false by lia. assumption.
  - apply chain_app. exists x. split; [assumption|].
    cbn [chain]. unfold MIN_BLOCK_SIZE. repeat split; [lia|assumption].
  - rewrite !size_set_alloc, !alloc_set_alloc by lia.
    rewrite !eqb_false by lia. assumption.
  - intros [[y sy] ay] Hin. cbn [tag_ok]. consts. in_cases Hin.
    + pose proof (chain_in _ _ _ _ _ _ Hc1 Hin).
      assert (Hin' : In (y, sy, ay) (l1 ++ (x, sz, a) :: l2)) by in_solve.
      pose proof (Htags _ Hin') as Ty. cbn [tag_ok] in Ty. consts.
      rewrite !size_set_alloc, !alloc_set_alloc by lia.
      rewrite !eqb_false by lia. assumption.
    + rewrite !size_set_alloc, !alloc_set_alloc by lia.
      rewrite !Z.eqb_refl. rewrite (eqb_false x (x + sz - 8)) by lia.
      rewrite Z.mod_small by lia.
      repeat split; try reflexivity; assumption.
    + pose proof (chain_in _ _ _ _ _ _ Hc2 Hin).
      assert (Hin' : In (y, sy, ay) (l1 ++ (x, sz, a) :: l2)) by in_solve.
      pose proof (Htags _ Hin') as Ty. cbn [tag_ok] in Ty. consts.
      rewrite !size_set_alloc, !alloc_set_alloc by lia.
      rewrite !eqb_false by lia. assumption.
Qed.

Lemma absorb_prev_nil x sz : absorb_prev [] x sz = ([], x, sz).
Proof. reflexivity. Qed.

Lemma absorb_prev_snoc l p sp a x sz :
  absorb_prev (l ++ [(p, sp, a)]) x sz =
  if a =? FREE then (l, p, sp + sz) else (l ++ [(p, sp, a)], x, sz).
Proof.
  unfold absorb_prev. rewrite rev_app_distr. cbn [rev app].
  rewrite rev_involutive. reflexivity.
Qed.

Lemma snoc_cases (A : Type) (l : list A) :
  l = [] \/ exists l' x, l = l' ++ [x].
Proof.
  destruct (rev l) as [|x r] eqn:Hr.
  - left. rewrite <- (rev_involutive l), Hr. reflexivity.
  - right. exists (rev r), x. rewrite <- (rev_involutive l), Hr. reflexivity.
Qed.

(** * coalesce *)

Lemma coalesce_case1_wp s l1 l2 block sz rank (Q : Z * state -> Prop) :
  coalesce_pre s (l1 ++ (block, sz, 0) :: l2) block rank ->
  allocated s (block - 8) = 1 -> allocated s (block + sz) = 1 ->
  (forall s' rank',
     heap_inv s' (l1 ++ (block, sz, 0) :: l2) rank' ->
     freerootptr s' = block ->
     mem_brk s' = mem_brk s -> mem_max_addr s' = mem_max_addr s ->
     prologue s' = prologue s -> Q (block, s')) ->
  Q (coalesce block s).
Proof.
  intros (Hlo & (r & Hr & Hfl) & Hna) Hpa Hnxa HQ.
  remember (l1 ++ (block, sz, 0) :: l2) as bl eqn:Hbl.
  assert (Hin : In (block, sz, 0) bl) by (subst bl; in_solve).
  assert (Hnz : forall x, isfree bl x /\ x <> block -> x <> 0).
  { intros x (Fx & _). exact (isfree_nonnull _ _ Hlo x Fx). }
  pose proof Hlo as Hlo0.
  destruct Hlo as [Hb Hpro Hch Hepi Htags].
  pose proof (chain_in _ _ _ _ _ _ Hch Hin) as Hgeo.
  pose proof (Htags _ Hin) as (T1 & T2 & T3 & T4).
  consts.
  assert (Nb : node bl block) by (eapply in_node; eassumption).
  assert (Hn : forall v, isfree bl v -> node bl v) by apply isfree_node.
  pose proof (node_range _ _ Hlo0) as Hrg.
  assert (Hna' : no_adj bl).
  { intros x sx y sy Hx Hy E.
    pose proof (chain_in _ _ _ _ _ _ Hch Hx).
    pose proof (chain_in _ _ _ _ _ _ Hch Hy).
    destruct (Z.eq_dec x block) as [->|Hxb].
    - pose proof (chain_disj _ _ _ _ _ _ _ _ _ Hch Hx Hin) as [(_ & -> & _)|D]; [|lia].
      pose proof (Htags _ Hy) as (_ & Ty & _). consts. subst y. congruence.
    - destruct (Z.eq_dec y block) as [->|Hyb].
      + pose proof (Htags _ Hx) as (_ & _ & _ & Tx). consts.
        replace (x + sx - 8) with (block - 8) in Tx by lia. congruence.
      + exact (Hna x sx y sy Hx Hy Hxb Hyb E). }
  assert (Fb : ~ (isfree bl block /\ block <> block)) by tauto.
  assert (Hb0 : block <> 0) by lia.
  assert (Hnf0 : 0 <= nfree bl - 1).
  { subst bl. rewrite nfree_app. cbn [nfree]. change FREE with 0. cbn [Z.eqb].
    pose proof (nfree_nonneg l1). pose proof (nfree_nonneg l2). lia. }
  pose proof (push_ok _ _ _ _ _ _ Hfl Hnz block Fb Hb0 Hnf0) as Hu.
  unfold push_N, push_P, push_rank, fupd in Hu. consts.
  replace (nfree bl - 1 + 1) with (nfree bl) in Hu by lia.
  assert (HF' : forall x, isfree bl x <-> (isfree bl x /\ x <> block) \/ x = block).
  { intros x. split.
    - intros Fx. destruct (Z.eq_dec x block); auto.
    - intros [(Fx & _)| ->]; [assumption|exists sz; assumption]. }
  pose proof (fl_root _ _ _ _ _ _ Hfl) as HRt.
  pose proof (fl_empty _ _ _ _ _ _ Hfl) as HRe.
  assert (Rb : 0 <= block < 2 ^ 64) by lia.
  cbv beta in HRt, HRe.
  destruct Hr as [->|(-> & Hrb)].
  - name (freerootptr s) as root Hroot.
    cbv beta delta [coalesce]. consts.
    wp Hch.
    all: apply (HQ _ (fun x => if x =? block then 0 else rank x + 1));
      [|autorewrite with meta; reflexivity ..].
    all: eapply heap_inv_intro;
      [ eapply (layout_ok_same_tags _ _ _ Hlo0)
      | exact Hu
      | intros x [Fx| ->]; [apply Hnz; exact Fx|exact Hb0]
      | exact Hna'
      | autorewrite with meta; reflexivity
      | exact HF'
      | ].
    all: try solve [ same_tags_tac ltac:(eassumption) ].
    + intros x Fx.
      assert (Hr0 : root = 0).
      { destruct C as [C|C]; [assumption|]. exfalso.
        rewrite C in HRt. destruct (HRt Hb0) as ((_ & Hne) & _). congruence. }
      destruct Fx as [Fx| ->]; [exfalso; exact (HRe Hr0 x Fx)|].
      links_tac Hch.
    + intros x [(Fx & Hxb)| ->]; links_tac Hch.
  - cbv beta delta [coalesce]. consts.
    wp Hch.
    apply (HQ _ (fun x => if x =? block then 0 else rank x + 1));
      [|autorewrite with meta; reflexivity ..].
    eapply heap_inv_intro;
      [ eapply (layout_ok_same_tags _ _ _ Hlo0)
      | exact Hu
      | intros x [Fx| ->]; [apply Hnz; exact Fx|exact Hb0]
      | exact Hna'
      | autorewrite with meta; reflexivity
      | exact HF'
      | ].
    + same_tags_tac ltac:(eassumption).
    + intros x [Fx| ->]; [exfalso; exact (HRe x Fx)|].
      links_tac Hch.
Qed.

Lemma coalesce_case3_wp s l1 l2 p sp sz rank (Q : Z * state -> Prop) :
  coalesce_pre s (l1 ++ (p, sp, 0) :: (p + sp, sz, 0) :: l2) (p + sp) rank ->
  allocated s (p + sp + sz) = 1 ->
  (forall s' rank',
     heap_inv s' (l1 ++ (p, sp + sz, 0) :: l2) rank' ->
     freerootptr s' = p ->
     mem_brk s' = mem_brk s -> mem_max_addr s' = mem_max_addr s ->
     prologue s' = prologue s -> Q (p, s')) ->
  Q (coalesce (p + sp) s).
Proof.
  intros (Hlo & (r & Hr & Hfl) & Hna) Hnxa HQ.
  remember (l1 ++ (p, sp, 0) :: (p + sp, sz, 0) :: l2) as bl eqn:Hbl.
  remember (l1 ++ (p, sp + sz, 0) :: l2) as bl' eqn:Hbl1.
  assert (Hin : In (p + sp, sz, 0) bl) by (subst bl; in_solve).
  assert (Hinp : In (p, sp, 0) bl) by (subst bl; in_solve).
  assert (Hnz : forall x, isfree bl x /\ x <> p + sp -> x <> 0).
  { intros x (Fx & _). exact (isfree_nonnull _ _ Hlo x Fx). }
  pose proof Hlo as Hlo0.
  destruct Hlo as [Hb Hpro Hch Hepi Htags].
  pose proof (chain_in _ _ _ _ _ _ Hch Hin) as Hgeo.
  pose proof (chain_in _ _ _ _ _ _ Hch Hinp) as Hgeop.
  pose proof Hch as Hch0. rewrite Hbl in Hch0.
  apply chain_app in Hch0. destruct Hch0 as (m & Hc1 & Hc2).
  cbn [chain] in Hc2. destruct Hc2 as (Em & _ & _ & _ & Hc2). subst m.
  pose proof (Htags _ Hin) as (T1 & T2 & T3 & T4).
  pose proof (Htags _ Hinp) as (Tp1 & Tp2 & Tp3 & Tp4).
  consts.
  assert (Nb : node bl (p + sp)) by (eapply in_node; eassumption).
  assert (Np : node bl p) by (eapply in_node; eassumption).
  assert (Hn : forall v, isfree bl v -> node bl v) by apply isfree_node.
  pose proof (node_range _ _ Hlo0) as Hrg.
  assert (Fp : isfree bl p /\ p <> p + sp) by (split; [exists sp; assumption|lia]).
  assert (Hp0 : p <> 0) by lia.
  assert (Hnf : nfree bl' = nfree bl - 1).
  { subst bl bl'. rewrite !nfree_app. cbn [nfree]. change FREE with 0. cbn [Z.eqb]. lia. }
  assert (Hnf0 : 0 <= nfree bl - 1 - 1).
  { subst bl. rewrite nfree_app. cbn [nfree]. change FREE with 0. cbn [Z.eqb].
    pose proof (nfree_nonneg l1). pose proof (nfree_nonneg l2). lia. }
  pose proof (unlink_ok _ _ _ _ _ _ Hfl Hnz p Fp) as Hu1.
  assert (Hnz1 : forall x, (isfree bl x /\ x <> p + sp) /\ x <> p -> x <> NULL).
  { intros x (Fx & _). apply Hnz. assumption. }
  assert (Fp1 : ~ ((isfree bl p /\ p <> p + sp) /\ p <> p)) by tauto.
  pose proof (push_ok _ _ _ _ _ _ Hu1 Hnz1 p Fp1 Hp0 Hnf0) as Hu.
  unfold push_N, push_P, push_rank, unlink_N, unlink_P, unlink_root, unlink_rank, fupd in Hu.
  consts.
  replace (nfree bl - 1 - 1 + 1) with (nfree bl') in Hu by lia.
  clear Hu1.
  assert (HF' : forall x, isfree bl' x <->
            ((isfree bl x /\ x <> p + sp) /\ x <> p) \/ x = p).
  { intros x. split.
    - intros (sx & Hx). subst bl'. in_cases Hx.
      + pose proof (chain_in _ _ _ _ _ _ Hc1 Hx). left.
        repeat split; [exists sx; subst bl; in_solve|lia..].
      + right. reflexivity.
      + pose proof (chain_in _ _ _ _ _ _ Hc2 Hx). left.
        repeat split; [exists sx; subst bl; in_solve|lia..].
    - intros [(((sx & Hx) & Hne) & Hne')| ->].
      + subst bl. in_cases Hx; try congruence; exists sx; subst bl'; in_solve.
      + exists (sp + sz). subst bl'. in_solve. }
  assert (Hna' : no_adj bl').
  { intros x sx y sy Hx Hy E. subst bl'. in_cases Hx; in_cases Hy.
    - apply (Hna x sx y sy);
        [subst bl; in_solve|subst bl; in_solve|geo|geo|assumption].
    - apply (Hna x sx p sp);
        [subst bl; in_solve|subst bl; in_solve|geo|geo|assumption].
    - geo.
    - geo.
    - geo.
    - assert (Hy' : In (y, sy, 0) bl) by (subst bl; in_solve).
      pose proof (Htags _ Hy') as (_ & Ty & _). consts.
      replace y with (p + sp + sz) in Ty by lia. congruence.
    - geo.
    - geo.
    - apply (Hna x sx y sy);
        [subst bl; in_solve|subst bl; in_solve|geo|geo|assumption]. }
  pose proof (fl_root _ _ _ _ _ _ Hfl (fl_root_nonempty _ _ _ _ _ _ Hfl p Fp)) as HRt.
  assert (Hroot : freerootptr s = r).
  { destruct Hr as [->|(-> & _)]; [reflexivity|].
    exfalso. exact (fl_empty _ _ _ _ _ _ Hfl eq_refl p Fp). }
  clear Hr.
  assert (Tf : allocated s (p + sp - 8) = 0) by assumption.
  assert (Tfs : block_size s (p + sp - 8) = sp) by assumption.
  assert (Hlm : forall s0, same_tags bl s s0 ->
            layout_ok (set_block_size (p + (sp + sz) - 8) (sp + sz)
                         (set_block_size p (sp + sz) s0)) bl').
  { intros s0 Hs0. subst bl'.
    apply (layout_merge s0 l1 [] l2 p sp (p + sp) sz 0); [|lia..].
    cbn [app]. rewrite <- Hbl. exact (layout_ok_same_tags _ _ _ Hlo0 Hs0). }
  clear Hc1 Hc2.
  destruct (Z.eq_dec p r) as [Epr|Hpr]; [rewrite <- Epr in *; clear Epr r|].
  all: pose proof (fl_next _ _ _ _ _ _ Hfl p Fp) as HN.
  all: pose proof (fl_prev _ _ _ _ _ _ Hfl p Fp) as HP.
  all: pose proof (fl_prev_rank _ _ _ _ _ _ Hfl Hnz p Fp) as HPr.
  all: pose proof (fl_first _ _ _ _ _ _ Hfl p Fp) as HF.
  all: pose proof (GET_NEXT_range s p) as RN.
  all: pose proof (GET_PREV_range s p) as RP.
  all: cbv beta in HRt, HN, HP.
  all: name (GET_NEXT s p) as np Hnp.
  all: name (GET_PREV s p) as pp Hpp.
  all: cbv beta delta [coalesce]; consts.
  all: wp Hch.
  all: apply (HQ _ (fun x => if x =? p then 0
                   else (if rank p <? rank x then rank x - 1 else rank x) + 1));
    [|autorewrite with meta; first [reflexivity|assumption] ..].
  all: simp_closed Hu.
  all: eapply heap_inv_intro;
    [ apply Hlm
    | exact Hu
    | intros x [Fx| ->]; [apply Hnz1; exact Fx|exact Hp0]
    | exact Hna'
    | autorewrite with meta; first [reflexivity|assumption]
    | exact HF'
    | ].
  all: try solve [ same_tags_tac ltac:(eassumption) ].
  all: try solve [ intros x [((Fx & Hxb) & Hxp)| ->]; links_tac Hch ].
Qed.

Lemma coalesce_case2_wp s l1 l2 block sz sn rank (Q : Z * state -> Prop) :
  coalesce_pre s (l1 ++ (block, sz, 0) :: (block + sz, sn, 0) :: l2) block rank ->
  allocated s (block - 8) = 1 ->
  (forall s' rank',
     heap_inv s' (l1 ++ (block, sz + sn, 0) :: l2) rank' ->
     freerootptr s' = block ->
     mem_brk s' = mem_brk s -> mem_max_addr s' = mem_max_addr s ->
     prologue s' = prologue s -> Q (block, s')) ->
  Q (coalesce block s).
Proof.
  intros (Hlo & (r & Hr & Hfl) & Hna) Hpa HQ.
  remember (l1 ++ (block, sz, 0) :: (block + sz, sn, 0) :: l2) as bl eqn:Hbl.
  remember (l1 ++ (block, sz + sn, 0) :: l2) as bl' eqn:Hbl1.
  assert (Hin : In (block, sz, 0) bl) by (subst bl; in_solve).
  assert (Hinn : In ((block + sz), sn, 0) bl) by (subst bl; in_solve).
  assert (Hnz : forall x, isfree bl x /\ x <> block -> x <> 0).
  { intros x (Fx & _). exact (isfree_nonnull _ _ Hlo x Fx). }
  pose proof Hlo as Hlo0.
  destruct Hlo as [Hb Hpro Hch Hepi Htags].
  pose proof (chain_in _ _ _ _ _ _ Hch Hin) as Hgeo.
  pose proof (chain_in _ _ _ _ _ _ Hch Hinn) as Hgeon.
  pose proof Hch as Hch0. rewrite Hbl in Hch0.
  apply chain_app in Hch0. destruct Hch0 as (m & Hc1 & Hc2).
  cbn [chain] in Hc2. destruct Hc2 as (Em & _ & _ & _ & Hc2). subst m.
  pose proof (Htags _ Hin) as (T1 & T2 & T3 & T4).
  pose proof (Htags _ Hinn) as (Tn1 & Tn2 & Tn3 & Tn4).
  consts.
  assert (Nb : node bl block) by (eapply in_node; eassumption).
  assert (Nn : node bl (block + sz)) by (eapply in_node; eassumption).
  assert (Hn : forall v, isfree bl v -> node bl v) by apply isfree_node.
  pose proof (node_range _ _ Hlo0) as Hrg.
  assert (Fn : isfree bl (block + sz) /\ (block + sz) <> block) by (split; [exists sn; assumption|lia]).
  assert (Hb0 : block <> 0) by lia.
  assert (Hnf : nfree bl' = nfree bl - 1).
  { subst bl bl'. rewrite !nfree_app. cbn [nfree]. change FREE with 0. cbn [Z.eqb]. lia. }
  assert (Hnf0 : 0 <= nfree bl - 1 - 1).
  { subst bl. rewrite nfree_app. cbn [nfree]. change FREE with 0. cbn [Z.eqb].
    pose proof (nfree_nonneg l1). pose proof (nfree_nonneg l2). lia. }
  pose proof (unlink_ok _ _ _ _ _ _ Hfl Hnz (block + sz) Fn) as Hu1.
  assert (Hnz1 : forall x, (isfree bl x /\ x <> block) /\ x <> (block + sz) -> x <> NULL).
  { intros x (Fx & _). apply Hnz. assumption. }
  assert (Fb1 : ~ ((isfree bl block /\ block <> block) /\ block <> (block + sz))) by tauto.
  pose proof (push_ok _ _ _ _ _ _ Hu1 Hnz1 block Fb1 Hb0 Hnf0) as Hu.
  unfold push_N, push_P, push_rank, unlink_N, unlink_P, unlink_root, unlink_rank, fupd in Hu.
  consts.
  replace (nfree bl - 1 - 1 + 1) with (nfree bl') in Hu by lia.
  clear Hu1.
  assert (HF' : forall x, isfree bl' x <->
            ((isfree bl x /\ x <> block) /\ x <> (block + sz)) \/ x = block).
  { intros x. split.
    - intros (sx & Hx). subst bl'. in_cases Hx.
      + pose proof (chain_in _ _ _ _ _ _ Hc1 Hx). left.
        repeat split; [exists sx; subst bl; in_solve|lia..].
      + right. reflexivity.
      + pose proof (chain_in _ _ _ _ _ _ Hc2 Hx). left.
        repeat split; [exists sx; subst bl; in_solve|lia..].
    - intros [(((sx & Hx) & Hne) & Hne')| ->].
      + subst bl. in_cases Hx; try congruence; exists sx; subst bl'; in_solve.
      + exists (sz + sn). subst bl'. in_solve. }
  assert (Hna' : no_adj bl').
  { intros x sx y sy Hx Hy E. subst bl'. in_cases Hx; in_cases Hy.
    - apply (Hna x sx y sy);
        [subst bl; in_solve|subst bl; in_solve|geo|geo|assumption].
    - assert (Hx' : In (x, sx, 0) bl) by (subst bl; in_solve).
      pose proof (Htags _ Hx') as (_ & _ & _ & Tx). consts.
      replace (x + sx - 8) with (block - 8) in Tx by lia. congruence.
    - geo.
    - geo.
    - geo.
    - apply (Hna (block + sz) sn y sy);
        [subst bl; in_solve|subst bl; in_solve|geo|geo|lia].
    - geo.
    - geo.
    - apply (Hna x sx y sy);
        [subst bl; in_solve|subst bl; in_solve|geo|geo|assumption]. }
  pose proof (fl_root _ _ _ _ _ _ Hfl (fl_root_nonempty _ _ _ _ _ _ Hfl (block + sz) Fn)) as HRt.
  assert (Hroot : freerootptr s = r).
  { destruct Hr as [->|(-> & _)]; [reflexivity|].
    exfalso. exact (fl_empty _ _ _ _ _ _ Hfl eq_refl (block + sz) Fn). }
  clear Hr.
  assert (Hlm : forall s0, same_tags bl s s0 ->
            layout_ok (set_block_size (block + (sz + sn) - 8) (sz + sn)
                         (set_block_size block (sz + sn) s0)) bl').
  { intros s0 Hs0. subst bl'.
    apply (layout_merge s0 l1 [] l2 block sz (block + sz) sn 0); [|lia..].
    cbn [app]. rewrite <- Hbl. exact (layout_ok_same_tags _ _ _ Hlo0 Hs0). }
  clear Hc1 Hc2.
  destruct (Z.eq_dec (block + sz) r) as [Epr|Hpr]; [rewrite <- Epr in *; clear Epr r|].
  all: pose proof (fl_next _ _ _ _ _ _ Hfl (block + sz) Fn) as HN.
  all: pose proof (fl_prev _ _ _ _ _ _ Hfl (block + sz) Fn) as HP.
  all: pose proof (fl_prev_rank _ _ _ _ _ _ Hfl Hnz (block + sz) Fn) as HPr.
  all: pose proof (fl_first _ _ _ _ _ _ Hfl (block + sz) Fn) as HF.
  all: pose proof (GET_NEXT_range s (block + sz)) as RN.
  all: pose proof (GET_PREV_range s (block + sz)) as RP.
  all: cbv beta in HRt, HN, HP.
  all: name (GET_NEXT s (block + sz)) as nn Hnn.
  all: name (GET_PREV s (block + sz)) as pn Hpn.
  all: cbv beta delta [coalesce]; consts.
  all: wp Hch.
  all: apply (HQ _ (fun x => if x =? block then 0
                   else (if rank (block + sz) <? rank x then rank x - 1 else rank x) + 1));
    [|autorewrite with meta; first [reflexivity|assumption] ..].
  all: simp_closed Hu.
  all: eapply heap_inv_intro;
    [ apply Hlm
    | exact Hu
    | intros x [Fx| ->]; [apply Hnz1; exact Fx|exact Hb0]
    | exact Hna'
    | autorewrite with meta; first [reflexivity|assumption]
    | exact HF'
    | ].
  all: try solve [ same_tags_tac ltac:(eassumption) ].
  all: try solve [ intros x [((Fx & Hxb) & Hxp)| ->]; links_tac Hch ].
Qed.

Lemma coalesce_case4_wp s l1 l2 p sp sz sn rank (Q : Z * state -> Prop) :
  coalesce_pre s (l1 ++ (p, sp, 0) :: (p + sp, sz, 0)
                     :: (p + sp + sz, sn, 0) :: l2) (p + sp) rank ->
  (forall s' rank',
     heap_inv s' (l1 ++ (p, sp + sz + sn, 0) :: l2) rank' ->
     freerootptr s' = p ->
     mem_brk s' = mem_brk s -> mem_max_addr s' = mem_max_addr s ->
     prologue s' = prologue s -> Q (p, s')) ->
  Q (coalesce (p + sp) s).
Proof.
  intros (Hlo & (r & Hr & Hfl) & Hna) HQ.
  remember (l1 ++ (p, sp, 0) :: (p + sp, sz, 0) :: (p + sp + sz, sn, 0) :: l2)
    as bl eqn:Hbl.
  remember (l1 ++ (p, sp + sz + sn, 0) :: l2) as bl' eqn:Hbl1.
  assert (Hin : In (p + sp, sz, 0) bl) by (subst bl; in_solve).
  assert (Hinp : In (p, sp, 0) bl) by (subst bl; in_solve).
  assert (Hinn : In (p + sp + sz, sn, 0) bl) by (subst bl; in_solve).
  assert (Hnz : forall x, isfree bl x /\ x <> p + sp -> x <> 0).
  { intros x (Fx & _). exact (isfree_nonnull _ _ Hlo x Fx). }
  pose proof Hlo as Hlo0.
  destruct Hlo as [Hb Hpro Hch Hepi Htags].
  pose proof (chain_in _ _ _ _ _ _ Hch Hin) as Hgeo.
  pose proof (chain_in _ _ _ _ _ _ Hch Hinp) as Hgeop.
  pose proof (chain_in _ _ _ _ _ _ Hch Hinn) as Hgeon.
  pose proof Hch as Hch0. rewrite Hbl in Hch0.
  apply chain_app in Hch0. destruct Hch0 as (m & Hc1 & Hc2).
  cbn [chain] in Hc2. destruct Hc2 as (Em & _ & _ & _ & _ & _ & Hc2). subst m.
  pose proof (Htags _ Hin) as (T1 & T2 & T3 & T4).
  pose proof (Htags _ Hinp) as (Tp1 & Tp2 & Tp3 & Tp4).
  pose proof (Htags _ Hinn) as (Tn1 & Tn2 & Tn3 & Tn4).
  consts.
  assert (Nb : node bl (p + sp)) by (eapply in_node; eassumption).
  assert (Np : node bl p) by (eapply in_node; eassumption).
  assert (Nn : node bl (p + sp + sz)) by (eapply in_node; eassumption).
  assert (Hn : forall v, isfree bl v -> node bl v) by apply isfree_node.
  pose proof (node_range _ _ Hlo0) as Hrg.
  assert (Fp : isfree bl p /\ p <> p + sp) by (split; [exists sp; assumption|lia]).
  assert (Fn : isfree bl (p + sp + sz) /\ p + sp + sz <> p + sp)
    by (split; [exists sn; assumption|lia]).
  assert (Hp0 : p <> 0) by lia.
  assert (Hnf : nfree bl' = nfree bl - 2).
  { subst bl bl'. rewrite !nfree_app. cbn [nfree]. change FREE with 0. cbn [Z.eqb]. lia. }
  assert (Hnf0 : 0 <= nfree bl - 1 - 1 - 1).
  { subst bl. rewrite nfree_app. cbn [nfree]. change FREE with 0. cbn [Z.eqb].
    pose proof (nfree_nonneg l1). pose proof (nfree_nonneg l2). lia. }
  pose proof (unlink_ok _ _ _ _ _ _ Hfl Hnz p Fp) as Hu1.
  assert (Hnz1 : forall x, (isfree bl x /\ x <> p + sp) /\ x <> p -> x <> NULL).
  { intros x (Fx & _). apply Hnz. assumption. }
  assert (Fn1 : (isfree bl (p + sp + sz) /\ p + sp + sz <> p + sp) /\
                p + sp + sz <> p) by (split; [assumption|lia]).
  pose proof (unlink_ok _ _ _ _ _ _ Hu1 Hnz1 (p + sp + sz) Fn1) as Hu2.
  assert (Hnz2 : forall x, ((isfree bl x /\ x <> p + sp) /\ x <> p) /\
                           x <> p + sp + sz -> x <> NULL).
  { intros x (Fx & _). apply Hnz1. assumption. }
  assert (Fp2 : ~ (((isfree bl p /\ p <> p + sp) /\ p <> p) /\ p <> p + sp + sz))
    by tauto.
  pose proof (push_ok _ _ _ _ _ _ Hu2 Hnz2 p Fp2 Hp0 Hnf0) as Hu.
  unfold push_N, push_P, push_rank, unlink_N, unlink_P, unlink_root, unlink_rank, fupd in Hu.
  consts.
  replace (nfree bl - 1 - 1 - 1 + 1) with (nfree bl') in Hu by lia.
  clear Hu1 Hu2.
  assert (HF' : forall x, isfree bl' x <->
            (((isfree bl x /\ x <> p + sp) /\ x <> p) /\ x <> p + sp + sz) \/ x = p).
  { intros x. split.
    - intros (sx & Hx). subst bl'. in_cases Hx.
      + pose proof (chain_in _ _ _ _ _ _ Hc1 Hx). left.
        repeat split; [exists sx; subst bl; in_solve|lia..].
      + right. reflexivity.
      + pose proof (chain_in _ _ _ _ _ _ Hc2 Hx). left.
        repeat split; [exists sx; subst bl; in_solve|lia..].
    - intros [((((sx & Hx) & Hne) & Hne') & Hne'')| ->].
      + subst bl. in_cases Hx; try congruence; exists sx; subst bl'; in_solve.
      + exists (sp + sz + sn). subst bl'. in_solve. }
  assert (Hna' : no_adj bl').
  { intros x sx y sy Hx Hy E. subst bl'. in_cases Hx; in_cases Hy.
    - apply (Hna x sx y sy);
        [subst bl; in_solve|subst bl; in_solve|geo|geo|assumption].
    - apply (Hna x sx p sp);
        [subst bl; in_solve|subst bl; in_solve|geo|geo|assumption].
    - geo.
    - geo.
    - geo.
    - apply (Hna (p + sp + sz) sn y sy);
        [subst bl; in_solve|subst bl; in_solve|geo|geo|lia].
    - geo.
    - geo.
    - apply (Hna x sx y sy);
        [subst bl; in_solve|subst bl; in_solve|geo|geo|assumption]. }
  pose proof (fl_root _ _ _ _ _ _ Hfl (fl_root_nonempty _ _ _ _ _ _ Hfl p Fp)) as HRt.
  assert (Hroot : freerootptr s = r).
  { destruct Hr as [->|(-> & _)]; [reflexivity|].
    exfalso. exact (fl_empty _ _ _ _ _ _ Hfl eq_refl p Fp). }
  clear Hr.
  assert (Tf : allocated s (p + sp - 8) = 0) by assumption.
  assert (Tfs : block_size s (p + sp - 8) = sp) by assumption.
  assert (Hlm : forall s0, same_tags bl s s0 ->
            layout_ok (set_block_size (p + (sp + sz + sn) - 8) (sp + sz + sn)
                         (set_block_size p (sp + sz + sn) s0)) bl').
  { intros s0 Hs0. subst bl'.
    apply (layout_merge s0 l1 [(p + sp, sz, 0)] l2 p sp (p + sp + sz) sn 0); [|lia..].
    cbn [app]. rewrite <- Hbl. exact (layout_ok_same_tags _ _ _ Hlo0 Hs0). }
  clear Hc1 Hc2.
  destruct (Z.eq_dec p r) as [Epr|Hpr]; [rewrite <- Epr in *; clear Epr r|].
  2: destruct (Z.eq_dec (p + sp + sz) r) as [Enr|Hnr];
       [rewrite <- Enr in *; clear Enr r|].
  1: pose proof (fl_root_next _ _ _ _ _ _ Hfl Hnz _ Fn ltac:(lia)) as Hsucc.
  2: pose proof (fl_root_next _ _ _ _ _ _ Hfl Hnz _ Fp ltac:(lia)) as Hsucc.
  3: pose proof I as Hsucc.
  all: cbv beta in Hsucc.
  all: pose proof (fl_next _ _ _ _ _ _ Hfl p Fp) as HN.
  all: pose proof (fl_prev _ _ _ _ _ _ Hfl p Fp) as HP.
  all: pose proof (fl_prev_rank _ _ _ _ _ _ Hfl Hnz p Fp) as HPr.
  all: pose proof (fl_first _ _ _ _ _ _ Hfl p Fp) as HF.
  all: pose proof (GET_NEXT_range s p) as RN.
  all: pose proof (GET_PREV_range s p) as RP.
  all: pose proof (fl_next _ _ _ _ _ _ Hfl _ Fn) as HNn.
  all: pose proof (fl_prev _ _ _ _ _ _ Hfl _ Fn) as HPn.
  all: pose proof (fl_prev_rank _ _ _ _ _ _ Hfl Hnz _ Fn) as HPrn.
  all: pose proof (fl_first _ _ _ _ _ _ Hfl _ Fn) as HFn.
  all: pose proof (GET_NEXT_range s (p + sp + sz)) as RNn.
  all: pose proof (GET_PREV_range s (p + sp + sz)) as RPn.
  all: cbv beta in HRt, HN, HP, HNn, HPn.
  all: name (GET_NEXT s p) as np Hnp.
  all: name (GET_PREV s p) as pp Hpp.
  all: name (GET_NEXT s (p + sp + sz)) as nn Hnn.
  all: name (GET_PREV s (p + sp + sz)) as pn Hpn.
  all: cbv beta delta [coalesce]; consts.
  all: wp Hch.
  all: simp_closed Hu.
  all: match type of Hu with fl_ok _ _ _ _ ?rk _ => apply (HQ _ rk) end;
    [|autorewrite with meta; first [reflexivity|assumption] ..].
  all: eapply heap_inv_intro;
    [ apply Hlm
    | exact Hu
    | intros x [Fx| ->]; [apply Hnz2; exact Fx|exact Hp0]
    | exact Hna'
    | autorewrite with meta; first [reflexivity|assumption]
    | exact HF'
    | ].
  all: try solve [ same_tags_tac ltac:(eassumption) ].
  all: intros x [(((Fx & Hxb) & Hxp) & Hxn)| ->]; links_tac Hch.
Qed.

(** * coalesce, all cases *)

Lemma flag_cases s p a : allocated s p = a -> a = 0 \/ a = 1.
Proof. intros <-. pose proof (allocated_range s p). lia. Qed.

Lemma coalesce_wp s l1 l2 block sz rank (Q : Z * state -> Prop) :
  coalesce_pre s (l1 ++ (block, sz, 0) :: l2) block rank ->
  (forall s' rank',
     heap_inv s' (fst (merged l1 block sz l2)) rank' ->
     freerootptr s' = snd (merged l1 block sz l2) ->
     mem_brk s' = mem_brk s -> mem_max_addr s' = mem_max_addr s ->
     prologue s' = prologue s -> Q (snd (merged l1 block sz l2), s')) ->
  Q (coalesce block s).
Proof.
  intros Hpre HQ.
  pose proof Hpre as (Hlo & _ & _).
  destruct Hlo as [Hb Hpro Hch Hepi Htags].
  pose proof Hch as Hch0.
  apply chain_app in Hch0. destruct Hch0 as (m & Hc1 & Hc2).
  cbn [chain] in Hc2. destruct Hc2 as (Em & Hsz & Hc2). subst m.
  consts.
  assert (Hprev : (l1 = [] /\ allocated s (block - 8) = 1) \/
     exists l p sp ap, l1 = l ++ [(p, sp, ap)] /\ block = p + sp /\
       allocated s (block - 8) = ap /\ (ap = 0 \/ ap = 1)).
  { destruct (snoc_cases _ l1) as [->|(l & [[p sp] ap] & ->)].
    - left. split; [reflexivity|]. cbn [chain] in Hc1. rewrite <- Hc1.
      replace (prologue s + 8 - 8) with (prologue s) by lia. apply Hpro.
    - right. exists l, p, sp, ap.
      pose proof (chain_last _ _ _ _ Hc1) as Hl. cbn beta iota in Hl.
      assert (Hin : In (p, sp, ap) ((l ++ [(p, sp, ap)]) ++ (block, sz, 0) :: l2))
        by in_solve.
      pose proof (Htags _ Hin) as (_ & _ & _ & T4). consts.
      rewrite Hl in T4.
      repeat split; [lia|assumption|exact (flag_cases _ _ _ T4)]. }
  assert (Hnext : (l2 = [] /\ allocated s (block + sz) = 1) \/
     exists n sn an l, l2 = (n, sn, an) :: l /\ n = block + sz /\
       allocated s (block + sz) = an /\ (an = 0 \/ an = 1)).
  { destruct l2 as [|[[n sn] an] l].
    - left. split; [reflexivity|]. cbn [chain] in Hc2. rewrite Hc2. apply Hepi.
    - right. exists n, sn, an, l. cbn [chain] in Hc2. destruct Hc2 as (En & _).
      assert (Hin : In (n, sn, an) (l1 ++ (block, sz, 0) :: (n, sn, an) :: l))
        by in_solve.
      pose proof (Htags _ Hin) as (_ & T2 & _). subst n.
      repeat split; [assumption|exact (flag_cases _ _ _ T2)]. }
  clear Hb Hpro Hch Hepi Htags Hc1 Hc2.
  unfold merged, absorb_next in HQ.
  destruct Hprev as [(-> & Hpa)|(l & p & sp & ap & -> & -> & Hpa & [->| ->])];
  destruct Hnext as [(-> & Hna)|(n & sn & an & l' & -> & -> & Hna & [->| ->])];
  rewrite ?absorb_prev_nil, ?absorb_prev_snoc in HQ;
  cbv delta [FREE] in HQ; cbn [Z.eqb fst snd] in HQ;
  rewrite ?absorb_prev_nil, ?absorb_prev_snoc in HQ;
  cbv delta [FREE] in HQ; cbn [Z.eqb fst snd] in HQ.
  - exact (coalesce_case1_wp _ _ _ _ _ _ _ Hpre Hpa Hna HQ).
  - exact (coalesce_case2_wp _ _ _ _ _ _ _ _ Hpre Hpa HQ).
  - exact (coalesce_case1_wp _ _ _ _ _ _ _ Hpre Hpa Hna HQ).
  - rewrite <- app_assoc in Hpre. cbn [app] in Hpre.
    exact (coalesce_case3_wp _ _ _ _ _ _ _ _ Hpre Hna HQ).
  - rewrite <- app_assoc in Hpre. cbn [app] in Hpre.
    rewrite Z.add_assoc in HQ.
    exact (coalesce_case4_wp _ _ _ _ _ _ _ _ _ Hpre HQ).
  - rewrite <- app_assoc in Hpre. cbn [app] in Hpre.
    exact (coalesce_case3_wp _ _ _ _ _ _ _ _ Hpre Hna HQ).
  - exact (coalesce_case1_wp _ _ _ _ _ _ _ Hpre Hpa Hna HQ).
  - exact (coalesce_case2_wp _ _ _ _ _ _ _ _ Hpre Hpa HQ).
  - exact (coalesce_case1_wp _ _ _ _ _ _ _ Hpre Hpa Hna HQ).
Qed.

(** * mm_free *)

(** The state in which [mm_free] calls [coalesce]. *)
Lemma free_tags_pre s l1 l2 block sz rank :
  heap_inv s (l1 ++ (block, sz, 1) :: l2) rank ->
  coalesce_pre (set_allocated (block + sz - 8) 0 (set_allocated block 0 s))
               (l1 ++ (block, sz, 0) :: l2) block rank.
Proof.
  intros (Hlo & Hfl & Hna).
  remember (l1 ++ (block, sz, 1) :: l2) as bl eqn:Hbl.
  remember (l1 ++ (block, sz, 0) :: l2) as bl' eqn:Hbl1.
  assert (Hin : In (block, sz, 1) bl) by (subst bl; in_solve).
  pose proof (isfree_nonnull _ _ Hlo) as Hnz.
  pose proof Hlo as Hlo0.
  destruct Hlo as [Hb Hpro Hch Hepi Htags].
  pose proof (chain_in _ _ _ _ _ _ Hch Hin) as Hgeo.
  pose proof Hch as Hch0. rewrite Hbl in Hch0.
  apply chain_app in Hch0. destruct Hch0 as (m & Hc1 & Hc2).
  cbn [chain] in Hc2. destruct Hc2 as (Em & _ & Hc2). subst m.
  pose proof (Htags _ Hin) as (T1 & T2 & T3 & T4).
  consts.
  assert (Nb : node bl block) by (eapply in_node; eassumption).
  assert (Hn : forall v, isfree bl v -> node bl v) by apply isfree_node.
  assert (HF' : forall x, isfree bl' x /\ x <> block <-> isfree bl x).
  { intros x. split.
    - intros ((sx & Hx) & Hne). subst bl'. in_cases Hx; try congruence;
        exists sx; subst bl; in_solve.
    - intros (sx & Hx). subst bl. in_cases Hx.
      + pose proof (chain_in _ _ _ _ _ _ Hc1 Hx).
        split; [exists sx; subst bl'; in_solve|lia].
      + pose proof (chain_in _ _ _ _ _ _ Hc2 Hx).
        split; [exists sx; subst bl'; in_solve|lia]. }
  assert (Hnf : nfree bl' - 1 = nfree bl).
  { subst bl bl'. rewrite !nfree_app. cbn [nfree]. change FREE with 0.
    cbn [Z.eqb]. lia. }
  assert (Hlt : layout_ok (set_allocated (block + sz - 8) 0 (set_allocated block 0 s)) bl').
  { subst bl bl'. apply (layout_flag s l1 l2 block sz 1 0); [assumption|lia]. }
  split; [exact Hlt|split].
  - exists (freerootptr s). split; [left; autorewrite with meta; reflexivity|].
    rewrite Hnf.
    apply (fl_ok_ext _ _ _ _ _ _ Hfl); [exact HF'|].
    intros x Fx. sat. repeat rd1r Hch. auto.
  - intros x sx y sy Hx Hy Hxb Hyb. apply (Hna x sx y sy).
    + subst bl bl'. in_cases Hx; try congruence; in_solve.
    + subst bl bl'. in_cases Hy; try congruence; in_solve.
Qed.

Lemma mm_free_wp s l1 l2 block sz rank (Q : state -> Prop) :
  heap_inv s (l1 ++ (block, sz, 1) :: l2) rank ->
  (forall s' rank',
     heap_inv s' (fst (merged l1 block sz l2)) rank' ->
     freerootptr s' = snd (merged l1 block sz l2) ->
     mem_brk s' = mem_brk s -> mem_max_addr s' = mem_max_addr s ->
     prologue s' = prologue s -> Q s') ->
  Q (mm_free (block + 8) s).
Proof.
  intros Hinv HQ.
  pose proof (free_tags_pre _ _ _ _ _ _ Hinv) as Hpre.
  destruct Hinv as (Hlo & _ & _).
  assert (Hin : In (block, sz, 1) (l1 ++ (block, sz, 1) :: l2)) by in_solve.
  destruct (lo_tags _ _ Hlo _ Hin) as (T1 & T2 & T3 & T4).
  pose proof (lo_chain _ _ Hlo) as Hch.
  cbv beta delta [mm_free]. consts.
  replace (block + 8 - 8) with block by lia.
  wp Hch.
  apply (coalesce_wp _ l1 l2 block sz rank (fun r => Q (snd r)) Hpre).
  intros s' rank' Hinv Hr H1 H2 H3. cbn [snd].
  autorewrite with meta in H1, H2, H3.
  apply (HQ s' rank'); assumption.
Qed.

(** * The break and the prologue pointer *)

Lemma brk_set_brk b s : mem_brk (set_brk b s) = b.
Proof. reflexivity. Qed.
Lemma max_set_brk b s : mem_max_addr (set_brk b s) = mem_max_addr s.
Proof. reflexivity. Qed.
Lemma prologue_set_brk b s : prologue (set_brk b s) = prologue s.
Proof. reflexivity. Qed.
Lemma root_set_brk b s : freerootptr (set_brk b s) = freerootptr s.
Proof. reflexivity. Qed.
Lemma next_set_brk b s x : GET_NEXT (set_brk b s) x = GET_NEXT s x.
Proof. reflexivity. Qed.
Lemma prev_set_brk b s x : GET_PREV (set_brk b s) x = GET_PREV s x.
Proof. reflexivity. Qed.
Lemma size_set_brk b s x : block_size (set_brk b s) x = block_size s x.
Proof. reflexivity. Qed.
Lemma alloc_set_brk b s x : allocated (set_brk b s) x = allocated s x.
Proof. reflexivity. Qed.

Lemma brk_set_prologue p s : mem_brk (set_prologue p s) = mem_brk s.
Proof. reflexivity. Qed.
Lemma max_set_prologue p s : mem_max_addr (set_prologue p s) = mem_max_addr s.
Proof. reflexivity. Qed.
Lemma prologue_set_prologue p s : prologue (set_prologue p s) = p.
Proof. reflexivity. Qed.
Lemma root_set_prologue p s : freerootptr (set_prologue p s) = freerootptr s.
Proof. reflexivity. Qed.
Lemma next_set_prologue p s x : GET_NEXT (set_prologue p s) x = GET_NEXT s x.
Proof. reflexivity. Qed.
Lemma prev_set_prologue p s x : GET_PREV (set_prologue p s) x = GET_PREV s x.
Proof. reflexivity. Qed.
Lemma size_set_prologue p s x : block_size (set_prologue p s) x = block_size s x.
Proof. reflexivity. Qed.
Lemma alloc_set_prologue p s x : allocated (set_prologue p s) x = allocated s x.
Proof. reflexivity. Qed.

#[export] Hint Rewrite
  brk_set_brk max_set_brk prologue_set_brk root_set_brk next_set_brk
  prev_set_brk size_set_brk alloc_set_brk
  brk_set_prologue max_set_prologue prologue_set_prologue root_set_prologue
  next_set_prologue prev_set_prologue size_set_prologue alloc_set_prologue
  : meta.

#[global] Opaque set_brk set_prologue.

(** * find_fit *)

Section FindFit.
Variables (s : state) (F : Z -> Prop) (rank : Z -> Z) (nf : Z) (asize : Z).
Hypothesis Hfl : fl_ok (GET_NEXT s) (GET_PREV s) (freerootptr s) F rank nf.
Hypothesis Hnz : forall x, F x -> x <> NULL.

Lemma fl_next_exists_aux n :
forall x y, F x -> F y -> rank y = rank x + 1 + Z.of_nat n ->
GET_NEXT s x <> NULL.
Proof.
induction n as [|n IH]; intros x y Fx Fy Hr.
- pose proof (fl_rank _ _ _ _ _ _ Hfl x Fx).
  assert (Py : GET_PREV s y <> NULL)
    by (apply (fl_prev_nonnull _ _ _ _ _ _ Hfl); [assumption|lia]).
  destruct (fl_prev _ _ _ _ _ _ Hfl y Fy Py) as (Fpy & Hny).
  pose proof (fl_prev_rank _ _ _ _ _ _ Hfl Hnz y Fy Py).
  assert (E : GET_PREV s y = x)
    by (apply (fl_rank_inj _ _ _ _ _ _ Hfl Hnz); [assumption..|lia]).
  rewrite <- E, Hny. apply Hnz. assumption.
- pose proof (fl_rank _ _ _ _ _ _ Hfl x Fx).
  assert (Py : GET_PREV s y <> NULL)
    by (apply (fl_prev_nonnull _ _ _ _ _ _ Hfl); [assumption|lia]).
  destruct (fl_prev _ _ _ _ _ _ Hfl y Fy Py) as (Fpy & Hny).
  pose proof (fl_prev_rank _ _ _ _ _ _ Hfl Hnz y Fy Py).
  apply (IH x (GET_PREV s y)); [assumption..|lia].
Qed.

(** A node that is not the last of the list has a successor. *)
Lemma fl_next_exists x y :
F x -> F y -> rank x < rank y -> GET_NEXT s x <> NULL.
Proof.
intros Fx Fy Hr.
apply (fl_next_exists_aux (Z.to_nat (rank y - rank x - 1)) x y); auto; lia.
Qed.

Lemma find_fit_from_ok fuel :
forall b k,
  (b <> NULL -> F b /\ rank b = k) ->
  (b = NULL -> forall x, F x -> rank x < k) ->
  0 <= k <= nf -> nf - k < Z.of_nat fuel ->
  exists r, find_fit_from fuel asize b s = Some r /\
    (r = NULL -> forall x, F x -> k <= rank x -> block_size s x < asize) /\
    (r <> NULL -> F r /\ asize <= block_size s r /\
       forall x, F x -> k <= rank x < rank r -> block_size s x < asize).
Proof.
induction fuel as [|fuel IH]; intros b k Hb Hb0 Hk Hf; [lia|].
cbn [find_fit_from].
destruct (Z.eqb_spec b NULL) as [E|E].
- exists NULL. split; [reflexivity|]. split; [|congruence].
  intros _ x Fx Hx. specialize (Hb0 E x Fx). lia.
- destruct (Hb E) as (Fb & Hrb).
  pose proof (fl_rank _ _ _ _ _ _ Hfl b Fb).
  destruct (Z.leb_spec asize (block_size s b)) as [Hfit|Hsmall].
  + exists b. split; [reflexivity|]. split; [congruence|].
    intros _. repeat split; [assumption..|]. intros x Fx Hx. lia.
  + destruct (IH (GET_NEXT s b) (k + 1)) as (r & Hr & HrN & HrF).
    * intros Hn. destruct (fl_next _ _ _ _ _ _ Hfl b Fb Hn) as (Fn & _ & Rn).
      split; [assumption|lia].
    * intros Hn x Fx.
      destruct (Z_lt_ge_dec (rank x) (k + 1)) as [?|Hge]; [assumption|].
      exfalso. apply (fl_next_exists b x Fb Fx); [lia|assumption].
    * lia.
    * lia.
    * exists r. split; [assumption|]. split.
      -- intros Er x Fx Hx.
         destruct (Z.eq_dec (rank x) k) as [Ek|Ek].
         ++ assert (x = b)
              by (apply (fl_rank_inj _ _ _ _ _ _ Hfl Hnz); [assumption..|lia]).
            subst x. assumption.
         ++ apply (HrN Er x Fx). lia.
      -- intros Er. destruct (HrF Er) as (Fr & Hsz & Hbefore).
         repeat split; [assumption..|]. intros x Fx Hx.
         destruct (Z.eq_dec (rank x) k) as [Ek|Ek].
         ++ assert (x = b)
              by (apply (fl_rank_inj _ _ _ _ _ _ Hfl Hnz); [assumption..|lia]).
            subst x. assumption.
         ++ apply (Hbefore x Fx). lia.
Qed.

(** With more fuel than the list has nodes, [find_fit] returns the first
  node, in list order, whose block is large enough, or NULL when no node
  is. *)
Lemma find_fit_ok fuel :
0 <= nf -> nf < Z.of_nat fuel ->
exists r, find_fit fuel asize s = Some r /\
  (r = NULL -> forall x, F x -> block_size s x < asize) /\
  (r <> NULL -> F r /\ asize <= block_size s r /\
     forall x, F x -> rank x < rank r -> block_size s x < asize).
Proof.
intros Hnf Hf. unfold find_fit.
destruct (find_fit_from_ok fuel (freerootptr s) 0) as (r & Hr & HrN & HrF).
- intros Hn. destruct (fl_root _ _ _ _ _ _ Hfl Hn) as (Fr & _ & R0). auto.
- intros Hn x Fx. exfalso. exact (fl_empty _ _ _ _ _ _ Hfl Hn x Fx).
- lia.
- lia.
- exists r. split; [assumption|]. split.
  + intros Er x Fx. apply (HrN Er x Fx).
    pose proof (fl_rank _ _ _ _ _ _ Hfl x Fx). lia.
  + intros Er. destruct (HrF Er) as (Fr & Hsz & Hbefore).
    repeat split; [assumption..|]. intros x Fx Hx. apply (Hbefore x Fx).
    pose proof (fl_rank _ _ _ _ _ _ Hfl x Fx). lia.
Qed.
End FindFit.

(** * extend_heap *)

(** Reads of tags through tag stores, the addresses compared by [lia]. *)
Ltac tagrd :=
  repeat first
  [ rewrite size_set_size by lia
  | rewrite size_set_alloc by lia
  | rewrite alloc_set_size by lia
  | rewrite alloc_set_alloc by lia
  | progress autorewrite with meta
  | rewrite Z.eqb_refl
  | rewrite eqb_false by lia ].

Lemma layout_extend s bl e size fa ne b' :
  layout_ok s bl -> e = mem_brk s - 8 -> fa = e + size - 8 -> ne = e + size ->
  b' = mem_brk s + size ->
  32 <= size -> mem_brk s + size <= mem_max_addr s ->
  layout_ok
    (set_block_size ne 0 (set_allocated ne 1
       (set_block_size fa size (set_allocated fa 0
          (set_block_size e size (set_allocated e 0 (set_brk b' s)))))))
    (bl ++ [(e, size, 0)]).
Proof.
  intros [Hb Hpro Hch Hepi Htags] He Hfa Hne Hb' Hsz Hroom.
  pose proof (chain_le _ _ _ Hch). consts.
  assert (Rs : 0 <= size < 2 ^ 31) by lia.
  split; consts; autorewrite with meta.
  - lia.
  - tagrd. assumption.
  - apply chain_app. exists e. split; [subst e; assumption|].
    cbn [chain]. unfold MIN_BLOCK_SIZE. repeat split; lia.
  - replace (b' - 8) with ne by lia. tagrd. split; reflexivity.
  - intros [[y sy] ay] Hin. cbn [tag_ok]. consts. in_cases Hin.
    + pose proof (chain_in _ _ _ _ _ _ Hch Hin).
      pose proof (Htags _ Hin) as Ty. cbn [tag_ok] in Ty. consts.
      tagrd. assumption.
    + replace (e + size - 8) with fa by lia. tagrd.
      rewrite !Z.mod_small by lia. repeat split; reflexivity.
Qed.

Lemma extend_size words :
  0 <= 8 * words < 2 ^ 32 -> wrap32 (wrap64 (Z.shiftl words 3)) = 8 * words.
Proof.
  intros H. unfold wrap32, wrap64. rewrite Z.shiftl_mul_pow2 by lia.
  change (2 ^ 3) with 8.
  rewrite (Z.mod_small (words * 8) (2 ^ 64)) by lia.
  rewrite Z.mod_small by lia. lia.
Qed.

Lemma extend_heap_wp s bl rank words (Q : Z * state -> Prop) :
  heap_inv s bl rank -> 32 <= 8 * words < 2 ^ 32 ->
  (mem_max_addr s < mem_brk s + 8 * words -> Q (NULL, s)) ->
  (forall s' rank',
     mem_brk s + 8 * words <= mem_max_addr s ->
     heap_inv s' (fst (merged bl (mem_brk s - 8) (8 * words) [])) rank' ->
     freerootptr s' = snd (merged bl (mem_brk s - 8) (8 * words) []) ->
     mem_brk s' = mem_brk s + 8 * words ->
     mem_max_addr s' = mem_max_addr s -> prologue s' = prologue s ->
     Q (snd (merged bl (mem_brk s - 8) (8 * words) []), s')) ->
  Q (extend_heap words s).
Proof.
  intros (Hlo & Hfl & Hna) Hw.
  remember (8 * words) as size eqn:Hsize.
  intros HQ0 HQ.
  pose proof (lo_chain _ _ Hlo) as Hch1.
  cbv beta delta [extend_heap]. rewrite extend_size by lia.
  rewrite <- Hsize.
  wp_let Hch1.
  rewrite (eqb_false size 0) by lia. cbv beta delta [mem_sbrk].
  destruct (Z.ltb_spec size 0) as [?|_]; [lia|].
  change (false || ?b) with b.
  destruct (Z.ltb_spec (mem_max_addr s) (mem_brk s + size)) as [Hfull|Hroom].
  { apply HQ0. assumption. }
  clear HQ0 Hch1.
  remember (mem_brk s - 8) as e eqn:He.
  remember (bl ++ [(e, size, 0)]) as bl' eqn:Hbl1.
  pose proof (isfree_nonnull _ _ Hlo) as Hnz.
  pose proof Hlo as Hlo0.
  destruct Hlo as [Hb Hpro Hch Hepi Htags].
  pose proof (chain_le _ _ _ Hch) as Hle.
  consts.
  assert (Hn : forall v, isfree bl v -> node bl v) by apply isfree_node.
  assert (Rs : 0 <= size < 2 ^ 31) by lia.
  assert (HF' : forall x, isfree bl' x /\ x <> e <-> isfree bl x).
  { intros x. split.
    - intros ((sx & Hx) & Hne). subst bl'. in_cases Hx; try congruence.
      exists sx. assumption.
    - intros (sx & Hx). pose proof (chain_in _ _ _ _ _ _ Hch Hx).
      split; [exists sx; subst bl'; in_solve|lia]. }
  assert (Hnf : nfree bl' - 1 = nfree bl).
  { subst bl'. rewrite !nfree_app. cbn [nfree]. change FREE with 0.
    cbn [Z.eqb]. lia. }
  assert (Hna1 : forall x sx y sy, In (x, sx, 0) bl' -> In (y, sy, 0) bl' ->
             x <> e -> y <> e -> y <> x + sx).
  { intros x sx y sy Hx Hy Hxb Hyb. apply (Hna x sx y sy).
    - subst bl'. in_cases Hx; try congruence; assumption.
    - subst bl'. in_cases Hy; try congruence; assumption. }
  assert (Ne : node bl' e) by (exists size, 0; subst bl'; in_solve).
  assert (Hlt : forall fa ne b', fa = e + size - 8 -> ne = e + size ->
            b' = mem_brk s + size ->
            layout_ok
              (set_block_size ne 0 (set_allocated ne 1
                 (set_block_size fa size (set_allocated fa 0
                    (set_block_size e size (set_allocated e 0 (set_brk b' s)))))))
              bl').
  { intros fa ne b' Hfa Hne Hb'. subst bl'.
    apply layout_extend; try assumption; lia. }
  cbv beta iota. consts. rewrite <- He.
  wp Hch.
  all: apply (coalesce_wp _ bl [] e size rank).
  all: subst bl'.
  all: try solve [ intros s' rank' Hinv Hr Eb Em Ep;
                   autorewrite with meta in Eb, Em, Ep;
                   apply (HQ s' rank' Hroom); assumption ].
  - split; [|split; [|exact Hna1]].
    + eapply (layout_ok_same_tags _ _ _
                (Hlt (e + size - 8) (e + size - 8 + 8) (mem_brk s + size)
                     eq_refl ltac:(lia) eq_refl)).
      same_tags_tac ltac:(exact Ne).
    + exists 0. split; [right; split; [reflexivity|autorewrite with meta; reflexivity]|].
      match goal with |- fl_ok _ _ _ _ _ ?n =>
        replace n with (nfree bl) by (symmetry; exact Hnf) end.
      rewrite C in Hfl.
      apply (fl_ok_ext _ _ _ _ _ _ Hfl); [exact HF'|].
      intros x Fx. exfalso. exact (fl_empty _ _ _ _ _ _ Hfl eq_refl x Fx).
  - split; [|split; [|exact Hna1]].
    + apply Hlt; lia.
    + exists (freerootptr s). split; [left; autorewrite with meta; reflexivity|].
      match goal with |- fl_ok _ _ _ _ _ ?n =>
        replace n with (nfree bl) by (symmetry; exact Hnf) end.
      apply (fl_ok_ext _ _ _ _ _ _ Hfl); [exact HF'|].
      intros x Fx. sat. repeat rd1r Hch. auto.
Qed.

(** * mm_init *)

Lemma mm_init_fail s0 :
  mem_max_addr s0 < mem_brk s0 + CHUNKSIZE ->
  mm_init s0 = (-1, set_prologue (2 ^ 64 - 1) s0).
Proof.
  intros H. unfold mm_init, mem_sbrk. change CHUNKSIZE with 65536 in *.
  destruct (Z.ltb_spec (mem_max_addr s0) (mem_brk s0 + 65536)); [|lia].
  reflexivity.
Qed.

Lemma mm_init_wp s0 (Q : Z * state -> Prop) :
  0 < mem_brk s0 -> mem_brk s0 + CHUNKSIZE <= mem_max_addr s0 ->
  mem_max_addr s0 - mem_brk s0 < 2 ^ 31 -> mem_max_addr s0 <= 2 ^ 64 ->
  (forall s,
     heap_inv s [(mem_brk s0 + 8, CHUNKSIZE - OVERHEAD, FREE)] (fun _ => 0) ->
     prologue s = mem_brk s0 -> mem_brk s = mem_brk s0 + CHUNKSIZE ->
     mem_max_addr s = mem_max_addr s0 -> freerootptr s = mem_brk s0 + 8 ->
     Q (0, s)) ->
  Q (mm_init s0).
Proof.
  intros Hpos Hroom Hsmall Hmax HQ.
  cbv beta delta [mm_init mem_sbrk]. change CHUNKSIZE with 65536 in *.
  cbv delta [OVERHEAD] in *. consts. change (65536 - (8 + 8)) with 65520 in *.
  destruct (Z.ltb_spec (mem_max_addr s0) (mem_brk s0 + 65536)); [lia|].
  change (65536 <? 0) with false. change (false || false) with false.
  cbv beta iota.
  remember (mem_brk s0) as p eqn:Hp.
  assert (Hch : chain (p + 8) [(p + 8, 65520, 0)] (p + 65536 - 8)).
  { cbn [chain]. unfold MIN_BLOCK_SIZE. repeat split; lia. }
  assert (Hin : In (p + 8, 65520, 0) [(p + 8, 65520, 0)]) by (left; reflexivity).
  assert (Nb : node [(p + 8, 65520, 0)] (p + 8)) by (eapply in_node; eassumption).
  wp Hch.
  apply HQ; [|autorewrite with meta; first [reflexivity|lia] ..].
  assert (Fb : forall x, isfree [(p + 8, 65520, 0)] x -> x = p + 8).
  { intros x (sx & [E|[]]). congruence. }
  split; [|split].
  - split; consts; autorewrite with meta.
    + lia.
    + rdg Hch. split; reflexivity.
    + exact Hch.
    + replace (p + 65536 - 8) with (p + 8 + 65520) by lia.
      rdg Hch. split; reflexivity.
    + intros b [<-|[]]. cbn [tag_ok]. consts. rdg Hch. repeat split; reflexivity.
  - autorewrite with meta. split; cbv beta; consts.
    + intros E. exfalso. lia.
    + intros _. split; [exists 65520; left; reflexivity|].
      rdg Hch. split; reflexivity.
    + intros x Fx Hn. exfalso. apply Hn. rewrite (Fb x Fx). rdg Hch. reflexivity.
    + intros x Fx Hn. exfalso. apply Hn. rewrite (Fb x Fx). rdg Hch. reflexivity.
    + intros x Fx _. exact (Fb x Fx).
    + intros x Fx. cbn [nfree]. change FREE with 0. cbn [Z.eqb]. lia.
  - intros x sx y sy [E1|[]] [E2|[]]. injection E1 as <- <-. injection E2 as <- _.
    lia.
Qed.

(** * The adjusted size *)

Lemma mod_mul8 k n : 0 < n -> (k * 8) mod (n * 8) = (k mod n) * 8.
Proof. intros Hn. apply Z.mul_mod_distr_r; lia. Qed.

Lemma adjust_size_shape size :
  exists k, adjust_size size = 8 * k /\ 4 <= k < 2 ^ 29.
Proof.
  unfold adjust_size, wrap32, wrap64. cbv zeta.
  rewrite Z.shiftr_div_pow2, Z.shiftl_mul_pow2 by lia.
  change (2 ^ 3) with 8.
  remember (((size + OVERHEAD) mod 2 ^ 64 + 7) mod 2 ^ 64 / 8) as k eqn:Hk.
  change (2 ^ 64) with (2 ^ 61 * 8). rewrite mod_mul8 by lia.
  change (2 ^ 32) with (2 ^ 29 * 8). rewrite mod_mul8 by lia.
  remember ((k mod 2 ^ 61) mod 2 ^ 29) as j eqn:Hj.
  assert (0 <= j < 2 ^ 29) by (subst j; apply Z.mod_pos_bound; lia).
  unfold MIN_BLOCK_SIZE.
  destruct (Z.ltb_spec (j * 8) 32).
  - exists 4. lia.
  - exists j. lia.
Qed.

Lemma adjust_size_range size : 32 <= adjust_size size < 2 ^ 32.
Proof. destruct (adjust_size_shape size) as (k & -> & Hk). lia. Qed.

(** For a request below the 32-bit ceiling the adjusted size is the request
    plus the overhead, rounded up to a multiple of 8 and raised to 32. *)
Lemma adjust_size_small size :
  0 <= size -> size + OVERHEAD + 7 < 2 ^ 32 ->
  adjust_size size = Z.max MIN_BLOCK_SIZE (8 * ((size + OVERHEAD + 7) / 8)).
Proof.
  unfold OVERHEAD, MIN_BLOCK_SIZE. consts. intros H0 H1.
  unfold adjust_size, wrap32, wrap64, OVERHEAD, MIN_BLOCK_SIZE. consts. cbv zeta.
  rewrite Z.shiftr_div_pow2, Z.shiftl_mul_pow2 by lia.
  change (2 ^ 3) with 8.
  rewrite (Z.mod_small (size + (8 + 8)) (2 ^ 64)) by lia.
  rewrite (Z.mod_small (size + (8 + 8) + 7) (2 ^ 64)) by lia.
  pose proof (Z.div_mod (size + (8 + 8) + 7) 8 ltac:(lia)).
  pose proof (Z.mod_pos_bound (size + (8 + 8) + 7) 8 ltac:(lia)).
  rewrite (Z.mod_small _ (2 ^ 64)) by lia.
  rewrite (Z.mod_small _ (2 ^ 32)) by lia.
  destruct (Z.ltb_spec ((size + (8 + 8) + 7) / 8 * 8) 32); lia.
Qed.

Lemma extend_amount_words asize :
  (exists k, asize = 8 * k /\ 4 <= k < 2 ^ 29) ->
  8 * Z.shiftr (extend_amount asize) 3 = extend_amount asize /\
  65536 <= extend_amount asize < 2 ^ 32 /\ asize <= extend_amount asize.
Proof.
  intros (k & -> & Hk). unfold extend_amount. change CHUNKSIZE with 65536.
  rewrite Z.shiftr_div_pow2 by lia. change (2 ^ 3) with 8.
  destruct (Z.ltb_spec 65536 (8 * k)).
  - rewrite (Z.mul_comm 8 k), Z.div_mul by lia. lia.
  - change (65536 / 8) with 8192. lia.
Qed.

(** * place, both branches *)

Lemma place_wp s l1 l2 rank block sz asize (Q : state -> Prop) :
  heap_inv s (l1 ++ (block, sz, 0) :: l2) rank -> 32 <= asize <= sz ->
  (forall s' rank',
     heap_inv s' (placed l1 block sz asize l2) rank' ->
     mem_brk s' = mem_brk s -> mem_max_addr s' = mem_max_addr s ->
     prologue s' = prologue s -> Q s') ->
  Q (place block asize s).
Proof.
  intros Hinv Hsz HQ. unfold placed, MIN_BLOCK_SIZE in HQ.
  destruct (Z.leb_spec 32 (sz - asize)).
  - apply (place_split_wp _ _ _ _ _ _ _ _ Hinv Hsz); assumption.
  - apply (place_consume_wp _ _ _ _ _ _ _ _ Hinv Hsz); assumption.
Qed.

Lemma merged_last bl a e e0 ext :
  chain a bl e0 -> 0 <= ext ->
  exists l1 b sz, merged bl e ext [] = (l1 ++ [(b, sz, FREE)], b) /\ ext <= sz.
Proof.
  intros Hch Hext. unfold merged, absorb_next.
  destruct (snoc_cases _ bl) as [->|(l & [[p sp] ap] & ->)].
  - rewrite absorb_prev_nil. exists [], e, ext. split; [reflexivity|lia].
  - rewrite absorb_prev_snoc.
    apply chain_app in Hch. destruct Hch as (m & _ & Hc).
    cbn [chain] in Hc. unfold MIN_BLOCK_SIZE in Hc.
    destruct (ap =? FREE).
    + exists l, p, (sp + ext). split; [reflexivity|lia].
    + exists (l ++ [(p, sp, ap)]), e, ext. split; [reflexivity|lia].
Qed.

(** * mm_malloc *)

Lemma mm_malloc_wp s bl rank fuel size (Q : outcome Z -> Prop) :
  heap_inv s bl rank -> size <> 0 -> nfree bl < Z.of_nat fuel ->
  (forall l1 b sz l2 s' rank',
     bl = l1 ++ (b, sz, FREE) :: l2 -> adjust_size size <= sz ->
     (forall x sx, In (x, sx, FREE) bl -> rank x < rank b ->
        sx < adjust_size size) ->
     heap_inv s' (placed l1 b sz (adjust_size size) l2) rank' ->
     mem_brk s' = mem_brk s -> mem_max_addr s' = mem_max_addr s ->
     prologue s' = prologue s ->
     Q (Returns (payload b) s')) ->
  ((forall x sx, In (x, sx, FREE) bl -> sx < adjust_size size) ->
   mem_max_addr s < mem_brk s + extend_amount (adjust_size size) ->
   Q (Returns NULL s)) ->
  (forall l1 b sz s' rank',
     (forall x sx, In (x, sx, FREE) bl -> sx < adjust_size size) ->
     mem_brk s + extend_amount (adjust_size size) <= mem_max_addr s ->
     merged bl (mem_brk s - 8) (extend_amount (adjust_size size)) [] =
       (l1 ++ [(b, sz, FREE)], b) ->
     heap_inv s' (placed l1 b sz (adjust_size size) []) rank' ->
     mem_brk s' = mem_brk s + extend_amount (adjust_size size) ->
     mem_max_addr s' = mem_max_addr s -> prologue s' = prologue s ->
     Q (Returns (payload b) s')) ->
  Q (mm_malloc fuel size s).
Proof.
  intros Hinv Hsz Hfuel HQfit HQfail HQgrow.
  pose proof (adjust_size_range size) as Hrange.
  pose proof (extend_amount_words _ (adjust_size_shape size)) as (Hw & Hext & Hle).
  remember (adjust_size size) as asize eqn:Hasize.
  pose proof Hinv as (Hlo & Hfl & Hna).
  pose proof (isfree_nonnull _ _ Hlo) as Hnz.
  pose proof (lo_chain _ _ Hlo) as Hch.
  pose proof (lo_tags _ _ Hlo) as Htags.
  cbv beta zeta delta [mm_malloc]. rewrite (eqb_false size 0) by assumption.
  rewrite <- Hasize.
  destruct (find_fit_ok s (isfree bl) rank (nfree bl) asize Hfl Hnz fuel
              (nfree_nonneg bl) Hfuel) as (r & Hr & HrN & HrF).
  rewrite Hr.
  destruct (Z.eqb_spec r NULL) as [Er|Er]; cbn [negb].
  - assert (Hno : forall x sx, In (x, sx, FREE) bl -> sx < asize).
    { intros x sx Hx. destruct (Htags _ Hx) as (<- & _).
      apply (HrN Er). eexists. eassumption. }
    fold (extend_amount asize).
    remember (extend_amount asize) as ext eqn:Hexteq.
    pattern (extend_heap (Z.shiftr ext 3) s).
    apply (extend_heap_wp s bl rank (Z.shiftr ext 3)); [assumption|lia|..];
      rewrite Hw.
    + intros Hfull. cbv beta iota. change (NULL =? NULL) with true. cbn [negb].
      apply HQfail; assumption.
    + intros s' rank' Hroom Hinv' Hroot Eb Em Ep.
      destruct (merged_last bl _ (mem_brk s - 8) _ ext Hch ltac:(lia))
        as (l1 & b & sz & Hm & Hsize).
      rewrite Hm in *. cbn [fst snd] in *.
      pose proof (isfree_nonnull _ _ (proj1 Hinv') b
                    ltac:(exists sz; in_solve)) as Hb0.
      rewrite (eqb_false b NULL) by assumption. cbn [negb].
      pattern (place b asize s').
      apply (place_wp s' l1 [] rank' b sz asize); [assumption|lia|].
      intros s'' rank'' Hinv'' Eb' Em' Ep'.
      apply (HQgrow l1 b sz s'' rank''); try assumption; congruence.
  - destruct (HrF Er) as ((sz & Hin) & Hfit & Hfirst).
    destruct (Htags _ Hin) as (Tsz & _).
    destruct (chain_split _ _ _ _ _ _ Hch Hin) as (l1 & l2 & Hbl & _).
    rewrite Tsz in Hfit.
    pattern (place r asize s).
    apply (place_wp s l1 l2 rank r sz asize); [rewrite Hbl in Hinv; exact Hinv|lia|].
    intros s' rank' Hinv' Eb Em Ep.
    apply (HQfit l1 r sz l2 s' rank'); try assumption.
    intros x sx Hx Hrk. destruct (Htags _ Hx) as (<- & _).
    apply Hfirst; [eexists; eassumption|assumption].
Qed.

(** * Writes into the payload of an allocated block *)

#[local] Transparent block_size allocated GET_NEXT GET_PREV.

Section PayloadWrite.
Variables (s : state) (lo hi : Z) (m' : Mem.mem).
Hypothesis Hframe : forall a, a < lo \/ hi <= a -> m' a = mem s a.

Lemma size_with_mem q :
q + 4 <= lo \/ hi <= q -> block_size (with_mem m' s) q = block_size s q.
Proof.
intros Hq. unfold block_size, with_mem. cbn [mem].
rewrite (MemFacts.load32_ext m' (mem s)); [reflexivity|].
intros x Hx. apply Hframe. lia.
Qed.

Lemma alloc_with_mem q :
q + 4 <= lo \/ hi <= q -> allocated (with_mem m' s) q = allocated s q.
Proof.
intros Hq. unfold allocated, with_mem. cbn [mem].
rewrite (MemFacts.load32_ext m' (mem s)); [reflexivity|].
intros x Hx. apply Hframe. lia.
Qed.

Lemma next_with_mem q :
q + 16 <= lo \/ hi <= q + 8 -> GET_NEXT (with_mem m' s) q = GET_NEXT s q.
Proof.
intros Hq. unfold GET_NEXT, with_mem. cbn [mem].
apply MemFacts.load64_ext. intros x Hx. apply Hframe. lia.
Qed.

Lemma prev_with_mem q :
q + 24 <= lo \/ hi <= q + 16 -> GET_PREV (with_mem m' s) q = GET_PREV s q.
Proof.
intros Hq. unfold GET_PREV, with_mem. cbn [mem].
apply MemFacts.load64_ext. intros x Hx. apply Hframe. lia.
Qed.
End PayloadWrite.

#[global] Opaque block_size allocated GET_NEXT GET_PREV.

(** The heap invariant does not depend on the payload bytes of an
    allocated block. *)
Lemma heap_inv_payload s bl rank b sb m' :
  heap_inv s bl rank -> In (b, sb, ALLOC) bl ->
  (forall a, a < b + 8 \/ b + sb - 8 <= a -> m' a = mem s a) ->
  heap_inv (with_mem m' s) bl rank.
Proof.
  intros (Hlo & Hfl & Hna) Hin Hframe.
  destruct Hlo as [Hb Hpro Hch Hepi Htags].
  pose proof (chain_in _ _ _ _ _ _ Hch Hin) as Hgeo. consts.
  split; [|split; [|assumption]].
  - split; consts.
    + exact Hb.
    + change (prologue (with_mem m' s)) with (prologue s).
      rewrite (size_with_mem s _ _ m' Hframe), (alloc_with_mem s _ _ m' Hframe)
        by lia. assumption.
    + exact Hch.
    + change (mem_brk (with_mem m' s)) with (mem_brk s).
      rewrite (size_with_mem s _ _ m' Hframe), (alloc_with_mem s _ _ m' Hframe)
        by lia. assumption.
    + intros [[x sx] ax] Hx. pose proof (Htags _ Hx) as Tx.
      cbn [tag_ok] in *. consts.
      pose proof (chain_in _ _ _ _ _ _ Hch Hx).
      pose proof (chain_disj _ _ _ _ _ _ _ _ _ Hch Hx Hin) as Hd.
      rewrite !(size_with_mem s _ _ m' Hframe), !(alloc_with_mem s _ _ m' Hframe)
        by lia. assumption.
  - change (freerootptr (with_mem m' s)) with (freerootptr s).
    apply (fl_ok_ext _ _ _ _ _ _ Hfl); [intros x; reflexivity|].
    intros x (sx & Hx).
    pose proof (chain_in _ _ _ _ _ _ Hch Hx).
    pose proof (chain_disj _ _ _ _ _ _ _ _ _ Hch Hx Hin) as Hd.
    unfold FREE, ALLOC in Hd.
    rewrite (next_with_mem s _ _ m' Hframe), (prev_with_mem s _ _ m' Hframe)
      by lia. auto.
Qed.

(** [memcpy] changes the destination range only. *)
Lemma memcpy_frame dst src n m a :
  a < dst \/ dst + n <= a -> Mem.memcpy dst src n m a = m a.
Proof.
  intros Ha. unfold Mem.memcpy.
  destruct (Z.leb_spec dst a); destruct (Z.ltb_spec a (dst + n));
    cbn [andb]; try reflexivity; lia.
Qed.


(** * The walkers *)

Lemma heap_walk_chain s bl :
  forall a e fuel,
    chain a bl e -> (forall b, In b bl -> tag_ok s b) -> block_size s e = 0 ->
    (length bl < fuel)%nat -> heap_walk fuel a s = Some bl.
Proof.
  induction bl as [|[[x sz] al] bl IH]; intros a e fuel Hch Htags He Hf;
    (destruct fuel as [|fuel]; [cbn [length] in Hf; lia|]);
    cbn [heap_walk]; cbv zeta.
  - cbn [chain] in Hch. subst a. rewrite He. reflexivity.
  - cbn [chain] in Hch. destruct Hch as (-> & Hsz & Hch).
    unfold MIN_BLOCK_SIZE in Hsz.
    destruct (Htags (a, sz, al)) as (T1 & T2 & _); [left; reflexivity|].
    rewrite T1, T2. rewrite (eqb_false sz 0) by lia.
    rewrite (IH (a + sz) e fuel); [reflexivity|assumption| |assumption|].
    + intros b Hb. apply Htags. right. assumption.
    + cbn [length] in Hf. lia.
Qed.

Lemma heap_blocks_layout s bl fuel :
  layout_ok s bl -> (length bl < fuel)%nat -> heap_blocks fuel s = Some bl.
Proof.
  intros [Hb (Hps & _) Hch (Hes & _) Htags] Hf. unfold heap_blocks.
  rewrite Hps. exact (heap_walk_chain s bl _ _ fuel Hch Htags Hes Hf).
Qed.

Lemma heap_walk_mono s fuel :
  forall a l k, heap_walk fuel a s = Some l -> heap_walk (fuel + k) a s = Some l.
Proof.
  induction fuel as [|fuel IH]; intros a l k H; [discriminate|].
  cbn [heap_walk Nat.add] in *. cbv zeta in *.
  destruct (block_size s a =? 0); [assumption|].
  destruct (heap_walk fuel (a + block_size s a) s) as [l'|] eqn:E; [|discriminate].
  rewrite (IH _ _ k E). assumption.
Qed.

Lemma heap_blocks_unique s f1 f2 l1 l2 :
  heap_blocks f1 s = Some l1 -> heap_blocks f2 s = Some l2 -> l1 = l2.
Proof.
  unfold heap_blocks. intros H1 H2.
  pose proof (heap_walk_mono s f1 _ _ f2 H1) as E1.
  pose proof (heap_walk_mono s f2 _ _ f1 H2) as E2.
  rewrite Nat.add_comm in E2. congruence.
Qed.

Section FreeWalk.
Variables (s : state) (F : Z -> Prop) (rank : Z -> Z) (nf : Z).
Hypothesis Hfl : fl_ok (GET_NEXT s) (GET_PREV s) (freerootptr s) F rank nf.
Hypothesis Hnz : forall x, F x -> x <> NULL.

Lemma free_walk_ok fuel :
forall b k,
  (b <> NULL -> F b /\ rank b = k) ->
  (b = NULL -> forall x, F x -> rank x < k) ->
  0 <= k <= nf -> nf - k < Z.of_nat fuel ->
  exists l, free_walk fuel b s = Some l /\ NoDup l /\
    forall x, In x l <-> F x /\ k <= rank x.
Proof.
induction fuel as [|fuel IH]; intros b k Hb Hb0 Hk Hf; [lia|].
cbn [free_walk].
destruct (Z.eqb_spec b NULL) as [E|E].
- exists []. split; [reflexivity|]. split; [constructor|].
  intros x. split; [intros []|]. intros (Fx & Hx).
  specialize (Hb0 E x Fx). lia.
- destruct (Hb E) as (Fb & Hrb).
  pose proof (fl_rank _ _ _ _ _ _ Hfl b Fb).
  destruct (IH (GET_NEXT s b) (k + 1)) as (l & Hl & Hnd & Hin).
  + intros Hn. destruct (fl_next _ _ _ _ _ _ Hfl b Fb Hn) as (Fn & _ & Rn).
    split; [assumption|lia].
  + intros Hn x Fx.
    destruct (Z_lt_ge_dec (rank x) (k + 1)) as [?|Hge]; [assumption|].
    exfalso. apply (fl_next_exists s F rank nf Hfl Hnz b x Fb Fx); [lia|assumption].
  + lia.
  + lia.
  + rewrite Hl. exists (b :: l). split; [reflexivity|]. split.
    * constructor; [|assumption]. intros Hbl. apply Hin in Hbl. lia.
    * intros x. cbn [In]. rewrite Hin. split.
      -- intros [<-|(Fx & Hx)]; split; try assumption; lia.
      -- intros (Fx & Hx).
         destruct (Z.eq_dec (rank x) k) as [Ek|Ek]; [|right; split; [assumption|lia]].
         left. apply (fl_rank_inj _ _ _ _ _ _ Hfl Hnz); [assumption..|lia].
Qed.

(** With enough fuel the walk of the free list ends, and it lists every
  node of the list exactly once. *)
Lemma free_list_ok fuel :
0 <= nf -> nf < Z.of_nat fuel ->
exists l, free_list fuel s = Some l /\ NoDup l /\ forall x, In x l <-> F x.
Proof.
intros Hnf Hf. unfold free_list.
destruct (free_walk_ok fuel (freerootptr s) 0) as (l & Hl & Hnd & Hin).
- intros Hn. destruct (fl_root _ _ _ _ _ _ Hfl Hn) as (Fr & _ & R0). auto.
- intros Hn x Fx. exfalso. exact (fl_empty _ _ _ _ _ _ Hfl Hn x Fx).
- lia.
- lia.
- exists l. split; [assumption|]. split; [assumption|].
  intros x. rewrite Hin. split; [tauto|]. intros Fx. split; [assumption|].
  pose proof (fl_rank _ _ _ _ _ _ Hfl x Fx). lia.
Qed.
End FreeWalk.

(** * More fuel does not change a result *)

Lemma find_fit_from_mono s asize fuel :
  forall b r k, find_fit_from fuel asize b s = Some r ->
                find_fit_from (fuel + k) asize b s = Some r.
Proof.
  induction fuel as [|fuel IH]; intros b r k H; [discriminate|].
  cbn [find_fit_from Nat.add] in *.
  destruct (b =? NULL); [assumption|].
  destruct (asize <=? block_size s b); [assumption|].
  apply IH. assumption.
Qed.

Lemma mm_malloc_mono s fuel size p s' k :
  mm_malloc fuel size s = Returns p s' ->
  mm_malloc (fuel + k) size s = Returns p s'.
Proof.
  cbv beta zeta delta [mm_malloc find_fit]. destruct (size =? 0); [auto|].
  destruct (find_fit_from fuel (adjust_size size) (freerootptr s) s) as [r|] eqn:E;
    [|discriminate].
  rewrite (find_fit_from_mono _ _ _ _ _ k E). auto.
Qed.

(** * What the layout functions keep *)

Lemma merged_keeps_alloc bl e ext x sx :
  In (x, sx, ALLOC) bl -> In (x, sx, ALLOC) (fst (merged bl e ext [])).
Proof.
  intros Hx. unfold merged, absorb_next.
  destruct (snoc_cases _ bl) as [E|(l & [[p sp] ap] & E)]; subst bl.
  { destruct Hx. }
  rewrite absorb_prev_snoc.
  destruct (Z.eqb_spec ap FREE) as [->|Hne]; cbn [fst].
  - in_cases Hx; in_solve.
  - apply in_or_app. left. exact Hx.
Qed.

Lemma merged_keeps l1 b sz l2 x sx :
  In (x, sx, ALLOC) (l1 ++ (b, sz, ALLOC) :: l2) -> x <> b ->
  In (x, sx, ALLOC) (fst (merged l1 b sz l2)).
Proof.
  intros Hx Hne. unfold merged, absorb_next.
  assert (H2 : In (x, sx, ALLOC) l1 \/ In (x, sx, ALLOC) l2).
  { in_cases Hx; auto. congruence. }
  clear Hx.
  destruct l2 as [|[[n sn] an] l2'];
    [|destruct (Z.eqb_spec an FREE) as [->|Han]];
  (destruct (snoc_cases _ l1) as [E|(l & [[q sq] aq] & E)]; subst l1;
   [rewrite absorb_prev_nil
   |rewrite absorb_prev_snoc; destruct (Z.eqb_spec aq FREE) as [->|Haq]]);
  cbn [fst]; rewrite ?in_app_iff in *; cbn [In] in *;
  intuition (try discriminate).
Qed.

Lemma placed_keeps_alloc l1 b sz asize l2 x sx :
  In (x, sx, ALLOC) (l1 ++ (b, sz, FREE) :: l2) ->
  In (x, sx, ALLOC) (placed l1 b sz asize l2).
Proof.
  intros Hx. unfold placed. destruct (MIN_BLOCK_SIZE <=? sz - asize);
    in_cases Hx; try discriminate; in_solve.
Qed.

Lemma placed_has l1 b sz asize l2 :
  asize <= sz ->
  exists sb, In (b, sb, ALLOC) (placed l1 b sz asize l2) /\ asize <= sb.
Proof.
  intros H. unfold placed. destruct (MIN_BLOCK_SIZE <=? sz - asize).
  - exists asize. split; [in_solve|lia].
  - exists sz. split; [in_solve|lia].
Qed.

(** * mm_malloc keeps the invariant *)

Lemma mm_malloc_inv s bl rank fuel size p s' :
  heap_inv s bl rank -> size <> 0 -> mm_malloc fuel size s = Returns p s' ->
  (p = NULL /\ s' = s) \/
  exists bl' rank' b sb,
    heap_inv s' bl' rank' /\ p = payload b /\ In (b, sb, ALLOC) bl' /\
    adjust_size size <= sb /\
    (forall x sx, In (x, sx, ALLOC) bl -> In (x, sx, ALLOC) bl') /\
    (forall sx, ~ In (b, sx, ALLOC) bl).
Proof.
  intros Hinv Hsz Hm.
  pose proof (mm_malloc_mono _ _ _ _ _ (S (Z.to_nat (nfree bl))) Hm) as Hm'.
  remember (fuel + S (Z.to_nat (nfree bl)))%nat as fuel' eqn:Hf.
  assert (Hfuel : nfree bl < Z.of_nat fuel').
  { pose proof (nfree_nonneg bl). lia. }
  clear Hm Hf. revert Hm'.
  pose proof Hinv as (Hlo & _ & _).
  pose proof (lo_chain _ _ Hlo) as Hch.
  apply (mm_malloc_wp s bl rank fuel' size); try assumption; cbv beta.
  - intros l1 b sz l2 s1 rank1 Hbl Hfit _ Hinv1 _ _ _ E.
    injection E as <- <-. right.
    destruct (placed_has l1 b sz (adjust_size size) l2 Hfit) as (sb & Hin & Hsb).
    exists (placed l1 b sz (adjust_size size) l2), rank1, b, sb.
    split; [exact Hinv1|]. split; [reflexivity|]. split; [exact Hin|].
    split; [exact Hsb|]. split.
    + intros x sx Hx. apply placed_keeps_alloc. rewrite <- Hbl. assumption.
    + intros sx Hx.
      assert (Hb : In (b, sz, FREE) bl) by (rewrite Hbl; in_solve).
      pose proof (chain_in _ _ _ _ _ _ Hch Hx).
      pose proof (chain_in _ _ _ _ _ _ Hch Hb).
      destruct (chain_disj _ _ _ _ _ _ _ _ _ Hch Hx Hb) as [(_ & _ & E)|D];
        [discriminate|lia].
  - intros _ _ E. injection E as <- <-. left. split; reflexivity.
  - intros l1 b sz s1 rank1 _ Hroom Hmg Hinv1 _ _ _ E.
    injection E as <- <-. right.
    destruct (merged_last bl _ (mem_brk s - 8) _
                (extend_amount (adjust_size size)) Hch) as (l1' & b' & sz' & Hmg' & Hsz').
    { unfold extend_amount. change CHUNKSIZE with 65536.
      pose proof (adjust_size_range size).
      destruct (65536 <? adjust_size size); lia. }
    rewrite Hmg in Hmg'. injection Hmg' as El <-.
    apply app_inj_tail in El. destruct El as (<- & E3).
    injection E3 as <-.
    pose proof (extend_amount_words _ (adjust_size_shape size)) as (_ & _ & Hle).
    destruct (placed_has l1 b sz (adjust_size size) [] ltac:(lia)) as (sb & Hin & Hsb).
    exists (placed l1 b sz (adjust_size size) []), rank1, b, sb.
    split; [exact Hinv1|]. split; [reflexivity|]. split; [exact Hin|].
    split; [exact Hsb|]. split.
    + intros x sx Hx. apply placed_keeps_alloc.
      pose proof (merged_keeps_alloc bl (mem_brk s - 8)
                    (extend_amount (adjust_size size)) x sx Hx) as Hk.
      rewrite Hmg in Hk. exact Hk.
    + intros sx Hx.
      pose proof (chain_in _ _ _ _ _ _ Hch Hx) as Hgx.
      unfold merged, absorb_next in Hmg.
      destruct (snoc_cases _ bl) as [E|(l & [[q sq] aq] & E)]; subst bl.
      { destruct Hx. }
      rewrite absorb_prev_snoc in Hmg.
      destruct (Z.eqb_spec aq FREE) as [->|Hne].
      * injection Hmg as El Eb. subst q.
        assert (Hb : In (b, sq, FREE) (l ++ [(b, sq, FREE)])) by in_solve.
        destruct (chain_disj _ _ _ _ _ _ _ _ _ Hch Hx Hb) as [(_ & _ & E)|D];
          [discriminate|].
        pose proof (chain_in _ _ _ _ _ _ Hch Hb). lia.
      * injection Hmg as El Eb. consts. lia.
Qed.

Lemma mm_malloc_zero fuel s : mm_malloc fuel 0 s = Returns NULL s.
Proof. reflexivity. Qed.

(** * mm_free and mm_realloc keep the invariant *)

Lemma mm_free_inv s bl rank p sz :
  heap_inv s bl rank -> In (p - 8, sz, ALLOC) bl ->
  exists l1 l2 rank',
    bl = l1 ++ (p - 8, sz, ALLOC) :: l2 /\
    heap_inv (mm_free p s) (fst (merged l1 (p - 8) sz l2)) rank' /\
    freerootptr (mm_free p s) = snd (merged l1 (p - 8) sz l2) /\
    mem_brk (mm_free p s) = mem_brk s /\
    mem_max_addr (mm_free p s) = mem_max_addr s /\
    prologue (mm_free p s) = prologue s.
Proof.
  intros Hinv Hin.
  pose proof Hinv as (Hlo & _ & _).
  destruct (chain_split _ _ _ _ _ _ (lo_chain _ _ Hlo) Hin) as (l1 & l2 & Hbl & _).
  exists l1, l2. rewrite Hbl in Hinv.
  pattern (mm_free p s).
  replace (mm_free p s) with (mm_free (p - 8 + 8) s) by (f_equal; lia).
  apply (mm_free_wp s l1 l2 (p - 8) sz rank); [exact Hinv|].
  intros s' rank' Hinv' Hr Eb Em Ep. exists rank'. auto 8.
Qed.

Lemma mm_realloc_inv s bl rank fuel p size q s' sz :
  heap_inv s bl rank -> In (p - 8, sz, ALLOC) bl ->
  0 <= size -> size + OVERHEAD + 7 < 2 ^ 32 ->
  mm_realloc fuel p size s = Returns q s' ->
  exists bl' rank' sb,
    heap_inv s' bl' rank' /\ In (q - 8, sb, ALLOC) bl' /\ q <> p /\
    (forall x sx, In (x, sx, ALLOC) bl -> x <> p - 8 -> In (x, sx, ALLOC) bl').
Proof.
  intros Hinv Hin Hs0 Hs1. cbv beta zeta delta [mm_realloc].
  destruct (mm_malloc fuel size s) as [newp s1| |] eqn:Hm; try discriminate.
  destruct (Z.eqb_spec newp NULL) as [|Hnn]; [discriminate|].
  intros E. injection E as <- <-.
  assert (Hsz : size <> 0).
  { intros ->. rewrite mm_malloc_zero in Hm. injection Hm as <- _.
    apply Hnn. reflexivity. }
  destruct (mm_malloc_inv _ _ _ _ _ _ _ Hinv Hsz Hm)
    as [(-> & _)|(bl1 & rank1 & b & sb & Hinv1 & -> & Hb & Hfit & Hkeep & Hfresh)];
    [exfalso; apply Hnn; reflexivity|].
  pose proof (Hkeep _ _ Hin) as Hin1.
  rewrite (adjust_size_small size Hs0 Hs1) in Hfit.
  unfold OVERHEAD, MIN_BLOCK_SIZE, payload in *. consts.
  pose proof (Z.div_mod (size + (8 + 8) + 7) 8 ltac:(lia)).
  pose proof (Z.mod_pos_bound (size + (8 + 8) + 7) 8 ltac:(lia)).
  pose proof (block_size_range s1 (p - 8)) as Hbs.
  remember (if size <? block_size s1 (p - 8) then size
            else block_size s1 (p - 8)) as copy eqn:Hcopy.
  assert (Hc : copy <= size).
  { subst copy. destruct (Z.ltb_spec size (block_size s1 (p - 8))); lia. }
  assert (Hinv2 : heap_inv (with_mem (Mem.memcpy (b + 8) p copy (mem s1)) s1)
                           bl1 rank1).
  { apply (heap_inv_payload s1 bl1 rank1 b sb); [assumption..|].
    intros a Ha. apply memcpy_frame. lia. }
  destruct (mm_free_inv _ _ _ p sz Hinv2 Hin1)
    as (l1 & l2 & rank' & Hbl1 & Hinv' & _).
  assert (Hbp : b <> p - 8).
  { intros Eb. apply (Hfresh sz). rewrite Eb. exact Hin. }
  assert (Hk : forall x sx, In (x, sx, ALLOC) bl1 -> x <> p - 8 ->
             In (x, sx, ALLOC) (fst (merged l1 (p - 8) sz l2))).
  { intros x sx Hx Hne. rewrite Hbl1 in Hx. apply merged_keeps; assumption. }
  exists (fst (merged l1 (p - 8) sz l2)), rank', sb.
  replace (b + 8 - 8) with b by lia.
  split; [exact Hinv'|]. split; [apply Hk; assumption|].
  split; [lia|]. intros x sx Hx Hne. apply Hk; [apply Hkeep; assumption|assumption].
Qed.

(** * The fresh heap *)

Lemma fresh_heap s0 s :
  arena_ok s0 -> mm_init s0 = (0, s) ->
  heap_inv s [(mem_brk s0 + 8, CHUNKSIZE - OVERHEAD, FREE)] (fun _ => 0) /\
  prologue s = mem_brk s0 /\ mem_brk s = mem_brk s0 + CHUNKSIZE /\
  mem_max_addr s = mem_max_addr s0 /\ freerootptr s = mem_brk s0 + 8.
Proof.
  intros (Hpos & Hsmall & Hmax) Hinit.
  destruct (Z_lt_le_dec (mem_max_addr s0) (mem_brk s0 + CHUNKSIZE)) as [Hfull|Hroom].
  { rewrite (mm_init_fail s0 Hfull) in Hinit. discriminate. }
  revert Hinit. apply (mm_init_wp s0); try assumption.
  intros s1 Hinv Hp Hb Hm Hr E. injection E as <-. auto.
Qed.

(** * What an observer of a well-formed heap sees *)

Lemma heap_inv_observe s bl rank fuel :
  heap_inv s bl rank -> (length bl < fuel)%nat -> nfree bl < Z.of_nat fuel ->
  heap_blocks fuel s = Some bl /\
  exists fl, free_list fuel s = Some fl /\ NoDup fl /\
             forall x, In x fl <-> isfree bl x.
Proof.
  intros (Hlo & Hfl & Hna) Hlen Hnf. split.
  - apply heap_blocks_layout; assumption.
  - apply (free_list_ok s (isfree bl) rank (nfree bl) Hfl
             (isfree_nonnull _ _ Hlo) fuel (nfree_nonneg bl) Hnf).
Qed.

Lemma heap_inv_tags s bl rank b sz a :
  heap_inv s bl rank -> In (b, sz, a) bl -> tags_agree s b.
Proof.
  intros (Hlo & _) Hin. destruct (lo_tags _ _ Hlo _ Hin) as (T1 & T2 & T3 & T4).
  unfold tags_agree, get_footer. rewrite T1. split; congruence.
Qed.

Lemma live_in s bl rank p :
  heap_inv s bl rank -> live s p -> exists sz, In (p - 8, sz, ALLOC) bl.
Proof.
  intros Hinv (fuel & bl0 & sz & Hwalk & Hin).
  pose proof (heap_blocks_layout s bl (S (length bl)) (proj1 Hinv) ltac:(lia)) as Hw.
  rewrite (heap_blocks_unique _ _ _ _ _ Hwalk Hw) in Hin.
  exists sz. exact Hin.
Qed.

(** A store of the client into the payload of an allocated block. *)
Lemma client_write_inv s bl rank p sz a v :
  heap_inv s bl rank -> In (p - 8, sz, ALLOC) bl ->
  p <= a < p + block_size s (p - sizeof_header_t) - OVERHEAD ->
  heap_inv (with_mem (Mem.upd (mem s) a v) s) bl rank.
Proof.
  intros Hinv Hin Ha.
  destruct (lo_tags _ _ (proj1 Hinv) _ Hin) as (T1 & _).
  unfold OVERHEAD, sizeof_header_t, sizeof_footer_t in Ha. rewrite T1 in Ha.
  apply (heap_inv_payload s bl rank (p - 8) sz); [assumption..|].
  intros x Hx. unfold Mem.upd. destruct (Z.eqb_spec x a); [lia|reflexivity].
Qed.

(** * Every reachable state is well formed *)

Lemma reachable_inv s : reachable s -> exists bl rank, heap_inv s bl rank.
Proof.
  induction 1 as [s0 s Ha Hi|s fuel size p s' _ (bl & rank & Hinv) Hm
                 |s p _ (bl & rank & Hinv) Hl
                 |s p a v _ (bl & rank & Hinv) Hl Ha
                 |s fuel p size q s' _ (bl & rank & Hinv) Hl Hs1 Hs0 Hr].
  - destruct (fresh_heap s0 s Ha Hi) as (Hinv & _). eauto.
  - destruct (Z.eq_dec size 0) as [->|Hsz].
    + rewrite mm_malloc_zero in Hm. injection Hm as _ <-. eauto.
    + destruct (mm_malloc_inv _ _ _ _ _ _ _ Hinv Hsz Hm)
        as [(_ & ->)|(bl' & rank' & _ & _ & Hinv' & _)]; eauto.
  - destruct (live_in _ _ _ _ Hinv Hl) as (sz & Hin).
    destruct (mm_free_inv _ _ _ _ _ Hinv Hin) as (l1 & l2 & rank' & _ & Hinv' & _).
    eauto.
  - destruct (live_in _ _ _ _ Hinv Hl) as (sz & Hin).
    exists bl, rank. exact (client_write_inv _ _ _ _ _ _ _ Hinv Hin Ha).
  - destruct (live_in _ _ _ _ Hinv Hl) as (sz & Hin).
    destruct (mm_realloc_inv _ _ _ _ _ _ _ _ _ Hinv Hin Hs0 Hs1 Hr)
      as (bl' & rank' & _ & Hinv' & _).
    eauto.
Qed.

(** * The merged block *)

Lemma merged_span a l1 b sz l2 e :
  chain a (l1 ++ (b, sz, FREE) :: l2) e ->
  exists szm,
    In (snd (merged l1 b sz l2), szm, FREE) (fst (merged l1 b sz l2)) /\
    snd (merged l1 b sz l2) <= b /\
    b + sz <= snd (merged l1 b sz l2) + szm.
Proof.
  intros Hch. apply chain_app in Hch. destruct Hch as (m & Hc1 & Hc2).
  cbn [chain] in Hc2. destruct Hc2 as (-> & Hsz & Hc2).
  unfold MIN_BLOCK_SIZE in *. unfold merged, absorb_next.
  assert (H1 : l1 = [] \/ exists l q sq aq, l1 = l ++ [(q, sq, aq)] /\
                 q + sq = m /\ 32 <= sq).
  { destruct (snoc_cases _ l1) as [E|(l & [[q sq] aq] & E)]; [auto|right].
    subst l1. exists l, q, sq, aq. split; [reflexivity|].
    pose proof (chain_last _ _ _ _ Hc1) as Hl. cbn beta iota in Hl.
    apply chain_app in Hc1. destruct Hc1 as (m' & _ & Hq).
    cbn [chain] in Hq. unfold MIN_BLOCK_SIZE in Hq. lia. }
  destruct l2 as [|[[n sn] an] l2'];
    [|cbn [chain] in Hc2; unfold MIN_BLOCK_SIZE in Hc2;
      destruct (Z.eqb_spec an FREE) as [->|Han]];
  (destruct H1 as [->|(l & q & sq & aq & -> & Hq & Hsq)];
   [rewrite absorb_prev_nil
   |rewrite absorb_prev_snoc; destruct (Z.eqb_spec aq FREE) as [->|Haq]]);
  cbn [fst snd]; eexists; (split; [in_solve|lia]).
Qed.

(** * Growth *)

Lemma extend_amount_max asize : extend_amount asize = Z.max asize CHUNKSIZE.
Proof.
  unfold extend_amount. destruct (Z.ltb_spec CHUNKSIZE asize); lia.
Qed.

Lemma mem_sbrk_none n s :
  0 <= n -> (mem_sbrk n s = None <-> mem_max_addr s < mem_brk s + n).
Proof.
  intros Hn. unfold mem_sbrk.
  destruct (Z.ltb_spec n 0); [lia|]. cbn [orb].
  destruct (Z.ltb_spec (mem_max_addr s) (mem_brk s + n)); split;
    (reflexivity || lia || discriminate || auto).
Qed.

Lemma extend_heap_fail words s :
  0 <= 8 * words < 2 ^ 32 -> mem_sbrk (8 * words) s = None ->
  extend_heap words s = (NULL, s).
Proof.
  intros Hw Hs. cbv beta zeta delta [extend_heap].
  rewrite extend_size by assumption. rewrite Hs.
  destruct (8 * words =? 0); reflexivity.
Qed.

(** * The first request on a fresh heap *)

Lemma adjust_size_16 : adjust_size 16 = 32.
Proof. reflexivity. Qed.

Lemma fresh_malloc16_inv s0 s fuel :
  arena_ok s0 -> mm_init s0 = (0, s) -> (1 < fuel)%nat ->
  exists s' rank',
    mm_malloc fuel 16 s = Returns (mem_brk s0 + 16) s' /\
    heap_inv s' [(mem_brk s0 + 8, 32, ALLOC);
                 (mem_brk s0 + 8 + 32, CHUNKSIZE - OVERHEAD - 32, FREE)] rank'.
Proof.
  intros Ha Hi Hf.
  destruct (fresh_heap s0 s Ha Hi) as (Hinv & _).
  pattern (mm_malloc fuel 16 s).
  apply (mm_malloc_wp s _ _ fuel 16 _ Hinv); [lia| | | |]; cbv beta;
    rewrite ?adjust_size_16.
  - cbn [nfree]. change FREE with 0. cbn [Z.eqb]. lia.
  - intros l1 b sz l2 s' rank' Hbl _ _ Hinv' _ _ _.
    destruct l1 as [|x l1]; [|destruct l1; discriminate Hbl].
    injection Hbl as <- <- <-.
    exists s', rank'. split; [|exact Hinv'].
    unfold payload, sizeof_header_t. f_equal. lia.
  - intros Hno _. exfalso.
    specialize (Hno _ _ (or_introl eq_refl)). vm_compute in Hno. discriminate.
  - intros l1 b sz s' rank' Hno. exfalso.
    specialize (Hno _ _ (or_introl eq_refl)). vm_compute in Hno. discriminate.
Qed.

(** * The example heaps are well formed *)

Ltac each_free :=
  let x := fresh "x" in let sz := fresh "sz" in let H := fresh "H" in
  intros x (sz & H); cbn [In] in H;
  repeat (destruct H as [H|H]; [try discriminate H; injection H as <- <-|]);
  try destruct H.

Lemma heap5ad_inv : heap_inv heap5ad layout5ad rank5ad.
Proof.
  split; [|split].
  - split.
    + vm_compute. repeat split; congruence.
    + vm_compute. split; reflexivity.
    + vm_compute. repeat split; congruence.
    + vm_compute. split; reflexivity.
    + intros b Hb. cbn [In layout5ad] in Hb.
      repeat (destruct Hb as [<-|Hb]; [vm_compute; repeat split; reflexivity|]).
      destruct Hb.
  - split.
    + vm_compute. discriminate.
    + intros _. split; [exists 32; vm_compute; auto 8|vm_compute; split; reflexivity].
    + each_free; vm_compute; intros Hn; try (exfalso; apply Hn; reflexivity);
        (split; [eexists; cbn [In]; eauto 8|split; reflexivity]).
    + each_free; vm_compute; intros Hn; try (exfalso; apply Hn; reflexivity);
        (split; [eexists; cbn [In]; eauto 8|reflexivity]).
    + each_free; vm_compute; intros Hn; try reflexivity; discriminate Hn.
    + each_free; vm_compute; split; congruence.
  - intros x sx y sy Hx Hy. cbn [In layout5ad] in Hx, Hy.
    repeat (destruct Hx as [Hx|Hx]; [try discriminate Hx; injection Hx as <- <-|]);
    try destruct Hx;
    repeat (destruct Hy as [Hy|Hy]; [try discriminate Hy; injection Hy as <- <-|]);
    try destruct Hy; lia.
Qed.

Lemma arena0_ok : arena_ok arena0.
Proof. vm_compute. repeat split; congruence. Qed.

Lemma heap0_init : mm_init arena0 = (0, heap0).
Proof.
  unfold heap0.
  assert (H : fst (mm_init arena0) = 0) by (vm_compute; reflexivity).
  destruct (mm_init arena0) as [r s]. cbn [fst snd] in *. subst r. reflexivity.
Qed.

Lemma arena_small_ok : arena_ok arena_small.
Proof. vm_compute. repeat split; congruence. Qed.

Lemma heap_small_init : mm_init arena_small = (0, heap_small).
Proof.
  unfold heap_small.
  assert (H : fst (mm_init arena_small) = 0) by (vm_compute; reflexivity).
  destruct (mm_init arena_small) as [r s]. cbn [fst snd] in *. subst r.
  reflexivity.
Qed.

(** * Outcomes *)

Lemma outcome_eta (o : outcome Z) s :
  is_returns o = true -> o = Returns (result o) (after o s).
Proof. destruct o; cbn; intros H; [reflexivity|discriminate..]. Qed.

(** * The example heaps are reachable *)

Ltac pick_in := cbn [In]; repeat first [ left; reflexivity | right ].

Ltac by_malloc s0 R :=
  apply (reach_malloc s0 8 16 (result (mm_malloc 8 16 s0))
           (after (mm_malloc 8 16 s0) s0) R);
  apply (outcome_eta (mm_malloc 8 16 s0) s0); vm_compute; reflexivity.

Lemma heap0_inv : heap_inv heap0 [(4104, 65520, 0)] (fun _ => 0).
Proof. exact (proj1 (fresh_heap arena0 heap0 arena0_ok heap0_init)). Qed.

Lemma heap0_reachable : reachable heap0.
Proof. exact (reach_init arena0 heap0 arena0_ok heap0_init). Qed.

Lemma heap1_reachable : reachable heap1.
Proof. by_malloc heap0 heap0_reachable. Qed.

Lemma heap2_reachable : reachable heap2.
Proof. by_malloc heap1 heap1_reachable. Qed.

Lemma heap3_reachable : reachable heap3.
Proof. by_malloc heap2 heap2_reachable. Qed.

Lemma heap4_reachable : reachable heap4.
Proof. by_malloc heap3 heap3_reachable. Qed.

Lemma heap5_reachable : reachable heap5.
Proof. by_malloc heap4 heap4_reachable. Qed.

Lemma heap1_live1 : live heap1 4112.
Proof. eexists 8%nat, _, 32. split; [vm_compute; reflexivity|pick_in]. Qed.

Lemma heap2_live1 : live heap2 4112.
Proof. eexists 8%nat, _, 32. split; [vm_compute; reflexivity|pick_in]. Qed.

Lemma heap2_live2 : live heap2 4144.
Proof. eexists 8%nat, _, 32. split; [vm_compute; reflexivity|pick_in]. Qed.

Lemma heap5a_reachable : reachable heap5a.
Proof.
  apply (reach_free heap5 4112 heap5_reachable).
  eexists 8%nat, _, 32. split; [vm_compute; reflexivity|pick_in].
Qed.

Lemma heap5ad_reachable : reachable heap5ad.
Proof.
  apply (reach_free heap5a 4208 heap5a_reachable).
  eexists 8%nat, _, 32. split; [vm_compute; reflexivity|pick_in].
Qed.

Lemma heap5ad_live : live heap5ad 4144.
Proof. eexists 8%nat, _, 32. split; [vm_compute; reflexivity|pick_in]. Qed.

Lemma heap5w_reachable : reachable heap5w.
Proof.
  apply (reach_write heap5ad 4144 4150 65 heap5ad_reachable heap5ad_live).
  replace (block_size heap5ad (4144 - sizeof_header_t)) with 32
    by (vm_compute; reflexivity).
  unfold OVERHEAD, sizeof_header_t, sizeof_footer_t. lia.
Qed.

Lemma heap5r_reachable : reachable heap5r.
Proof.
  apply (reach_realloc heap5w 8 4144 40 (result (mm_realloc 8 4144 40 heap5w))
           heap5r heap5w_reachable).
  - eexists 8%nat, _, 32. split; [vm_compute; reflexivity|pick_in].
  - unfold OVERHEAD, sizeof_header_t, sizeof_footer_t. lia.
  - lia.
  - apply (outcome_eta (mm_realloc 8 4144 40 heap5w) heap5w).
    vm_compute. reflexivity.
Qed.

(** * Alignment of the blocks *)

Lemma mod8_add a b : a mod 8 = 0 -> b mod 8 = 0 -> (a + b) mod 8 = 0.
Proof. intros Ha Hb. rewrite Z.add_mod, Ha, Hb by lia. reflexivity. Qed.

Lemma mod8_sub a b : a mod 8 = 0 -> b mod 8 = 0 -> (a - b) mod 8 = 0.
Proof. intros Ha Hb. rewrite Zminus_mod, Ha, Hb. reflexivity. Qed.

Lemma sizes8_app l1 l2 : sizes8 (l1 ++ l2) <-> sizes8 l1 /\ sizes8 l2.
Proof.
  unfold sizes8. split.
  - intros H. split; intros x sz a Hin; apply (H x sz a), in_or_app; auto.
  - intros (H1 & H2) x sz a Hin. apply in_app_or in Hin.
    destruct Hin; [eapply H1|eapply H2]; eassumption.
Qed.

Lemma sizes8_cons x sz a l : sizes8 ((x, sz, a) :: l) <-> sz mod 8 = 0 /\ sizes8 l.
Proof.
  unfold sizes8. split.
  - intros H. split; [apply (H x sz a); left; reflexivity|].
    intros y sy ay Hin. apply (H y sy ay). right. assumption.
  - intros (H1 & H2) y sy ay [E|Hin]; [injection E as <- <- <-; assumption|].
    eapply H2; eassumption.
Qed.

Lemma sizes8_nil : sizes8 [].
Proof. intros x sz a []. Qed.

Lemma absorb_next_sizes8 sz l2 :
  sz mod 8 = 0 -> sizes8 l2 ->
  fst (absorb_next sz l2) mod 8 = 0 /\ sizes8 (snd (absorb_next sz l2)).
Proof.
  intros Hsz H2. unfold absorb_next.
  destruct l2 as [|[[n sn] an] l2']; [auto|].
  apply sizes8_cons in H2 as H. destruct H as (Hn & H2').
  destruct (an =? FREE); cbn [fst snd]; [|auto].
  split; [apply mod8_add; assumption|assumption].
Qed.

Lemma absorb_prev_sizes8 l1 x sz :
  sz mod 8 = 0 -> sizes8 l1 ->
  sizes8 (fst (fst (absorb_prev l1 x sz))) /\ snd (absorb_prev l1 x sz) mod 8 = 0.
Proof.
  intros Hsz H1.
  destruct (snoc_cases _ l1) as [->|(l & [[q sq] aq] & ->)].
  - rewrite absorb_prev_nil. auto.
  - rewrite absorb_prev_snoc. apply sizes8_app in H1 as H. destruct H as (Hl & Hq).
    apply sizes8_cons in Hq. destruct Hq as (Hq & _).
    destruct (aq =? FREE); cbn [fst snd]; [|auto].
    split; [assumption|apply mod8_add; assumption].
Qed.

Lemma merged_sizes8 l1 x sz a l2 :
  sizes8 (l1 ++ (x, sz, a) :: l2) -> sizes8 (fst (merged l1 x sz l2)).
Proof.
  intros H. apply sizes8_app in H. destruct H as (H1 & H).
  apply sizes8_cons in H. destruct H as (Hsz & H2).
  unfold merged.
  destruct (absorb_next_sizes8 sz l2 Hsz H2) as (Ha & Hb).
  destruct (absorb_next sz l2) as [sz1 l2']. cbn [fst snd] in Ha, Hb.
  destruct (absorb_prev_sizes8 l1 x sz1 Ha H1) as (Hc & Hd).
  destruct (absorb_prev l1 x sz1) as [[l1' x'] sz2]. cbn [fst snd] in Hc, Hd |- *.
  apply sizes8_app. split; [assumption|]. apply sizes8_cons. auto.
Qed.

Lemma placed_sizes8 l1 b sz a asize l2 :
  sizes8 (l1 ++ (b, sz, a) :: l2) -> asize mod 8 = 0 ->
  sizes8 (placed l1 b sz asize l2).
Proof.
  intros H Has. apply sizes8_app in H. destruct H as (H1 & H).
  apply sizes8_cons in H. destruct H as (Hsz & H2).
  unfold placed. destruct (MIN_BLOCK_SIZE <=? sz - asize);
    apply sizes8_app; (split; [assumption|]); repeat apply sizes8_cons;
    repeat split; auto using mod8_sub.
  apply sizes8_cons. auto using mod8_sub.
Qed.

Lemma adjust_size_mod8 size : adjust_size size mod 8 = 0.
Proof.
  destruct (adjust_size_shape size) as (k & -> & _).
  rewrite Z.mul_comm. apply Z.mod_mul. lia.
Qed.

Lemma extend_amount_mod8 size : extend_amount (adjust_size size) mod 8 = 0.
Proof.
  unfold extend_amount. destruct (CHUNKSIZE <? adjust_size size).
  - apply adjust_size_mod8.
  - reflexivity.
Qed.

(** A well-formed heap has one layout. *)
Lemma layout_unique s bl rank bl' rank' :
  heap_inv s bl rank -> heap_inv s bl' rank' -> bl = bl'.
Proof.
  intros (H1 & _) (H2 & _).
  exact (heap_blocks_unique s _ _ _ _
           (heap_blocks_layout s bl (S (length bl)) H1 ltac:(lia))
           (heap_blocks_layout s bl' (S (length bl')) H2 ltac:(lia))).
Qed.

(** With an aligned start and sizes that are multiples of 8, every block
    of a chain starts at a multiple of 8. *)
Lemma chain_aligned bl :
  forall a e x sz al,
    chain a bl e -> sizes8 bl -> a mod 8 = 0 -> In (x, sz, al) bl ->
    x mod 8 = 0.
Proof.
  induction bl as [|[[y sy] ay] bl IH]; intros a e x sz al Hch H8 Ha Hin.
  - destruct Hin.
  - cbn [chain] in Hch. destruct Hch as (-> & _ & Hch).
    apply sizes8_cons in H8. destruct H8 as (Hsy & H8).
    destruct Hin as [E|Hin]; [injection E as <- _ _; assumption|].
    apply (IH (a + sy) e x sz al); auto using mod8_add.
Qed.

Lemma block_aligned s bl rank x sz al :
  heap_inv s bl rank -> sizes8 bl -> prologue s mod 8 = 0 ->
  In (x, sz, al) bl -> x mod 8 = 0.
Proof.
  intros (Hlo & _) H8 Hp Hin.
  apply (chain_aligned bl _ _ x sz al (lo_chain _ _ Hlo) H8); [|assumption].
  apply mod8_add; [assumption|reflexivity].
Qed.

(** * The operations keep the sizes multiples of 8 *)

Lemma mm_malloc_al s bl rank fuel size p s' :
  heap_inv s bl rank -> sizes8 bl -> mm_malloc fuel size s = Returns p s' ->
  exists bl' rank',
    heap_inv s' bl' rank' /\ sizes8 bl' /\ prologue s' = prologue s /\
    (p = NULL \/ exists sz al, In (p - 8, sz, al) bl').
Proof.
  intros Hinv H8 Hm.
  destruct (Z.eq_dec size 0) as [->|Hsz].
  { rewrite mm_malloc_zero in Hm. injection Hm as <- <-.
    exists bl, rank. auto. }
  pose proof (mm_malloc_mono _ _ _ _ _ (S (Z.to_nat (nfree bl))) Hm) as Hm'.
  remember (fuel + S (Z.to_nat (nfree bl)))%nat as fuel' eqn:Hf.
  assert (Hfuel : nfree bl < Z.of_nat fuel').
  { pose proof (nfree_nonneg bl). lia. }
  clear Hm Hf. revert Hm'.
  pose proof Hinv as (Hlo & _ & _).
  pose proof (lo_chain _ _ Hlo) as Hch.
  apply (mm_malloc_wp s bl rank fuel' size); try assumption; cbv beta.
  - intros l1 b sz l2 s1 rank1 Hbl Hfit _ Hinv1 _ _ Hp E.
    injection E as <- <-.
    destruct (placed_has l1 b sz (adjust_size size) l2 Hfit) as (sb & Hin & _).
    exists (placed l1 b sz (adjust_size size) l2), rank1.
    split; [exact Hinv1|]. split.
    { apply (placed_sizes8 l1 b sz FREE);
        [rewrite <- Hbl; assumption|apply adjust_size_mod8]. }
    split; [exact Hp|]. right. exists sb, ALLOC.
    unfold payload, sizeof_header_t. replace (b + 8 - 8) with b by lia. exact Hin.
  - intros _ _ E. injection E as <- <-. exists bl, rank. auto.
  - intros l1 b sz s1 rank1 _ Hroom Hmg Hinv1 _ _ Hp E.
    injection E as <- <-.
    destruct (merged_last bl _ (mem_brk s - 8) _
                (extend_amount (adjust_size size)) Hch) as (l1' & b' & sz' & Hmg' & Hsz').
    { unfold extend_amount. change CHUNKSIZE with 65536.
      pose proof (adjust_size_range size).
      destruct (65536 <? adjust_size size); lia. }
    rewrite Hmg in Hmg'. injection Hmg' as El <-.
    apply app_inj_tail in El. destruct El as (<- & E3).
    injection E3 as <-.
    pose proof (extend_amount_words _ (adjust_size_shape size)) as (_ & _ & Hle).
    destruct (placed_has l1 b sz (adjust_size size) [] ltac:(lia)) as (sb & Hin & _).
    exists (placed l1 b sz (adjust_size size) []), rank1.
    split; [exact Hinv1|]. split.
    { apply (placed_sizes8 l1 b sz FREE); [|apply adjust_size_mod8].
      assert (Hms : sizes8 (bl ++ [(mem_brk s - 8,
                                   extend_amount (adjust_size size), FREE)])).
      { apply sizes8_app. split; [assumption|]. apply sizes8_cons.
        split; [apply extend_amount_mod8|apply sizes8_nil]. }
      apply merged_sizes8 in Hms.
      exact (eq_ind _ sizes8 Hms _ (f_equal fst Hmg)). }
    split; [exact Hp|]. right. exists sb, ALLOC.
    unfold payload, sizeof_header_t. replace (b + 8 - 8) with b by lia. exact Hin.
Qed.

Lemma mm_free_al s bl rank p sz :
  heap_inv s bl rank -> sizes8 bl -> In (p - 8, sz, ALLOC) bl ->
  exists bl' rank',
    heap_inv (mm_free p s) bl' rank' /\ sizes8 bl' /\
    prologue (mm_free p s) = prologue s.
Proof.
  intros Hinv H8 Hin.
  destruct (mm_free_inv _ _ _ _ _ Hinv Hin)
    as (l1 & l2 & rank' & Hbl & Hinv' & _ & _ & _ & Hp).
  exists (fst (merged l1 (p - 8) sz l2)), rank'.
  split; [exact Hinv'|]. split; [|exact Hp].
  apply (merged_sizes8 l1 _ _ ALLOC l2). rewrite <- Hbl. assumption.
Qed.

Lemma mm_realloc_al s bl rank fuel p size q s' sz :
  heap_inv s bl rank -> sizes8 bl -> In (p - 8, sz, ALLOC) bl ->
  0 <= size -> size + OVERHEAD + 7 < 2 ^ 32 ->
  mm_realloc fuel p size s = Returns q s' ->
  exists bl' rank',
    heap_inv s' bl' rank' /\ sizes8 bl' /\ prologue s' = prologue s.
Proof.
  intros Hinv H8 Hin Hs0 Hs1. cbv beta zeta delta [mm_realloc].
  destruct (mm_malloc fuel size s) as [newp s1| |] eqn:Hm; try discriminate.
  destruct (Z.eqb_spec newp NULL) as [|Hnn]; [discriminate|].
  intros E. injection E as <- <-.
  assert (Hsz : size <> 0).
  { intros ->. rewrite mm_malloc_zero in Hm. injection Hm as <- _.
    apply Hnn. reflexivity. }
  destruct (mm_malloc_inv _ _ _ _ _ _ _ Hinv Hsz Hm)
    as [(-> & _)|(bl1 & rank1 & b & sb & Hinv1 & -> & Hb & Hfit & Hkeep & Hfresh)];
    [exfalso; apply Hnn; reflexivity|].
  destruct (mm_malloc_al _ _ _ _ _ _ _ Hinv H8 Hm)
    as (bl1' & rank1' & Hinv1' & H81 & Hp1 & _).
  rewrite <- (layout_unique _ _ _ _ _ Hinv1 Hinv1') in H81. clear Hinv1'.
  pose proof (Hkeep _ _ Hin) as Hin1.
  rewrite (adjust_size_small size Hs0 Hs1) in Hfit.
  unfold OVERHEAD, MIN_BLOCK_SIZE, payload in *. consts.
  pose proof (Z.div_mod (size + (8 + 8) + 7) 8 ltac:(lia)).
  pose proof (Z.mod_pos_bound (size + (8 + 8) + 7) 8 ltac:(lia)).
  pose proof (block_size_range s1 (p - 8)) as Hbs.
  remember (if size <? block_size s1 (p - 8) then size
            else block_size s1 (p - 8)) as copy eqn:Hcopy.
  assert (Hc : copy <= size).
  { subst copy. destruct (Z.ltb_spec size (block_size s1 (p - 8))); lia. }
  assert (Hinv2 : heap_inv (with_mem (Mem.memcpy (b + 8) p copy (mem s1)) s1)
                           bl1 rank1).
  { apply (heap_inv_payload s1 bl1 rank1 b sb); [assumption..|].
    intros a Ha. apply memcpy_frame. lia. }
  destruct (mm_free_al _ _ _ p sz Hinv2 H81 Hin1) as (bl' & rank' & Hinv' & H8' & Hp').
  exists bl', rank'. split; [exact Hinv'|]. split; [exact H8'|].
  rewrite Hp'. exact Hp1.
Qed.

(** * Every reachable state is well formed, with sizes multiples of 8 *)

Lemma reachable_al s :
  reachable s -> exists bl rank, heap_inv s bl rank /\ sizes8 bl.
Proof.
  induction 1 as [s0 s Ha Hi|s fuel size p s' _ (bl & rank & Hinv & H8) Hm
                 |s p _ (bl & rank & Hinv & H8) Hl
                 |s p a v _ (bl & rank & Hinv & H8) Hl Ha
                 |s fuel p size q s' _ (bl & rank & Hinv & H8) Hl Hs1 Hs0 Hr].
  - destruct (fresh_heap s0 s Ha Hi) as (Hinv & _).
    eexists _, _. split; [exact Hinv|].
    apply sizes8_cons. split; [reflexivity|apply sizes8_nil].
  - destruct (mm_malloc_al _ _ _ _ _ _ _ Hinv H8 Hm) as (bl' & rank' & Hinv' & H8' & _).
    eauto.
  - destruct (live_in _ _ _ _ Hinv Hl) as (sz & Hin).
    destruct (mm_free_al _ _ _ _ _ Hinv H8 Hin) as (bl' & rank' & Hinv' & H8' & _).
    eauto.
  - destruct (live_in _ _ _ _ Hinv Hl) as (sz & Hin).
    exists bl, rank. split; [|exact H8].
    exact (client_write_inv _ _ _ _ _ _ _ Hinv Hin Ha).
  - destruct (live_in _ _ _ _ Hinv Hl) as (sz & Hin).
    destruct (mm_realloc_al _ _ _ _ _ _ _ _ _ Hinv H8 Hin Hs0 Hs1 Hr)
      as (bl' & rank' & Hinv' & H8' & _).
    eauto.
Qed.

(** * The claims of the specification *)

(** C1: [coalesce] is entered by [mm_free] and by [extend_heap] with the
    tags of [block] already saying free and the list not yet holding it
    ([coalesce_pre]).  It returns the lowest address [m] of the span made of
    [block] and its free physical neighbours; afterwards a walk of the heap
    finds exactly one block in that span, a free one, with no free block
    next to it, whose header and footer carry the size of the span, and a
    walk of the free list meets [m] exactly once. *)
Theorem coalesce_merges s l1 l2 block sz rank :
  coalesce_pre s (l1 ++ (block, sz, FREE) :: l2) block rank ->
  let bl' := fst (merged l1 block sz l2) in
  let m := snd (merged l1 block sz l2) in
  let s' := snd (coalesce block s) in
  fst (coalesce block s) = m /\ m <= block /\
  exists szm,
    block + sz <= m + szm /\
    heap_blocks (S (length bl')) s' = Some bl' /\
    In (m, szm, FREE) bl' /\
    (forall x sx ax, In (x, sx, ax) bl' -> m <= x < m + szm ->
       (x, sx, ax) = (m, szm, FREE)) /\
    (forall x sx, In (x, sx, FREE) bl' -> x + sx <> m /\ x <> m + szm) /\
    block_size s' m = szm /\ block_size s' (get_footer s' m) = szm /\
    (forall fuel, nfree bl' < Z.of_nat fuel ->
       exists fl, free_list fuel s' = Some fl /\ NoDup fl /\ In m fl).
Proof.
  intros Hpre. cbv zeta.
  pose proof Hpre as (Hlo0 & _ & _).
  destruct (merged_span _ _ _ _ _ _ (lo_chain _ _ Hlo0)) as (szm & Hin & Hle & Hge).
  pattern (coalesce block s). apply (coalesce_wp _ _ _ _ _ _ _ Hpre).
  intros s' rank' Hinv Hroot _ _ _. cbn [fst snd].
  pose proof Hinv as (Hlo & Hfl & Hna).
  pose proof (lo_chain _ _ Hlo) as Hch.
  destruct (lo_tags _ _ Hlo _ Hin) as (T1 & T2 & T3 & T4).
  split; [reflexivity|]. split; [exact Hle|]. exists szm.
  split; [exact Hge|].
  split; [apply heap_blocks_layout; [exact Hlo|lia]|].
  split; [exact Hin|]. split; [|split; [|split; [exact T1|split]]].
  - intros x sx ax Hx Hr.
    pose proof (chain_in _ _ _ _ _ _ Hch Hx).
    destruct (chain_disj _ _ _ _ _ _ _ _ _ Hch Hx Hin) as [(-> & -> & ->)|D];
      [reflexivity|lia].
  - intros x sx Hx. split.
    + intros E. apply (Hna x sx _ szm Hx Hin). lia.
    + intros E. apply (Hna _ szm x sx Hin Hx). lia.
  - unfold get_footer. rewrite T1. exact T3.
  - intros fuel Hf.
    destruct (free_list_ok s' _ _ _ Hfl (isfree_nonnull _ _ Hlo) fuel
                (nfree_nonneg _) Hf) as (fl & Hl & Hnd & Hiff).
    exists fl. split; [exact Hl|]. split; [exact Hnd|].
    apply Hiff. exists szm. exact Hin.
Qed.

Lemma coalesce_merges_witness :
  fst (coalesce 4136 (set_allocated (4136 + 32 - 8) 0
                        (set_allocated 4136 0 heap5ad))) = 4104.
Proof.
  exact (proj1 (coalesce_merges _ [(4104, 32, 0)]
                  [(4168, 32, 1); (4200, 32, 0); (4232, 32, 1); (4264, 65360, 0)]
                  4136 32 rank5ad
                  (free_tags_pre heap5ad [(4104, 32, 0)]
                     [(4168, 32, 1); (4200, 32, 0); (4232, 32, 1);
                      (4264, 65360, 0)]
                     4136 32 rank5ad heap5ad_inv))).
Defined.

(** C2: in every [reachable] state a walk of the heap and a walk of the
    free list end, and a block of the heap is met by the walk of the free
    list if and only if its allocated flag is 0; the free list has no
    repetition, holds blocks of the heap only, and no block of it starts
    where another one ends.  The [reachable] states are those made by
    [mm_init], [mm_malloc], [mm_free] of live pointers, stores of the
    client into live payloads, and [mm_realloc] of live pointers to sizes
    with [size + OVERHEAD + 7 < 2 ^ 32]; beyond that bound [mm_realloc]
    breaks the invariant, see the counterexample below. *)
Theorem free_list_invariant s :
  reachable s ->
  exists fuel bl fl,
    heap_blocks fuel s = Some bl /\ free_list fuel s = Some fl /\ NoDup fl /\
    (forall x sz a, In (x, sz, a) bl -> (In x fl <-> allocated s x = 0)) /\
    (forall x, In x fl -> exists sz a, In (x, sz, a) bl) /\
    (forall x y, In x fl -> In y fl -> y <> x + block_size s x).
Proof.
  intros Hr. destruct (reachable_inv s Hr) as (bl & rank & Hinv).
  pose proof Hinv as (Hlo & Hfl & Hna).
  pose proof (lo_chain _ _ Hlo) as Hch.
  pose proof (nfree_nonneg bl) as Hnn.
  destruct (heap_inv_observe s bl rank (S (length bl + Z.to_nat (nfree bl))) Hinv)
    as (Hw & fl & Hl & Hnd & Hiff); [lia|lia|].
  exists (S (length bl + Z.to_nat (nfree bl))), bl, fl.
  split; [exact Hw|]. split; [exact Hl|]. split; [exact Hnd|]. split; [|split].
  - intros x sz a Hx. destruct (lo_tags _ _ Hlo _ Hx) as (_ & T2 & _).
    rewrite Hiff, T2. split.
    + intros (sx & Hx').
      destruct (chain_disj _ _ _ _ _ _ _ _ _ Hch Hx Hx') as [(_ & _ & ->)|D];
        [reflexivity|].
      pose proof (chain_in _ _ _ _ _ _ Hch Hx).
      pose proof (chain_in _ _ _ _ _ _ Hch Hx'). lia.
    + intros ->. exists sz. exact Hx.
  - intros x Hx. apply Hiff in Hx. destruct Hx as (sz & Hx). eauto.
  - intros x y Hx Hy. apply Hiff in Hx, Hy.
    destruct Hx as (sx & Hx). destruct Hy as (sy & Hy).
    destruct (lo_tags _ _ Hlo _ Hx) as (-> & _).
    exact (Hna _ _ _ _ Hx Hy).
Qed.

Lemma free_list_invariant_witness :
  exists fuel bl fl,
    heap_blocks fuel heap5r = Some bl /\ free_list fuel heap5r = Some fl /\
    NoDup fl /\
    (forall x sz a, In (x, sz, a) bl -> (In x fl <-> allocated heap5r x = 0)) /\
    (forall x, In x fl -> exists sz a, In (x, sz, a) bl) /\
    (forall x y, In x fl -> In y fl -> y <> x + block_size heap5r x).
Proof. exact (free_list_invariant heap5r heap5r_reachable). Defined.

(** The first block of [heap1] is live; its reallocation to 2^32 + 1 bytes
    returns 4144, and afterwards the free list holds the block at 4168,
    whose allocated flag is 1: the 32 bytes of the old block, header and
    footer included, were copied into a new block with 16 bytes of
    payload, over the header of the block behind it. *)
Lemma free_list_invariant_counterexample :
  reachable heap1 /\ live heap1 4112 /\
  mm_realloc 8 4112 (2 ^ 32 + 1) heap1 = Returns 4144 heap1x /\
  heap_blocks 8 heap1x = Some [(4104, 32, 0); (4136, 32, 1); (4168, 32, 1)] /\
  free_list 8 heap1x = Some [4104; 4168] /\
  allocated heap1x 4168 = 1.
Proof.
  split; [exact heap1_reachable|]. split; [exact heap1_live1|]. split.
  - rewrite (outcome_eta (mm_realloc 8 4112 (2 ^ 32 + 1) heap1) heap1)
      by (vm_compute; reflexivity).
    fold heap1x. f_equal; vm_compute; reflexivity.
  - vm_compute. repeat split; reflexivity.
Qed.

(** C3: in every [reachable] state, every block met by the walk of the
    heap from the prologue to the epilogue has a footer that agrees with
    its header on the size and on the allocated flag.  The [reachable]
    states are those made by [mm_init], [mm_malloc], [mm_free] of live
    pointers, stores of the client into live payloads, and [mm_realloc]
    of live pointers to sizes with [size + OVERHEAD + 7 < 2 ^ 32]; beyond
    that bound [mm_realloc] breaks the agreement, see the counterexample
    below. *)
Theorem tags_agree_reachable s :
  reachable s ->
  exists fuel bl,
    heap_blocks fuel s = Some bl /\
    forall b sz a, In (b, sz, a) bl -> tags_agree s b.
Proof.
  intros Hr. destruct (reachable_inv s Hr) as (bl & rank & Hinv).
  exists (S (length bl)), bl. split.
  - apply heap_blocks_layout; [exact (proj1 Hinv)|lia].
  - intros b sz a Hb. exact (heap_inv_tags _ _ _ _ _ _ Hinv Hb).
Qed.

Lemma tags_agree_reachable_witness :
  exists fuel bl,
    heap_blocks fuel heap5r = Some bl /\
    forall b sz a, In (b, sz, a) bl -> tags_agree heap5r b.
Proof. exact (tags_agree_reachable heap5r heap5r_reachable). Defined.

(** After the reallocation of the live first block of [heap1] to 2^32 + 1
    bytes, which returns, the walk of the heap meets the block at 4168,
    whose header says 32 bytes, allocated, and whose footer says 0 bytes,
    free; no walk of the heap sees agreeing tags only. *)
Lemma tags_agree_reachable_counterexample :
  reachable heap1 /\ live heap1 4112 /\
  is_returns (mm_realloc 8 4112 (2 ^ 32 + 1) heap1) = true /\
  heap_blocks 8 heap1x = Some [(4104, 32, 0); (4136, 32, 1); (4168, 32, 1)] /\
  block_size heap1x 4168 = 32 /\ allocated heap1x 4168 = 1 /\
  block_size heap1x (get_footer heap1x 4168) = 0 /\
  allocated heap1x (get_footer heap1x 4168) = 0 /\
  ~ (exists fuel bl,
       heap_blocks fuel heap1x = Some bl /\
       forall b sz a, In (b, sz, a) bl -> tags_agree heap1x b).
Proof.
  split; [exact heap1_reachable|]. split; [exact heap1_live1|].
  assert (Hw : heap_blocks 8 heap1x =
               Some [(4104, 32, 0); (4136, 32, 1); (4168, 32, 1)])
    by (vm_compute; reflexivity).
  assert (Hs : block_size heap1x (get_footer heap1x 4168) = 0)
    by (vm_compute; reflexivity).
  assert (Hh : block_size heap1x 4168 = 32) by (vm_compute; reflexivity).
  repeat (split; [first [assumption | vm_compute; reflexivity]|]).
  intros (fuel & bl & Hbl & Hall).
  rewrite (heap_blocks_unique _ _ _ _ _ Hbl Hw) in Hall.
  destruct (Hall 4168 32 1) as (E & _); [pick_in|].
  rewrite Hs, Hh in E. discriminate.
Qed.

(** The adjusted size of every request that does not wrap at 64 bits:
    the request plus the overhead, rounded up to a multiple of 8, reduced
    modulo 2^32 by the assignment to the 32-bit [asize], and raised
    to 32. *)
Lemma adjust_size_wrap size :
  0 <= size -> size + OVERHEAD + 7 < 2 ^ 64 ->
  adjust_size size =
  Z.max MIN_BLOCK_SIZE ((8 * ((size + OVERHEAD + 7) / 8)) mod 2 ^ 32).
Proof.
  unfold OVERHEAD, MIN_BLOCK_SIZE. consts. intros H0 H1.
  unfold adjust_size, wrap32, wrap64, OVERHEAD, MIN_BLOCK_SIZE. consts. cbv zeta.
  rewrite Z.shiftr_div_pow2, Z.shiftl_mul_pow2 by lia.
  change (2 ^ 3) with 8.
  rewrite (Z.mod_small (size + (8 + 8)) (2 ^ 64)) by lia.
  rewrite (Z.mod_small (size + (8 + 8) + 7) (2 ^ 64)) by lia.
  pose proof (Z.div_mod (size + (8 + 8) + 7) 8 ltac:(lia)).
  pose proof (Z.mod_pos_bound (size + (8 + 8) + 7) 8 ltac:(lia)).
  rewrite (Z.mod_small _ (2 ^ 64)) by lia.
  rewrite (Z.mul_comm 8).
  destruct (Z.ltb_spec (((size + (8 + 8) + 7) / 8 * 8) mod 2 ^ 32) 32); lia.
Qed.

(** C4: [mm_malloc 0] returns NULL and leaves the state alone.  The
    adjusted size of a request of [size > 0] bytes is the request plus
    the overhead, rounded up to a multiple of 8, then reduced modulo 2^32
    and raised to 32; it is the unreduced value only when
    [size + OVERHEAD + 7 < 2 ^ 32], and in all cases a multiple of 8
    from 32 to 2^32 - 8.  On a well-formed heap, with fuel for the whole
    free list, either the first block of the free list that is large
    enough is placed and its payload returned, or no free block is large
    enough, the heap is extended by the larger of the adjusted size and
    [CHUNKSIZE], and the block that [extend_heap] returns is placed; when
    [mem_sbrk] fails the result is NULL. *)
Theorem mm_malloc_flow s bl rank fuel size :
  heap_inv s bl rank -> nfree bl < Z.of_nat fuel ->
  mm_malloc fuel 0 s = Returns NULL s /\
  (0 < size -> size + OVERHEAD + 7 < 2 ^ 64 ->
   adjust_size size =
   Z.max MIN_BLOCK_SIZE ((8 * ((size + OVERHEAD + 7) / 8)) mod 2 ^ 32)) /\
  (0 < size -> size + OVERHEAD + 7 < 2 ^ 32 ->
   adjust_size size = Z.max MIN_BLOCK_SIZE (8 * ((size + OVERHEAD + 7) / 8))) /\
  (MIN_BLOCK_SIZE <= adjust_size size <= 2 ^ 32 - 8 /\
   adjust_size size mod 8 = 0) /\
  (size <> 0 ->
   let asize := adjust_size size in
   (exists b sz,
      In (b, sz, FREE) bl /\ asize <= sz /\
      (forall x sx, In (x, sx, FREE) bl -> rank x < rank b -> sx < asize) /\
      mm_malloc fuel size s = Returns (payload b) (place b asize s))
   \/
   ((forall x sx, In (x, sx, FREE) bl -> sx < asize) /\
    exists b s1,
      extend_heap (Z.shiftr (Z.max asize CHUNKSIZE) 3) s = (b, s1) /\
      (mem_sbrk (Z.max asize CHUNKSIZE) s = None -> b = NULL /\ s1 = s) /\
      (mem_sbrk (Z.max asize CHUNKSIZE) s <> None -> b <> NULL) /\
      mm_malloc fuel size s =
        if b =? NULL then Returns NULL s1
        else Returns (payload b) (place b asize s1))).
Proof.
  intros Hinv Hfuel. split; [reflexivity|]. split.
  { intros H0 H1. apply adjust_size_wrap; lia. }
  split.
  { intros H0 H1. apply adjust_size_small; lia. }
  split.
  { destruct (adjust_size_shape size) as (k & -> & Hk). unfold MIN_BLOCK_SIZE.
    split; [lia|]. rewrite Z.mul_comm. apply Z.mod_mul. lia. }
  intros Hsz. cbv zeta.
  pose proof Hinv as (Hlo & Hfl & Hna).
  pose proof (lo_tags _ _ Hlo) as Htags.
  pose proof (extend_amount_words _ (adjust_size_shape size)) as (Hw & Hext & Hle).
  rewrite extend_amount_max in Hw, Hext, Hle.
  remember (adjust_size size) as asize eqn:Hasize.
  destruct (find_fit_ok s (isfree bl) rank (nfree bl) asize Hfl
              (isfree_nonnull _ _ Hlo) fuel (nfree_nonneg bl) Hfuel)
    as (r & Hr & HrN & HrF).
  assert (Hm : mm_malloc fuel size s =
     if negb (r =? NULL) then Returns (payload r) (place r asize s)
     else let '(b, s1) := extend_heap (Z.shiftr (Z.max asize CHUNKSIZE) 3) s in
          if negb (b =? NULL) then Returns (payload b) (place b asize s1)
          else Returns NULL s1).
  { cbv beta zeta delta [mm_malloc]. rewrite (eqb_false size 0) by assumption.
    rewrite <- Hasize, Hr. fold (extend_amount asize).
    rewrite extend_amount_max. reflexivity. }
  destruct (Z.eqb_spec r NULL) as [Er|Er]; cbn [negb] in Hm.
  - right. split.
    { intros x sx Hx. destruct (Htags _ Hx) as (<- & _).
      apply (HrN Er). eexists. eassumption. }
    destruct (extend_heap (Z.shiftr (Z.max asize CHUNKSIZE) 3) s) as [b s1] eqn:He.
    exists b, s1. split; [reflexivity|]. split; [|split].
    + intros Hnone.
      pose proof (extend_heap_fail (Z.shiftr (Z.max asize CHUNKSIZE) 3) s) as Hf.
      rewrite Hw in Hf. rewrite Hf in He by first [lia|assumption].
      injection He as <- <-. split; reflexivity.
    + intros Hsome. revert He.
      pattern (extend_heap (Z.shiftr (Z.max asize CHUNKSIZE) 3) s).
      apply (extend_heap_wp s bl rank _ _ Hinv); [lia|..]; cbv beta; rewrite Hw.
      * intros Hfull. exfalso. apply Hsome. apply mem_sbrk_none; lia.
      * intros s' rank' _ Hinv' _ _ _ _ E. injection E as <- <-.
        destruct (merged_last bl _ (mem_brk s - 8) _ (Z.max asize CHUNKSIZE)
                    (lo_chain _ _ Hlo) ltac:(lia)) as (l1 & b & sz & Hmg & _).
        rewrite Hmg in *. cbn [fst snd] in *.
        apply (isfree_nonnull _ _ (proj1 Hinv')). exists sz. in_solve.
    + rewrite Hm. destruct (b =? NULL); reflexivity.
  - left. destruct (HrF Er) as ((sz & Hin) & Hfit & Hfirst).
    destruct (Htags _ Hin) as (Tsz & _). rewrite Tsz in Hfit.
    exists r, sz. split; [exact Hin|]. split; [exact Hfit|]. split; [|exact Hm].
    intros x sx Hx Hrk. destruct (Htags _ Hx) as (<- & _).
    apply Hfirst; [eexists; eassumption|assumption].
Qed.

Lemma mm_malloc_flow_witness :
  mm_malloc 8 0 heap5ad = Returns NULL heap5ad /\
  adjust_size (2 ^ 32 + 100) = 120.
Proof.
  destruct (mm_malloc_flow heap5ad layout5ad rank5ad 8 (2 ^ 32 + 100)
              heap5ad_inv) as (H0 & Hw & _).
  - vm_compute. reflexivity.
  - split; [exact H0|]. rewrite Hw by (vm_compute; reflexivity).
    vm_compute. reflexivity.
Defined.

(** A request of 2^32 + 100 bytes on [heap1]: the request plus the
    overhead, rounded up, is 2^32 + 120, yet the adjusted size is 120 and
    the call returns the payload of a block of 120 bytes carved out of the
    free block. *)
Lemma mm_malloc_flow_counterexample :
  Z.max MIN_BLOCK_SIZE (8 * ((2 ^ 32 + 100 + OVERHEAD + 7) / 8)) = 2 ^ 32 + 120 /\
  adjust_size (2 ^ 32 + 100) = 120 /\
  result (mm_malloc 8 (2 ^ 32 + 100) heap1) = 4144 /\
  heap_blocks 8 (after (mm_malloc 8 (2 ^ 32 + 100) heap1) heap1) =
    Some [(4104, 32, 1); (4136, 120, 1); (4256, 65368, 0)].
Proof. vm_compute. repeat split; reflexivity. Qed.

(** C5: on a well-formed heap, when no free block is large enough for the
    request and [mem_sbrk] refuses the growth, [mm_malloc] returns NULL and
    the state it returns is the state it was given. *)
Theorem malloc_fail_unchanged s bl rank fuel size :
  heap_inv s bl rank -> nfree bl < Z.of_nat fuel -> size <> 0 ->
  (forall x sx, In (x, sx, FREE) bl -> sx < adjust_size size) ->
  mem_sbrk (Z.max (adjust_size size) CHUNKSIZE) s = None ->
  mm_malloc fuel size s = Returns NULL s.
Proof.
  intros Hinv Hfuel Hsz Hno Hnone.
  pose proof (extend_amount_words _ (adjust_size_shape size)) as (_ & Hext & _).
  rewrite <- extend_amount_max in Hnone.
  apply mem_sbrk_none in Hnone; [|lia].
  pattern (mm_malloc fuel size s).
  apply (mm_malloc_wp s bl rank fuel size _ Hinv Hsz Hfuel); cbv beta.
  - intros l1 b sz l2 s' rank' Hbl Hfit. exfalso.
    assert (Hb : In (b, sz, FREE) bl) by (rewrite Hbl; in_solve).
    specialize (Hno _ _ Hb). lia.
  - reflexivity.
  - intros l1 b sz s' rank' _ Hroom. exfalso. lia.
Qed.

Lemma malloc_fail_unchanged_witness :
  mm_malloc 8 70000 heap_small = Returns NULL heap_small.
Proof.
  apply (malloc_fail_unchanged heap_small
           [(4096 + 8, CHUNKSIZE - OVERHEAD, FREE)] (fun _ => 0)).
  - exact (proj1 (fresh_heap arena_small heap_small arena_small_ok heap_small_init)).
  - vm_compute. reflexivity.
  - discriminate.
  - intros x sx [E|[]]. injection E as <- <-. vm_compute. reflexivity.
  - vm_compute. reflexivity.
Defined.

(** C6: when the block before [block] is free and the block after it is
    allocated, [coalesce] returns the previous block, whose header and
    footer now carry the sum of the two sizes, and the previous block is the
    root of the free list afterwards: it is moved to the head of the list
    (or stays there), it does not keep an inner position. *)
Theorem coalesce_prev_free s l1 l2 p sp sz rank :
  coalesce_pre s (l1 ++ (p, sp, FREE) :: (p + sp, sz, FREE) :: l2) (p + sp) rank ->
  allocated s (p + sp + sz) = ALLOC ->
  let s' := snd (coalesce (p + sp) s) in
  let bl' := l1 ++ (p, sp + sz, FREE) :: l2 in
  fst (coalesce (p + sp) s) = p /\ freerootptr s' = p /\
  block_size s' p = sp + sz /\ block_size s' (get_footer s' p) = sp + sz /\
  (exists rank', heap_inv s' bl' rank') /\
  (forall fuel, nfree bl' < Z.of_nat fuel ->
     exists fl, free_list fuel s' = Some (p :: fl)).
Proof.
  intros Hpre Hnext. cbv zeta.
  pattern (coalesce (p + sp) s).
  apply (coalesce_case3_wp _ _ _ _ _ _ _ _ Hpre Hnext).
  intros s' rank' Hinv Hroot _ _ _. cbn [fst snd].
  pose proof Hinv as (Hlo & Hfl & Hna).
  assert (Hin : In (p, sp + sz, FREE) (l1 ++ (p, sp + sz, 0) :: l2)) by in_solve.
  destruct (lo_tags _ _ Hlo _ Hin) as (T1 & T2 & T3 & T4).
  pose proof (isfree_nonnull _ _ Hlo p ltac:(exists (sp + sz); exact Hin)) as Hp0.
  split; [reflexivity|]. split; [exact Hroot|]. split; [exact T1|].
  split; [unfold get_footer; rewrite T1; exact T3|].
  split; [exists rank'; exact Hinv|].
  intros fuel Hf.
  destruct (free_list_ok s' _ _ _ Hfl (isfree_nonnull _ _ Hlo) fuel
              (nfree_nonneg _) Hf) as (fl & Hl & _).
  unfold free_list in *. rewrite Hroot in *.
  destruct fuel as [|fuel]; [discriminate|]. cbn [free_walk] in *.
  rewrite (eqb_false p NULL) in * by assumption.
  destruct (free_walk fuel (GET_NEXT s' p) s') as [l|]; [|discriminate].
  exists l. reflexivity.
Qed.

Lemma coalesce_prev_free_witness :
  freerootptr (snd (coalesce 4136 (set_allocated (4136 + 32 - 8) 0
                                     (set_allocated 4136 0 heap5ad)))) = 4104.
Proof.
  refine (proj1 (proj2 (coalesce_prev_free _ []
                  [(4168, 32, 1); (4200, 32, 0); (4232, 32, 1); (4264, 65360, 0)]
                  4104 32 32 rank5ad
                  (free_tags_pre heap5ad [(4104, 32, 0)]
                     [(4168, 32, 1); (4200, 32, 0); (4232, 32, 1);
                      (4264, 65360, 0)]
                     4136 32 rank5ad heap5ad_inv) _))).
  vm_compute. reflexivity.
Defined.

(** The previous block 4104 is the second node of the free list before the
    block 4136 after it is freed, and the first node afterwards. *)
Lemma coalesce_prev_free_counterexample :
  heap_blocks 8 heap5ad =
    Some [(4104, 32, 0); (4136, 32, 1); (4168, 32, 1); (4200, 32, 0);
          (4232, 32, 1); (4264, 65360, 0)] /\
  free_list 8 heap5ad = Some [4200; 4104; 4264] /\
  free_list 8 (mm_free 4144 heap5ad) = Some [4104; 4200; 4264].
Proof. vm_compute. repeat split; reflexivity. Qed.




(** C8: [mm_malloc] does not check the request against the capacity of
    the size field.  The adjusted size is computed modulo 2^32, so a request
    of [size + 2^32] bytes is served exactly like a request of [size] bytes.
    On a well-formed heap a request whose adjusted size is 2^31 or more
    finds no free block and cannot be met by growing the heap, whose arena
    is below 2^31 bytes: NULL is returned and the state is unchanged.  A
    block that is granted has an adjusted size below 2^31, and the size
    field of its header holds at least the adjusted size: no header is
    written with a size that lost bits. *)
Theorem malloc_size_wraps fuel size s :
  0 < size -> size + 2 ^ 32 + OVERHEAD + 7 < 2 ^ 64 ->
  adjust_size (size + 2 ^ 32) = adjust_size size /\
  mm_malloc fuel (size + 2 ^ 32) s = mm_malloc fuel size s /\
  forall bl rank,
    heap_inv s bl rank -> nfree bl < Z.of_nat fuel ->
    (2 ^ 31 <= adjust_size size -> mm_malloc fuel size s = Returns NULL s) /\
    (forall p s', mm_malloc fuel size s = Returns p s' -> p <> NULL ->
       adjust_size size < 2 ^ 31 /\
       adjust_size size <= block_size s' (p - 8)).
Proof.
  unfold OVERHEAD. consts. intros H0 H1.
  assert (E : adjust_size (size + 2 ^ 32) = adjust_size size).
  { unfold adjust_size, wrap32, wrap64, OVERHEAD. consts. cbv zeta.
    rewrite !Z.shiftr_div_pow2, !Z.shiftl_mul_pow2 by lia.
    change (2 ^ 3) with 8.
    rewrite (Z.mod_small (size + 2 ^ 32 + (8 + 8)) (2 ^ 64)) by lia.
    rewrite (Z.mod_small (size + 2 ^ 32 + (8 + 8) + 7) (2 ^ 64)) by lia.
    rewrite (Z.mod_small (size + (8 + 8)) (2 ^ 64)) by lia.
    rewrite (Z.mod_small (size + (8 + 8) + 7) (2 ^ 64)) by lia.
    replace (size + 2 ^ 32 + (8 + 8) + 7)
      with (size + (8 + 8) + 7 + 2 ^ 29 * 8) by lia.
    rewrite Z.div_add by lia. rewrite Z.mul_add_distr_r.
    pose proof (Z.div_mod (size + (8 + 8) + 7) 8 ltac:(lia)).
    pose proof (Z.mod_pos_bound (size + (8 + 8) + 7) 8 ltac:(lia)).
    rewrite (Z.mod_small _ (2 ^ 64)) by lia.
    rewrite (Z.mod_small ((size + (8 + 8) + 7) / 8 * 8) (2 ^ 64)) by lia.
    change (2 ^ 29 * 8) with (1 * 2 ^ 32). rewrite Z.mod_add by lia.
    reflexivity. }
  split; [exact E|]. split.
  { cbv beta zeta delta [mm_malloc]. rewrite E.
    rewrite (eqb_false (size + 2 ^ 32) 0) by lia.
    rewrite (eqb_false size 0) by lia. reflexivity. }
  intros bl rank Hinv Hfuel.
  assert (Hsz : size <> 0) by lia.
  pose proof Hinv as (Hlo & _ & _).
  pose proof (lo_chain _ _ Hlo) as Hch.
  pose proof (lo_bounds _ _ Hlo) as (Hb1 & Hb2 & Hb3 & Hb4).
  pose proof (chain_le _ _ _ Hch) as Hcl. unfold sizeof_header_t in Hcl.
  pose proof (extend_amount_words _ (adjust_size_shape size)) as (_ & _ & Hle).
  assert (Hbig : 2 ^ 31 <= adjust_size size -> mm_malloc fuel size s = Returns NULL s).
  { intros Hge. pattern (mm_malloc fuel size s).
    apply (mm_malloc_wp s bl rank fuel size _ Hinv Hsz Hfuel); cbv beta.
    - intros l1 b sz l2 s' rank' Hbl Hfit. exfalso.
      assert (Hb : In (b, sz, FREE) bl) by (rewrite Hbl; in_solve).
      pose proof (chain_in _ _ _ _ _ _ Hch Hb). unfold sizeof_header_t in *. lia.
    - reflexivity.
    - intros l1 b sz s' rank' _ Hroom. exfalso. lia. }
  split; [exact Hbig|].
  intros p s' Hm Hp.
  destruct (mm_malloc_inv _ _ _ _ _ _ _ Hinv Hsz Hm)
    as [(-> & _)|(bl' & rank' & b & sb & Hinv' & -> & Hb & Hfit & _)];
    [exfalso; apply Hp; reflexivity|].
  destruct (lo_tags _ _ (proj1 Hinv') _ Hb) as (T1 & _).
  unfold payload, sizeof_header_t. replace (b + 8 - 8) with b by lia.
  rewrite T1. split; [|exact Hfit].
  pose proof (block_size_range s' b). lia.
Qed.

Lemma malloc_size_wraps_witness :
  mm_malloc 8 (2 ^ 31 + 2 ^ 32) heap0 = mm_malloc 8 (2 ^ 31) heap0 /\
  mm_malloc 8 (2 ^ 31) heap0 = Returns NULL heap0.
Proof.
  destruct (malloc_size_wraps 8 (2 ^ 31) heap0) as (_ & Hw & Hinv).
  - lia.
  - vm_compute. reflexivity.
  - split; [exact Hw|].
    destruct (Hinv _ _ heap0_inv) as (Hbig & _).
    + vm_compute. reflexivity.
    + apply Hbig. vm_compute. discriminate.
Defined.

(** A request of 2^32 bytes, whose adjusted size would be 2^32 + 16, is
    granted on the fresh heap with a block of 32 bytes. *)
Lemma malloc_size_wraps_counterexample :
  2 ^ 31 - 1 < 2 ^ 32 + OVERHEAD /\
  result (mm_malloc 8 (2 ^ 32) heap0) = 4112 /\
  block_size (after (mm_malloc 8 (2 ^ 32) heap0) heap0) (4112 - 8) = 32 /\
  allocated (after (mm_malloc 8 (2 ^ 32) heap0) heap0) (4112 - 8) = 1.
Proof. vm_compute. repeat split; reflexivity. Qed.

(** C9: on the heap that [mm_init] makes, whose only block is free and has
    [CHUNKSIZE - OVERHEAD] bytes, [mm_malloc 16] returns the payload of that
    block, which is not NULL, and the heap afterwards consists of an
    allocated block of 32 bytes followed by a free block with the 32 bytes
    less. *)
Theorem fresh_malloc_16 s0 s fuel :
  arena_ok s0 -> mm_init s0 = (0, s) -> (1 < fuel)%nat ->
  let b := mem_brk s0 + 8 in
  heap_blocks 2 s = Some [(b, CHUNKSIZE - OVERHEAD, FREE)] /\
  exists s',
    mm_malloc fuel 16 s = Returns (payload b) s' /\ payload b <> NULL /\
    heap_blocks 3 s' =
      Some [(b, 32, ALLOC); (b + 32, CHUNKSIZE - OVERHEAD - 32, FREE)] /\
    tags_agree s' b /\ tags_agree s' (b + 32).
Proof.
  intros Ha Hi Hf. cbv zeta.
  destruct (fresh_heap s0 s Ha Hi) as (Hinv & _).
  destruct (fresh_malloc16_inv s0 s fuel Ha Hi Hf) as (s' & rank' & Hm & Hinv').
  split; [apply heap_blocks_layout; [exact (proj1 Hinv)|cbn; lia]|].
  exists s'. unfold payload, sizeof_header_t.
  replace (mem_brk s0 + 8 + 8) with (mem_brk s0 + 16) by lia.
  split; [exact Hm|]. split; [destruct Ha; unfold NULL; lia|].
  split; [apply heap_blocks_layout; [exact (proj1 Hinv')|cbn; lia]|].
  split; eapply heap_inv_tags; try exact Hinv'; in_solve.
Qed.

Lemma fresh_malloc_16_witness :
  heap_blocks 2 heap0 = Some [(4096 + 8, CHUNKSIZE - OVERHEAD, FREE)].
Proof.
  exact (proj1 (fresh_malloc_16 arena0 heap0 2 arena0_ok heap0_init
                  (le_n 2))).
Defined.

(** C10: [mm_realloc] with size 0 never returns: the inner [mm_malloc 0]
    returns NULL without changing the state, and [mm_realloc] takes a NULL
    result for a failed allocation and leaves through [exit]. *)
Theorem realloc_zero_exits fuel p s :
  mm_malloc fuel 0 s = Returns NULL s /\ mm_realloc fuel p 0 s = Exits s.
Proof. split; reflexivity. Qed.

(** * Further properties of the code *)

(** X1: given an arena with room for the first chunk, [mm_init] returns 0;
    the prologue is an allocated header of 8 bytes at the old break, the
    epilogue an allocated header of size 0 in the last 8 bytes, and between
    them lies one free block of [CHUNKSIZE - 16] bytes, the only node of
    the free list. *)
Theorem mm_init_establishes s0 :
  arena_ok s0 -> mem_brk s0 + CHUNKSIZE <= mem_max_addr s0 ->
  exists s,
    mm_init s0 = (0, s) /\
    prologue s = mem_brk s0 /\ mem_brk s = mem_brk s0 + CHUNKSIZE /\
    block_size s (prologue s) = 8 /\ allocated s (prologue s) = 1 /\
    block_size s (mem_brk s - 8) = 0 /\ allocated s (mem_brk s - 8) = 1 /\
    heap_blocks 2 s = Some [(mem_brk s0 + 8, CHUNKSIZE - OVERHEAD, FREE)] /\
    free_list 2 s = Some [mem_brk s0 + 8] /\
    GET_NEXT s (mem_brk s0 + 8) = NULL /\ GET_PREV s (mem_brk s0 + 8) = NULL.
Proof.
  intros (Hpos & Hsmall & Hmax) Hroom.
  pattern (mm_init s0). apply (mm_init_wp s0); try assumption.
  intros s Hinv Hp Hb Hm Hr. exists s.
  pose proof Hinv as (Hlo & Hfl & _).
  destruct (lo_prologue _ _ Hlo) as (P1 & P2).
  destruct (lo_epilogue _ _ Hlo) as (E1 & E2).
  assert (Hroot : freerootptr s <> NULL) by (rewrite Hr; unfold NULL; lia).
  destruct (fl_root _ _ _ _ _ _ Hfl Hroot) as (Fr & Pr & _).
  assert (Hn : GET_NEXT s (freerootptr s) = NULL).
  { destruct (Z.eq_dec (GET_NEXT s (freerootptr s)) NULL) as [E|E]; [exact E|].
    destruct (fl_next _ _ _ _ _ _ Hfl _ Fr E) as (Fn & _ & Rn).
    pose proof (fl_rank _ _ _ _ _ _ Hfl _ Fn). cbv beta in *. lia. }
  rewrite Hr in Hn, Pr.
  repeat (split; [first [reflexivity|assumption]|]).
  split; [apply heap_blocks_layout; [exact Hlo|cbn; lia]|].
  split; [|split; assumption].
  unfold free_list. rewrite Hr. cbn [free_walk].
  rewrite (eqb_false (mem_brk s0 + 8) NULL) by (unfold NULL; lia).
  rewrite Hn. reflexivity.
Qed.

Lemma mm_init_establishes_witness : exists s, mm_init arena0 = (0, s).
Proof.
  destruct (mm_init_establishes arena0 arena0_ok) as (s & Hs & _).
  - vm_compute. discriminate.
  - exists s. exact Hs.
Defined.

(** X2: when the arena has no room for the first chunk, [mm_init]
    returns -1; the memory, the break and the root of the free list are
    as before, and the global [prologue], which is assigned before the
    result of [mem_sbrk] is tested, is left at [(void* )-1], that is
    2^64 - 1. *)
Theorem mm_init_no_room s0 :
  mem_max_addr s0 < mem_brk s0 + CHUNKSIZE ->
  fst (mm_init s0) = -1 /\
  mem (snd (mm_init s0)) = mem s0 /\
  mem_brk (snd (mm_init s0)) = mem_brk s0 /\
  mem_max_addr (snd (mm_init s0)) = mem_max_addr s0 /\
  freerootptr (snd (mm_init s0)) = freerootptr s0 /\
  prologue (snd (mm_init s0)) = 2 ^ 64 - 1.
Proof.
  intros H. rewrite (mm_init_fail s0 H). cbn [fst snd].
  autorewrite with meta. repeat split; reflexivity.
Qed.

Lemma mm_init_no_room_witness :
  fst (mm_init (mkState (fun _ => 0) 4096 (4096 + 100) 7 0)) = -1 /\
  prologue (snd (mm_init (mkState (fun _ => 0) 4096 (4096 + 100) 7 0))) =
    2 ^ 64 - 1.
Proof.
  destruct (mm_init_no_room (mkState (fun _ => 0) 4096 (4096 + 100) 7 0))
    as (H1 & _ & _ & _ & _ & H2).
  - vm_compute. reflexivity.
  - split; assumption.
Defined.

(** X3: on a well-formed heap, with more fuel than the free list has
    nodes, [find_fit] ends; it returns NULL exactly when no free block has
    [asize] bytes, and otherwise the first free block in list order that
    has. *)
Theorem find_fit_first_fit s bl rank fuel asize :
  heap_inv s bl rank -> nfree bl < Z.of_nat fuel ->
  exists r,
    find_fit fuel asize s = Some r /\
    (r = NULL <-> forall x sx, In (x, sx, FREE) bl -> sx < asize) /\
    (r <> NULL ->
     exists sz, In (r, sz, FREE) bl /\ asize <= sz /\
       forall x sx, In (x, sx, FREE) bl -> rank x < rank r -> sx < asize).
Proof.
  intros (Hlo & Hfl & _) Hfuel.
  pose proof (lo_tags _ _ Hlo) as Htags.
  destruct (find_fit_ok s (isfree bl) rank (nfree bl) asize Hfl
              (isfree_nonnull _ _ Hlo) fuel (nfree_nonneg bl) Hfuel)
    as (r & Hr & HrN & HrF).
  exists r. split; [exact Hr|]. split; [split|].
  - intros Er x sx Hx. destruct (Htags _ Hx) as (<- & _).
    apply (HrN Er). eexists. eassumption.
  - intros Hno. destruct (Z.eq_dec r NULL) as [E|E]; [exact E|exfalso].
    destruct (HrF E) as ((sz & Hin) & Hfit & _).
    destruct (Htags _ Hin) as (Tsz & _). specialize (Hno _ _ Hin). lia.
  - intros Er. destruct (HrF Er) as ((sz & Hin) & Hfit & Hfirst).
    destruct (Htags _ Hin) as (Tsz & _). rewrite Tsz in Hfit.
    exists sz. split; [exact Hin|]. split; [exact Hfit|].
    intros x sx Hx Hrk. destruct (Htags _ Hx) as (<- & _).
    apply Hfirst; [eexists; eassumption|assumption].
Qed.

Lemma find_fit_first_fit_witness : exists r, find_fit 8 32 heap5ad = Some r.
Proof.
  destruct (find_fit_first_fit heap5ad layout5ad rank5ad 8 32 heap5ad_inv)
    as (r & Hr & _).
  - vm_compute. reflexivity.
  - exists r. exact Hr.
Defined.

(** X4: on a well-formed heap [mm_malloc] either returns NULL and leaves
    the state alone, or returns the payload of a block that was not
    allocated before, is allocated afterwards and has at least the adjusted
    size; the heap stays well formed and every block allocated before is
    still allocated, at the same place and with the same size. *)
Theorem malloc_returns_fresh_block s bl rank fuel size p s' :
  heap_inv s bl rank -> size <> 0 -> mm_malloc fuel size s = Returns p s' ->
  (p = NULL /\ s' = s) \/
  exists bl' rank' b sb,
    heap_inv s' bl' rank' /\ p = b + 8 /\ In (b, sb, ALLOC) bl' /\
    adjust_size size <= sb /\
    (forall x sx, In (x, sx, ALLOC) bl -> In (x, sx, ALLOC) bl') /\
    (forall sx, ~ In (b, sx, ALLOC) bl).
Proof. exact (mm_malloc_inv s bl rank fuel size p s'). Qed.

Lemma malloc_returns_fresh_block_witness :
  (result (mm_malloc 8 16 heap5ad) = NULL /\
   after (mm_malloc 8 16 heap5ad) heap5ad = heap5ad) \/
  exists bl' rank' b sb,
    heap_inv (after (mm_malloc 8 16 heap5ad) heap5ad) bl' rank' /\
    result (mm_malloc 8 16 heap5ad) = b + 8 /\ In (b, sb, ALLOC) bl' /\
    adjust_size 16 <= sb /\
    (forall x sx, In (x, sx, ALLOC) layout5ad -> In (x, sx, ALLOC) bl') /\
    (forall sx, ~ In (b, sx, ALLOC) layout5ad).
Proof.
  apply (malloc_returns_fresh_block heap5ad layout5ad rank5ad 8 16).
  - exact heap5ad_inv.
  - discriminate.
  - apply outcome_eta. vm_compute. reflexivity.
Defined.

(** X5: with more fuel than the free list has nodes, [mm_malloc] on a
    well-formed heap returns: the walk of the free list ends. *)
Theorem mm_malloc_returns s bl rank fuel size :
  heap_inv s bl rank -> nfree bl < Z.of_nat fuel ->
  exists p s', mm_malloc fuel size s = Returns p s'.
Proof.
  intros Hinv Hfuel. destruct (Z.eq_dec size 0) as [->|Hsz].
  - exists NULL, s. reflexivity.
  - pattern (mm_malloc fuel size s).
    apply (mm_malloc_wp s bl rank fuel size _ Hinv Hsz Hfuel); cbv beta;
      intros; eauto.
Qed.

Lemma mm_malloc_returns_witness :
  exists p s', mm_malloc 8 16 heap5ad = Returns p s'.
Proof.
  apply (mm_malloc_returns heap5ad layout5ad rank5ad 8 16 heap5ad_inv).
  vm_compute. reflexivity.
Defined.

(** X6: [mm_free] of an allocated block of a well-formed heap leaves a
    well-formed heap in which the block is no longer allocated: a free block
    covers it, and that block is the root of the free list.  The other
    allocated blocks are untouched, and neither the break nor the prologue
    moves. *)
Theorem free_releases_block s bl rank p sz :
  heap_inv s bl rank -> In (p - 8, sz, ALLOC) bl ->
  exists bl' rank' m szm,
    heap_inv (mm_free p s) bl' rank' /\
    In (m, szm, FREE) bl' /\ m <= p - 8 /\ p - 8 + sz <= m + szm /\
    freerootptr (mm_free p s) = m /\
    (forall sx, ~ In (p - 8, sx, ALLOC) bl') /\
    (forall x sx, In (x, sx, ALLOC) bl -> x <> p - 8 -> In (x, sx, ALLOC) bl') /\
    mem_brk (mm_free p s) = mem_brk s /\ prologue (mm_free p s) = prologue s.
Proof.
  intros Hinv Hin.
  destruct (mm_free_inv _ _ _ _ _ Hinv Hin)
    as (l1 & l2 & rank' & Hbl & Hinv' & Hroot & Hb & _ & Hp).
  pose proof (lo_chain _ _ (proj1 Hinv)) as Hch. rewrite Hbl in Hch.
  assert (Hch0 : chain (prologue s + sizeof_header_t)
                   (l1 ++ (p - 8, sz, FREE) :: l2) (mem_brk s - sizeof_header_t)).
  { apply chain_app in Hch. destruct Hch as (m & Hc1 & Hc2).
    apply chain_app. exists m. split; [exact Hc1|exact Hc2]. }
  destruct (merged_span _ _ _ _ _ _ Hch0) as (szm & Hm & Hle & Hge).
  exists (fst (merged l1 (p - 8) sz l2)), rank', (snd (merged l1 (p - 8) sz l2)), szm.
  split; [exact Hinv'|]. split; [exact Hm|]. split; [exact Hle|].
  split; [exact Hge|]. split; [exact Hroot|]. split; [|split; [|split]].
  - intros sx Hx.
    pose proof (lo_chain _ _ (proj1 Hinv')) as Hch'.
    pose proof (chain_in _ _ _ _ _ _ Hch' Hx).
    pose proof (chain_in _ _ _ _ _ _ Hch' Hm).
    pose proof (chain_in _ _ _ _ _ _ Hch0 ltac:(in_solve)) as Hg.
    destruct (chain_disj _ _ _ _ _ _ _ _ _ Hch' Hx Hm) as [(_ & _ & E)|D];
      [discriminate|lia].
  - intros x sx Hx Hne. apply merged_keeps; [rewrite <- Hbl; exact Hx|exact Hne].
  - exact Hb.
  - exact Hp.
Qed.

Lemma free_releases_block_witness :
  exists bl' rank' m szm,
    heap_inv (mm_free 4144 heap5ad) bl' rank' /\
    In (m, szm, FREE) bl' /\ m <= 4144 - 8 /\ 4144 - 8 + 32 <= m + szm /\
    freerootptr (mm_free 4144 heap5ad) = m /\
    (forall sx, ~ In (4144 - 8, sx, ALLOC) bl') /\
    (forall x sx, In (x, sx, ALLOC) layout5ad -> x <> 4144 - 8 ->
       In (x, sx, ALLOC) bl') /\
    mem_brk (mm_free 4144 heap5ad) = mem_brk heap5ad /\
    prologue (mm_free 4144 heap5ad) = prologue heap5ad.
Proof.
  apply (free_releases_block heap5ad layout5ad rank5ad 4144 32 heap5ad_inv).
  vm_compute. auto.
Defined.

(** X7: the well-formedness of the heap does not depend on the payload
    bytes of an allocated block: whatever is written between its header and
    its footer, the same layout and the same free list are well formed. *)
Theorem payload_writes_keep_heap s bl rank b sb m' :
  heap_inv s bl rank -> In (b, sb, ALLOC) bl ->
  (forall a, a < b + 8 \/ b + sb - 8 <= a -> m' a = mem s a) ->
  heap_inv (with_mem m' s) bl rank /\
  heap_blocks (S (length bl)) (with_mem m' s) = Some bl /\
  freerootptr (with_mem m' s) = freerootptr s.
Proof.
  intros Hinv Hin Hframe.
  pose proof (heap_inv_payload s bl rank b sb m' Hinv Hin Hframe) as Hinv'.
  split; [exact Hinv'|]. split; [|reflexivity].
  apply heap_blocks_layout; [exact (proj1 Hinv')|lia].
Qed.

Lemma payload_writes_keep_heap_witness :
  heap_inv (with_mem (Mem.upd (mem heap5ad) 4150 255) heap5ad) layout5ad rank5ad.
Proof.
  refine (proj1 (payload_writes_keep_heap heap5ad layout5ad rank5ad 4136 32
                   (Mem.upd (mem heap5ad) 4150 255) heap5ad_inv _ _)).
  - vm_compute. auto.
  - intros a Ha. unfold Mem.upd. destruct (Z.eqb_spec a 4150); [lia|reflexivity].
Defined.

(** X8: the two bit-fields of a header word are independent: storing the
    flag keeps the size, storing the size keeps the flag, the flag is stored
    modulo 2 and the size modulo 2^31. *)
Theorem header_fields_independent s p v :
  block_size (set_allocated p v s) p = block_size s p /\
  allocated (set_allocated p v s) p = v mod 2 /\
  allocated (set_block_size p v s) p = allocated s p /\
  block_size (set_block_size p v s) p = v mod 2 ^ 31.
Proof.
  split; [apply block_size_set_allocated|].
  split; [apply allocated_set_allocated|].
  split; [apply allocated_set_block_size|apply block_size_set_block_size].
Qed.

(** X9: the adjusted size lies between 32 and 2^32, is a multiple of 8,
    and, for a request below the 32-bit ceiling, leaves room for the request
    and the 16 bytes of header and footer. *)
Theorem adjust_size_bounds size :
  32 <= adjust_size size < 2 ^ 32 /\ adjust_size size mod 8 = 0 /\
  (0 <= size -> size + OVERHEAD + 7 < 2 ^ 32 ->
   size + OVERHEAD <= adjust_size size).
Proof.
  split; [apply adjust_size_range|]. split.
  - destruct (adjust_size_shape size) as (k & -> & _).
    rewrite Z.mul_comm. apply Z.mod_mul. lia.
  - intros H0 H1. rewrite (adjust_size_small size H0 H1).
    unfold OVERHEAD, MIN_BLOCK_SIZE in *. consts.
    pose proof (Z.div_mod (size + (8 + 8) + 7) 8 ltac:(lia)).
    pose proof (Z.mod_pos_bound (size + (8 + 8) + 7) 8 ltac:(lia)). lia.
Qed.

(** X10: [extend_heap] on a well-formed heap. When the arena has no room
    for the [8 * words] bytes it returns NULL and the state it was given;
    otherwise the break moves up by [8 * words], the new bytes make a free
    block that has absorbed the last block of the heap if that one was free,
    and the block returned is the root of the free list and not NULL. *)
Theorem extend_heap_grows s bl rank words :
  heap_inv s bl rank -> 32 <= 8 * words < 2 ^ 32 ->
  (mem_max_addr s < mem_brk s + 8 * words /\ extend_heap words s = (NULL, s)) \/
  (mem_brk s + 8 * words <= mem_max_addr s /\
   exists b s' rank',
     extend_heap words s = (b, s') /\ b <> NULL /\
     b = snd (merged bl (mem_brk s - 8) (8 * words) []) /\
     heap_inv s' (fst (merged bl (mem_brk s - 8) (8 * words) [])) rank' /\
     freerootptr s' = b /\ mem_brk s' = mem_brk s + 8 * words /\
     prologue s' = prologue s).
Proof.
  intros Hinv Hw. pattern (extend_heap words s).
  apply (extend_heap_wp s bl rank words _ Hinv Hw); cbv beta.
  - intros Hfull. left. split; [exact Hfull|reflexivity].
  - intros s' rank' Hroom Hinv' Hroot Hb _ Hp. right. split; [exact Hroom|].
    exists (snd (merged bl (mem_brk s - 8) (8 * words) [])), s', rank'.
    split; [reflexivity|]. split; [|auto].
    destruct (merged_last bl _ (mem_brk s - 8) _ (8 * words)
                (lo_chain _ _ (proj1 Hinv)) ltac:(lia)) as (l1 & b & sz & Hmg & _).
    rewrite Hmg in *. cbn [fst snd] in *.
    apply (isfree_nonnull _ _ (proj1 Hinv')). exists sz.
    in_solve.
Qed.

Lemma extend_heap_grows_witness :
  (mem_max_addr heap5ad < mem_brk heap5ad + 8 * 8192 /\
   extend_heap 8192 heap5ad = (NULL, heap5ad)) \/
  (mem_brk heap5ad + 8 * 8192 <= mem_max_addr heap5ad /\
   exists b s' rank',
     extend_heap 8192 heap5ad = (b, s') /\ b <> NULL /\
     b = snd (merged layout5ad (mem_brk heap5ad - 8) (8 * 8192) []) /\
     heap_inv s' (fst (merged layout5ad (mem_brk heap5ad - 8) (8 * 8192) []))
       rank' /\
     freerootptr s' = b /\ mem_brk s' = mem_brk heap5ad + 8 * 8192 /\
     prologue s' = prologue heap5ad).
Proof.
  apply (extend_heap_grows heap5ad layout5ad rank5ad 8192 heap5ad_inv).
  lia.
Defined.

(** X11: [place] on a free block of a well-formed heap that has room for
    [asize] bytes: the block is allocated afterwards; it is cut to [asize]
    bytes, the rest becoming a free block, when the rest has at least 32
    bytes, and keeps its size otherwise.  The heap stays well formed. *)
Theorem place_splits_or_consumes s l1 l2 rank b sz asize :
  heap_inv s (l1 ++ (b, sz, FREE) :: l2) rank -> 32 <= asize <= sz ->
  let s' := place b asize s in
  (exists rank', heap_inv s' (placed l1 b sz asize l2) rank') /\
  allocated s' b = 1 /\
  block_size s' b = (if 32 <=? sz - asize then asize else sz) /\
  (32 <= sz - asize ->
   allocated s' (b + asize) = 0 /\ block_size s' (b + asize) = sz - asize) /\
  mem_brk s' = mem_brk s.
Proof.
  intros Hinv Hsz. cbv zeta. pattern (place b asize s).
  apply (place_wp s l1 l2 rank b sz asize _ Hinv Hsz).
  intros s' rank' Hinv' Hb _ _.
  split; [exists rank'; exact Hinv'|].
  pose proof (lo_tags _ _ (proj1 Hinv')) as Htags.
  unfold placed, MIN_BLOCK_SIZE in *.
  destruct (Z.leb_spec 32 (sz - asize)) as [Hbig|Hsmall].
  - destruct (Htags (b, asize, ALLOC) ltac:(in_solve)) as (T1 & T2 & _).
    destruct (Htags (b + asize, sz - asize, FREE) ltac:(in_solve)) as (U1 & U2 & _).
    auto 8.
  - destruct (Htags (b, sz, ALLOC) ltac:(in_solve)) as (T1 & T2 & _).
    split; [exact T2|]. split; [exact T1|]. split; [intros; lia|exact Hb].
Qed.

Lemma place_splits_or_consumes_witness : allocated (place 4264 32 heap5ad) 4264 = 1.
Proof.
  refine (proj1 (proj2 (place_splits_or_consumes heap5ad
           [(4104, 32, 0); (4136, 32, 1); (4168, 32, 1); (4200, 32, 0);
            (4232, 32, 1)] [] rank5ad 4264 65360 32 heap5ad_inv _))).
  lia.
Defined.

(** * The heap checker *)

Lemma wrap64_mod8 x : wrap64 x mod 8 = x mod 8.
Proof.
  unfold wrap64. apply Z.mod_mod_divide. exists (2 ^ 61). reflexivity.
Qed.

Lemma payload_aligned x : wrap64 (payload x) mod 8 = x mod 8.
Proof.
  rewrite wrap64_mod8. unfold payload, sizeof_header_t.
  rewrite <- (Z.mul_1_l 8) at 1. apply Z.mod_add. lia.
Qed.

Lemma checkblock_ok s x sz a :
  tag_ok s (x, sz, a) -> x mod 8 = 0 -> checkblock s x = [].
Proof.
  intros (T1 & _ & T3 & _) Hx. unfold checkblock, get_footer. cbv zeta.
  rewrite payload_aligned, Hx, T1, T3, !Z.eqb_refl. reflexivity.
Qed.

Lemma checkblock_prologue s :
  block_size s (prologue s) = sizeof_header_t -> prologue s mod 8 = 0 ->
  checkblock s (prologue s) = [].
Proof.
  intros Hs Hp. unfold checkblock, get_footer. cbv zeta.
  rewrite payload_aligned, Hp, Hs.
  replace (prologue s + sizeof_header_t - sizeof_footer_t) with (prologue s)
    by (unfold sizeof_header_t, sizeof_footer_t; lia).
  rewrite Hs, !Z.eqb_refl. reflexivity.
Qed.

Lemma printblock_ok s x sz a :
  tag_ok s (x, sz, a) -> sz <> 0 -> printblock s x = [block_line (x, sz, a)].
Proof.
  intros (T1 & T2 & T3 & T4) Hsz. unfold printblock, get_footer. cbv zeta.
  rewrite T1, T2, T3, T4, (eqb_false sz 0) by assumption. reflexivity.
Qed.

Lemma checkheap_loop_ok s verbose bl :
  forall a e fuel,
    chain a bl e -> (forall b, In b bl -> tag_ok s b) -> block_size s e = 0 ->
    sizes8 bl -> a mod 8 = 0 -> (length bl < fuel)%nat ->
    checkheap_loop fuel verbose a s =
    Some (if negb (verbose =? 0) then map block_line bl else [], e).
Proof.
  induction bl as [|[[x sz] al] bl IH]; intros a e fuel Hch Htags He H8 Ha Hf;
    (destruct fuel as [|fuel]; [cbn [length] in Hf; lia|]);
    cbn [checkheap_loop]; cbv zeta.
  - cbn [chain] in Hch. subst a. rewrite He. cbn [Z.ltb Z.compare map].
    destruct (negb (verbose =? 0)); reflexivity.
  - cbn [chain] in Hch. destruct Hch as (-> & Hsz & Hch).
    unfold MIN_BLOCK_SIZE in Hsz.
    apply sizes8_cons in H8. destruct H8 as (Hsz8 & H8).
    pose proof (Htags (a, sz, al) (or_introl eq_refl)) as Ht.
    pose proof Ht as (T1 & _).
    rewrite T1. replace (0 <? sz) with true by (symmetry; apply Z.ltb_lt; lia).
    rewrite (IH (a + sz) e fuel); [|assumption| |assumption..| |].
    + rewrite (checkblock_ok s a sz al Ht Ha).
      rewrite (printblock_ok s a sz al Ht) by lia.
      destruct (negb (verbose =? 0)); reflexivity.
    + intros b Hb. apply Htags. right. assumption.
    + apply mod8_add; assumption.
    + cbn [length] in Hf. lia.
Qed.

(** The output of the checker on a well-formed heap whose blocks are
    aligned. *)
Lemma checkheap_inv s bl rank fuel verbose :
  heap_inv s bl rank -> sizes8 bl -> prologue s mod 8 = 0 ->
  (length bl < fuel)%nat ->
  mm_checkheap fuel verbose s =
  Some (if negb (verbose =? 0)
        then HeapAt (prologue s) :: map block_line bl ++ [EOL (mem_brk s - 8)]
        else []).
Proof.
  intros ([Hb (Hps & Hpa) Hch (Hes & Hea) Htags] & _) H8 Hp Hf.
  unfold mm_checkheap. cbv zeta.
  rewrite Hps, Hpa, Z.eqb_refl.
  rewrite (checkblock_prologue s Hps Hp).
  rewrite (checkheap_loop_ok s verbose bl _ _ fuel Hch Htags Hes H8
             (mod8_add _ sizeof_header_t Hp eq_refl) Hf).
  unfold printblock. cbv zeta. rewrite Hes, Hea.
  unfold sizeof_header_t, ALLOC. cbn [Z.eqb negb orb app].
  destruct (negb (verbose =? 0)); cbn [app]; [|reflexivity].
  reflexivity.
Qed.

Lemma heap_walk_length s :
  forall fuel a bl, heap_walk fuel a s = Some bl -> (length bl < fuel)%nat.
Proof.
  induction fuel as [|fuel IH]; intros a bl H; [discriminate|].
  cbn [heap_walk] in H. cbv zeta in H.
  destruct (block_size s a =? 0).
  - injection H as <-. cbn [length]. lia.
  - destruct (heap_walk fuel (a + block_size s a) s) as [l|] eqn:E; [|discriminate].
    injection H as <-. apply IH in E. cbn [length]. lia.
Qed.

Lemma checkblock_silent s x :
  checkblock s x = [] ->
  x mod 8 = 0 /\ block_size s (get_footer s x) = block_size s x.
Proof.
  unfold checkblock. cbv zeta. rewrite payload_aligned. intros H.
  apply app_eq_nil in H. destruct H as (H1 & H2).
  destruct (Z.eqb_spec (x mod 8) 0) as [E1|]; [|discriminate].
  destruct (Z.eqb_spec (block_size s x) (block_size s (get_footer s x)))
    as [E2|]; [|discriminate].
  auto.
Qed.

Lemma checkheap_loop_silent s :
  forall fuel a e,
    checkheap_loop fuel 0 a s = Some ([], e) ->
    exists bl,
      heap_walk fuel a s = Some bl /\ e = a + span bl /\ block_size s e = 0 /\
      forall x sz al, In (x, sz, al) bl ->
        x mod 8 = 0 /\ block_size s (get_footer s x) = sz.
Proof.
  induction fuel as [|fuel IH]; intros a e H; [discriminate|].
  cbn [checkheap_loop heap_walk] in *. cbv zeta in *.
  pose proof (block_size_range s a) as Hr.
  destruct (Z.ltb_spec 0 (block_size s a)) as [Hpos|Hz].
  - rewrite (eqb_false (block_size s a) 0) by lia.
    destruct (checkheap_loop fuel 0 (a + block_size s a) s) as [[rest e']|] eqn:E;
      [|discriminate].
    injection H as Hout <-. cbn [Z.eqb negb app] in Hout.
    apply app_eq_nil in Hout. destruct Hout as (Hcb & ->).
    destruct (IH _ _ E) as (bl & Hw & He & Hz & Hall).
    rewrite Hw. eexists. split; [reflexivity|].
    cbn [span fold_right fst snd]. fold (span bl).
    split; [lia|]. split; [assumption|].
    intros x sz al [Ex|Hin]; [|exact (Hall _ _ _ Hin)].
    injection Ex as <- <- _. exact (checkblock_silent s a Hcb).
  - injection H as <-. replace (block_size s a) with 0 by lia.
    exists []. cbn [span fold_right].
    split; [reflexivity|]. split; [lia|]. split; [lia|]. intros x sz al [].
Qed.

(** * Properties *)

(** X12: in every [reachable] state (the states made by [mm_init],
    [mm_malloc], [mm_free] of live pointers, stores of the client into
    live payloads, and [mm_realloc] of live pointers to sizes with
    [size + OVERHEAD + 7 < 2 ^ 32]) whose prologue is at a multiple of 8,
    every pointer returned by [mm_malloc] is a multiple of 8.  Beyond the
    bound on [mm_realloc] this fails, as the heap can be corrupted there. *)
Theorem malloc_aligned s fuel size p s' :
  reachable s -> prologue s mod 8 = 0 ->
  mm_malloc fuel size s = Returns p s' -> p mod 8 = 0.
Proof.
  intros Hr Hp Hm.
  destruct (reachable_al s Hr) as (bl & rank & Hinv & H8).
  destruct (mm_malloc_al _ _ _ _ _ _ _ Hinv H8 Hm)
    as (bl' & rank' & Hinv' & H8' & Hp' & [->|(sz & al & Hin)]);
    [reflexivity|].
  rewrite <- Hp' in Hp.
  pose proof (block_aligned _ _ _ _ _ _ Hinv' H8' Hp Hin) as Hb.
  replace p with (p - 8 + 8) by lia. apply mod8_add; [assumption|reflexivity].
Qed.

Lemma malloc_aligned_witness : result (mm_malloc 8 16 heap5r) mod 8 = 0.
Proof.
  apply (malloc_aligned heap5r 8 16 _ (after (mm_malloc 8 16 heap5r) heap5r)
           heap5r_reachable).
  - vm_compute. reflexivity.
  - apply outcome_eta. vm_compute. reflexivity.
Defined.

(** X13: in every [reachable] state (reallocations limited to sizes with
    [size + OVERHEAD + 7 < 2 ^ 32]) two distinct live blocks do not
    overlap, and each lies between the prologue and the break. *)
Theorem live_blocks_disjoint s p q :
  reachable s -> live s p -> live s q -> p <> q ->
  (p + block_size s (p - 8) <= q \/ q + block_size s (q - 8) <= p) /\
  prologue s + 16 <= p /\ p + block_size s (p - 8) <= mem_brk s.
Proof.
  intros Hr Hlp Hlq Hne.
  destruct (reachable_inv s Hr) as (bl & rank & Hinv).
  destruct (live_in _ _ _ _ Hinv Hlp) as (sp & Hip).
  destruct (live_in _ _ _ _ Hinv Hlq) as (sq & Hiq).
  destruct Hinv as (Hlo & _).
  pose proof (lo_chain _ _ Hlo) as Hch.
  destruct (lo_tags _ _ Hlo _ Hip) as (-> & _).
  destruct (lo_tags _ _ Hlo _ Hiq) as (-> & _).
  pose proof (chain_in _ _ _ _ _ _ Hch Hip) as Hgp.
  unfold sizeof_header_t in *.
  destruct (chain_disj _ _ _ _ _ _ _ _ _ Hch Hip Hiq) as [(E & _)|D]; lia.
Qed.

Lemma live_blocks_disjoint_witness :
  (4112 + block_size heap2 (4112 - 8) <= 4144 \/
   4144 + block_size heap2 (4144 - 8) <= 4112) /\
  prologue heap2 + 16 <= 4112 /\
  4112 + block_size heap2 (4112 - 8) <= mem_brk heap2.
Proof.
  apply (live_blocks_disjoint heap2 4112 4144 heap2_reachable
           heap2_live1 heap2_live2).
  discriminate.
Defined.

(** X14: in every [reachable] state (reallocations limited to sizes with
    [size + OVERHEAD + 7 < 2 ^ 32]) whose prologue is at a multiple of 8,
    [mm_checkheap] with [verbose = 0] ends and prints nothing. *)
Theorem checkheap_accepts s :
  reachable s -> prologue s mod 8 = 0 ->
  exists n, forall fuel, (n <= fuel)%nat -> mm_checkheap fuel 0 s = Some [].
Proof.
  intros Hr Hp. destruct (reachable_al s Hr) as (bl & rank & Hinv & H8).
  exists (S (length bl)). intros fuel Hf.
  exact (checkheap_inv s bl rank fuel 0 Hinv H8 Hp ltac:(lia)).
Qed.

Lemma checkheap_accepts_witness :
  exists n, forall fuel, (n <= fuel)%nat -> mm_checkheap fuel 0 heap5r = Some [].
Proof.
  apply (checkheap_accepts heap5r heap5r_reachable). vm_compute. reflexivity.
Defined.

(** X15: with [verbose] set, in every [reachable] state (reallocations
    limited to sizes with [size + OVERHEAD + 7 < 2 ^ 32]) whose prologue is
    at a multiple of 8, [mm_checkheap] prints the address of the prologue,
    then one line for each block of the heap in address order, with the
    size and the flag of its header and the same values for its footer,
    then the end-of-list line for the epilogue, and no error line. *)
Theorem checkheap_listing s verbose :
  reachable s -> prologue s mod 8 = 0 -> verbose <> 0 ->
  exists bl n, forall fuel, (n <= fuel)%nat ->
    heap_blocks fuel s = Some bl /\
    mm_checkheap fuel verbose s =
    Some (HeapAt (prologue s) :: map block_line bl ++ [EOL (mem_brk s - 8)]).
Proof.
  intros Hr Hp Hv. destruct (reachable_al s Hr) as (bl & rank & Hinv & H8).
  exists bl, (S (length bl)). intros fuel Hf. split.
  - apply heap_blocks_layout; [exact (proj1 Hinv)|lia].
  - rewrite (checkheap_inv s bl rank fuel verbose Hinv H8 Hp ltac:(lia)).
    rewrite (eqb_false verbose 0) by assumption. reflexivity.
Qed.

Lemma checkheap_listing_witness :
  exists bl n, forall fuel, (n <= fuel)%nat ->
    heap_blocks fuel heap5r = Some bl /\
    mm_checkheap fuel 1 heap5r =
    Some (HeapAt (prologue heap5r) :: map block_line bl
            ++ [EOL (mem_brk heap5r - 8)]).
Proof.
  apply (checkheap_listing heap5r 1 heap5r_reachable).
  - vm_compute. reflexivity.
  - discriminate.
Defined.

(** X16: when [mm_checkheap] with [verbose = 0] ends and prints nothing,
    the prologue header has size 8 and is allocated, the walk of the
    headers ends at a header of size 0 that is allocated, and every block
    of the walk starts at a multiple of 8 and has a footer that carries
    the size of its header. *)
Theorem checkheap_silent_means s fuel :
  mm_checkheap fuel 0 s = Some [] ->
  block_size s (prologue s) = 8 /\ allocated s (prologue s) = 1 /\
  prologue s mod 8 = 0 /\
  exists bl,
    heap_blocks fuel s = Some bl /\
    block_size s (prologue s + 8 + span bl) = 0 /\
    allocated s (prologue s + 8 + span bl) = 1 /\
    forall x sz al, In (x, sz, al) bl ->
      x mod 8 = 0 /\ block_size s (get_footer s x) = sz.
Proof.
  unfold mm_checkheap, heap_blocks. cbv zeta. cbn [Z.eqb negb app].
  destruct (checkheap_loop fuel 0 (prologue s + block_size s (prologue s)) s)
    as [[out3 e]|] eqn:E; [|discriminate].
  intros H. injection H as H.
  apply app_eq_nil in H. destruct H as (H1 & H).
  apply app_eq_nil in H. destruct H as (H2 & H).
  apply app_eq_nil in H. destruct H as (-> & H5).
  unfold sizeof_header_t in *.
  destruct (Z.eqb_spec (block_size s (prologue s)) 8) as [Eps|]; [|discriminate].
  pose proof (allocated_range s (prologue s)) as Hrp.
  destruct (Z.eqb_spec (allocated s (prologue s)) 0) as [|Epa]; [discriminate|].
  pose proof (allocated_range s e) as Hre.
  destruct (Z.eqb_spec (block_size s e) 0) as [Ees|]; [|discriminate].
  destruct (Z.eqb_spec (allocated s e) 0) as [|Eea]; [discriminate|].
  destruct (checkblock_silent s _ H2) as (Hpal & _).
  rewrite Eps in E |- *.
  destruct (checkheap_loop_silent s fuel _ _ E) as (bl & Hw & He & _ & Hall).
  split; [reflexivity|]. split; [lia|]. split; [assumption|].
  exists bl. rewrite <- He. split; [assumption|]. split; [assumption|].
  split; [lia|assumption].
Qed.

Lemma checkheap_silent_means_witness :
  block_size heap2 (prologue heap2) = 8 /\ allocated heap2 (prologue heap2) = 1 /\
  prologue heap2 mod 8 = 0 /\
  exists bl,
    heap_blocks 8 heap2 = Some bl /\
    block_size heap2 (prologue heap2 + 8 + span bl) = 0 /\
    allocated heap2 (prologue heap2 + 8 + span bl) = 1 /\
    forall x sz al, In (x, sz, al) bl ->
      x mod 8 = 0 /\ block_size heap2 (get_footer heap2 x) = sz.
Proof.
  apply (checkheap_silent_means heap2 8). vm_compute. reflexivity.
Defined.
